(** * Hub-and-spoke coordination in mpi-sppy: windows, bound spokes and two
      heuristics (slam_heuristic.py, xhatlooper_bounder.py, spcommunicator.py)

    A shallow embedding of the cylinder code.  Python objects become records,
    exceptions become the [Raise] branch of a small error monad, calls into
    the optimizer and the MPI runtime are recorded in an event log.  A double
    is the rational it stands for (extended with the IEEE special values
    where a window or a bound can hold them); where the code computes with
    doubles the result is rounded to the nearest binary64 number. *)

From Stdlib Require Import QArith Qround Qabs Qminmax Qpower Lqa ZArith Lia
  Sorted.
From stdpp Require Import base option list gmap strings.

Local Open Scope Z_scope.

(** ** Doubles *)

(** A window slot or a bound: an IEEE double, kept exact.  [NaN] is the
    "undefined" sentinel of a fresh buffer; comparisons with it are false. *)
Inductive double : Type :=
  | NaN
  | NegInf
  | Finite (q : Q)
  | PosInf.

(** Python's [a < b] on doubles. *)
Definition dlt (a b : double) : bool :=
  match a, b with
  | NaN, _ | _, NaN => false
  | NegInf, NegInf => false
  | NegInf, _ => true
  | _, NegInf => false
  | PosInf, _ => false
  | Finite _, PosInf => true
  | Finite x, Finite y => negb (Qle_bool y x)
  end.

(** ** Exceptions *)

Inductive exn : Type :=
  | RuntimeError (msg : string)
  | KeyError (key : string)
  | TypeError
  | ValueError
  | IndexError
  | AssertionError
  | ZeroDivisionError
  | AttributeError (name : string)
  | SystemExit.

Inductive result (A : Type) : Type :=
  | Ok (a : A)
  | Raise (e : exn).
Arguments Ok {A} a.
Arguments Raise {A} e.

#[export] Instance result_ret : MRet result := fun _ a => Ok a.
#[export] Instance result_bind : MBind result := fun _ _ f m =>
  match m with
  | Ok a => f a
  | Raise e => Raise e
  end.

(** ** Arrays (numpy, one axis) *)

Module Np.

(** [np.empty(n)]: [n] slots holding whatever the allocator left there
    ([garbage]); a negative [n] is a ValueError.  What numpy and the machine
    can hold is not bounded here: the refusal of a length beyond the index
    range, or beyond the memory at hand, lies outside this model. *)
Definition empty (garbage : nat → double) (n : Z) : result (list double) :=
  if n <? 0 then Raise ValueError
  else Ok (garbage <$> seq 0 (Z.to_nat n)).

(** [arr[:] = v] *)
Definition fill (v : double) (arr : list double) : list double :=
  (λ _, v) <$> arr.

(** [arr[i] = v]; a negative [i] counts from the end, anything outside the
    array is an IndexError. *)
Definition setitem (arr : list double) (i : Z) (v : double)
  : result (list double) :=
  let n := Z.of_nat (length arr) in
  let j := if i <? 0 then i + n else i in
  if (0 <=? j) && (j <? n) then Ok (<[Z.to_nat j := v]> arr)
  else Raise IndexError.

End Np.

(** ** spcommunicator.py *)

(** [communicator_array(size)] *)
Definition communicator_array (garbage : nat → double) (size : Z)
  : result (list double) :=
  arr ← Np.empty garbage (size + 1);
  let arr := Np.fill NaN arr in
  Np.setitem arr (-1) (Finite 0).

(** An MPI window as [MPI.Win.Allocate(size, disp_unit, comm)] leaves it. *)
Record Win : Type := mkWin {
  win_size : Z;        (* bytes *)
  win_disp_unit : Z;   (* bytes per slot *)
  win_comm : nat       (* the communicator it was created over *)
}.

Section MakeWindow.

(** [MPI.DOUBLE.size], the width in bytes of one slot. *)
Variable DOUBLE_size : Z.

(** [MPI.Win.Allocate]: the window and its memory, uninitialised, one
    double per [disp_unit] bytes; a negative size is an MPI error (mpi4py's
    [MPI.Exception] is a RuntimeError). *)
Definition Win_Allocate (garbage : nat → double) (size disp_unit : Z)
    (comm : nat) (slots : Z) : result (Win * list double) :=
  if size <? 0 then Raise (RuntimeError "MPI.Exception")
  else Ok (mkWin size disp_unit comm, garbage <$> seq 0 (Z.to_nat slots)).

(** [SPCommunicator._make_window(length, comm)]; [strata_comm] is the
    default communicator. *)
Definition _make_window (garbage : nat → double) (strata_comm : nat)
    (length : Z) (comm : option nat) : result (Win * list double) :=
  let comm := default strata_comm comm in
  let size := DOUBLE_size * (length + 1) in
  '(window, mem) ← Win_Allocate garbage size DOUBLE_size comm (length + 1);
  let buff := mem in
  let buff := Np.fill NaN buff in
  buff ← Np.setitem buff (-1) (Finite 0);
  Ok (window, buff).

End MakeWindow.

(** ** Python values and the options mapping *)

(** What an options dict holds; a nested dict is a finite map again. *)
#[warnings="-register-all"] Inductive pyval : Type :=
  | PyNone
  | PyBool (b : bool)
  | PyInt (z : Z)
  | PyFloat (q : Q)
  | PyStr (s : string)
  | PyDict (d : gmap string pyval).

(** [d[key]]: KeyError when absent. *)
Definition getitem (d : gmap string pyval) (key : string) : result pyval :=
  match d !! key with
  | Some v => Ok v
  | None => Raise (KeyError key)
  end.

(** [v[key]] on a value: only dicts can be subscripted by a string. *)
Definition subscript (v : pyval) (key : string) : result pyval :=
  match v with
  | PyDict d => getitem d key
  | _ => Raise TypeError
  end.

(** [d.get(key, dflt)] *)
Definition get_default (d : gmap string pyval) (key : string) (dflt : pyval)
  : pyval :=
  default dflt (d !! key).

(** [key in d] *)
Definition contains (d : gmap string pyval) (key : string) : bool :=
  bool_decide (is_Some (d !! key)).

(** Python's builtin [round(x)] with one argument: the nearest integer,
    a tie going to the even neighbour. *)
Definition py_round (x : Q) : Z :=
  let f := Qfloor x in
  match Qcompare (x - inject_Z f) (1 # 2) with
  | Lt => f
  | Gt => f + 1
  | Eq => if Z.even f then f else f + 1
  end.

(** ** Arithmetic on doubles (IEEE 754 binary64) *)

(** [floor(log2 x)] of a positive rational: the [k] with
    [2^k <= x < 2^(k+1)]. *)
Definition ilog2 (x : Q) : Z :=
  let k := Z.log2 (Qnum x) - Z.log2 (Z.pos (Qden x)) in
  if Qle_bool (2 ^ k) x then k else k - 1.

(** The distance between neighbouring doubles around a non-zero [x]: 53
    significant bits, and [2^-1074] throughout the subnormal range. *)
Definition ulp (x : Q) : Q :=
  (2 ^ Z.max (ilog2 (Qabs x) - 52) (-1074))%Q.

(** The double nearest to [x], a tie going to the even significand: the
    rounding of every arithmetic operation on Python floats and numpy
    float64.  The exponent is not bounded above; a result beyond the largest
    double (an overflow to infinity in the code) lies outside this model. *)
Definition round_to_double (x : Q) : Q :=
  if Qeq_bool x 0 then 0%Q
  else (inject_Z (py_round (x / ulp x)) * ulp x)%Q.

(** [x + y], [x - y] and [x * y] on doubles. *)
Definition double_add (x y : Q) : Q := round_to_double (x + y).
Definition double_sub (x y : Q) : Q := round_to_double (x - y).
Definition double_mul (x y : Q) : Q := round_to_double (x * y).

(** A rational that is a double: rounding returns it. *)
Definition is_double (q : Q) : bool := Qeq_bool (round_to_double q) q.

(** A value of type [float]. *)
Record float64 : Type := mk_float64 {
  float_value :> Q;
  float_exact : is_double float_value = true
}.

(** The other operand of [val + x] with [val] a numpy float64: a float as it
    is, an int converted to the nearest double, [True] as 1.0; anything else
    is a TypeError. *)
Definition as_number (v : pyval) : result Q :=
  match v with
  | PyInt z => Ok (round_to_double (inject_Z z))
  | PyFloat q => Ok q
  | PyBool b => Ok (if b then 1%Q else 0%Q)
  | _ => Raise TypeError
  end.

(** ** The optimizer's data, as the spokes see it *)

(** A Pyomo variable: identified by [var_id] (Python object identity),
    with the two domain tests the heuristic asks and the state [fix] sets. *)
Record Var : Type := mkVar {
  var_id : nat;
  is_binary : bool;
  is_integer : bool;
  fixed : bool;
  value : option Q
}.

(** [var.fix(val)]: the value is set and the variable marked fixed (what
    Pyomo checks about the value lies outside this model). *)
Definition fix_var (var : Var) (val : Q) : Var :=
  mkVar (var_id var) (is_binary var) (is_integer var) true (Some val).

(** A local scenario [s]: its nonant variables in the order of
    [s._mpisppy_data.nonant_indices.values()], the set
    [s._mpisppy_data.all_surrogate_nonants], whether its solver plugin is
    persistent, and the variables handed to [solver.update_var] so far. *)
Record Scenario : Type := mkScenario {
  scen_name : string;
  probability : Q;
  nonant_indices : list Var;
  all_surrogate_nonants : gset nat;
  persistent : bool;
  solver_updates : list nat
}.

(** The wrapped optimizer [self.opt]. *)
Record Opt : Type := mkOpt {
  multistage : bool;
  is_Xhat_Eval : bool;                 (* isinstance(self.opt, Xhat_Eval) *)
  options : gmap string pyval;
  local_scenarios : list Scenario;     (* the dict's values, in order *)
  E1 : Q;
  E1_tolerance : Q;
  cylinder_rank : nat;
  original_nonants : option (list (list (option Q)));
  nonant_cache : option (list (list (option Q)))
}.

Definition set_local_scenarios (ss : list Scenario) (o : Opt) : Opt :=
  mkOpt (multistage o) (is_Xhat_Eval o) (options o) ss (E1 o)
        (E1_tolerance o) (cylinder_rank o) (original_nonants o)
        (nonant_cache o).

Definition set_E1 (e : Q) (o : Opt) : Opt :=
  mkOpt (multistage o) (is_Xhat_Eval o) (options o) (local_scenarios o) e
        (E1_tolerance o) (cylinder_rank o) (original_nonants o)
        (nonant_cache o).

Definition set_original_nonants (c : list (list (option Q))) (o : Opt) : Opt :=
  mkOpt (multistage o) (is_Xhat_Eval o) (options o) (local_scenarios o) (E1 o)
        (E1_tolerance o) (cylinder_rank o) (Some c) (nonant_cache o).

Definition set_nonant_cache (c : list (list (option Q))) (o : Opt) : Opt :=
  mkOpt (multistage o) (is_Xhat_Eval o) (options o) (local_scenarios o) (E1 o)
        (E1_tolerance o) (cylinder_rank o) (original_nonants o) (Some c).

(** The values the nonant variables of every local scenario hold now. *)
Definition current_nonants (o : Opt) : list (list (option Q)) :=
  (λ s, value <$> nonant_indices s) <$> local_scenarios o.

(** ** Windows and the spoke base class *)

(** A one-sided window as its readers see it: the payload slots and the
    write counter kept in the last slot. *)
Record Window (A : Type) : Type := mkWindow {
  payload : list A;
  write_id : Z
}.
Arguments mkWindow {A} payload write_id.
Arguments payload {A} w.
Arguments write_id {A} w.

(** Modelled from the spec: [publish(payload)] of section 4.1 (the window's
    owner lives in hub.py and spoke.py, which are not in the sources): the
    owner writes the payload into its own slots, then increments its
    counter. *)
Definition publish {A : Type} (p : list A) (w : Window A) : Window A :=
  mkWindow p (write_id w + 1).

Inductive direction : Type := Minimize | Maximize.

(** The state of one spoke object. *)
Record Spoke : Type := mkSpoke {
  opt : Opt;
  sense : direction;
  remote_write_id : Z;          (* counter last seen in the hub's window *)
  localnonants : list Q;        (* payload last fetched from the hub *)
  best_inner_bound : double;
  bound_window : Window double; (* this spoke's outbound window *)
  tee : pyval;
  verbose : pyval
}.

Definition set_opt (o : Opt) (s : Spoke) : Spoke :=
  mkSpoke o (sense s) (remote_write_id s) (localnonants s)
          (best_inner_bound s) (bound_window s) (tee s) (verbose s).

Definition set_fetched (id : Z) (vals : list Q) (s : Spoke) : Spoke :=
  mkSpoke (opt s) (sense s) id vals
          (best_inner_bound s) (bound_window s) (tee s) (verbose s).

Definition set_bound (b : double) (w : Window double) (s : Spoke) : Spoke :=
  mkSpoke (opt s) (sense s) (remote_write_id s) (localnonants s)
          b w (tee s) (verbose s).

Definition set_tee (t : pyval) (s : Spoke) : Spoke :=
  mkSpoke (opt s) (sense s) (remote_write_id s) (localnonants s)
          (best_inner_bound s) (bound_window s) t (verbose s).

Definition set_verbose (v : pyval) (s : Spoke) : Spoke :=
  mkSpoke (opt s) (sense s) (remote_write_id s) (localnonants s)
          (best_inner_bound s) (bound_window s) (tee s) v.

(** Modelled from the spec: the initial tracked best of a bound spoke
    (spoke.py is not in the sources).  The spec fixes +infinity for a
    minimizing spoke; the maximizing side is taken symmetric. *)
Definition initial_best (d : direction) : double :=
  match d with
  | Minimize => PosInf
  | Maximize => NegInf
  end.

(** Modelled from the spec: strict improvement in the spoke's configured
    direction (section 4.3; spoke.py is not in the sources). *)
Definition improving (d : direction) (candidate best : double) : bool :=
  match d with
  | Minimize => dlt candidate best
  | Maximize => dlt best candidate
  end.

(** Modelled from the spec: [update_if_improving(value)] of section 4.3
    (spoke.py is not in the sources): compares [value] to the current best
    in this spoke's direction; publishes (write + counter increment) only on
    strict improvement; otherwise a no-op.  The result tells which. *)
Definition update_if_improving_state (v : double) (s : Spoke) : bool * Spoke :=
  if improving (sense s) v (best_inner_bound s)
  then (true, set_bound v (publish [v] (bound_window s)) s)
  else (false, s).

(** Modelled from the spec: [poll(peer)] of section 4.1 and the new-data
    rule of section 4.3 (spoke.py is not in the sources): the reader
    fetches the peer's whole buffer and compares the fetched counter to its
    last-seen value; a strictly greater counter signals new data, which the
    reader then holds as its last-seen state. *)
Definition poll (hub : Window Q) (s : Spoke) : bool * Spoke :=
  if remote_write_id s <? write_id hub
  then (true, set_fetched (write_id hub) (payload hub) s)
  else (false, s).

(** Modelled from the spec: a bound spoke over [o] before its [main] runs
    (the constructors of spoke.py are not in the sources): nothing fetched
    yet, the tracked best at its initial value, an empty bound window. *)
Definition new_spoke (o : Opt) (d : direction) : Spoke :=
  mkSpoke o d 0 [] (initial_best d) (mkWindow [NaN] 0) PyNone PyNone.

(** ** The machine a spoke's [main] runs on *)

(** What a run leaves behind, oldest first: the calls into the base class,
    the optimizer and the MPI runtime, and what was printed. *)
Inductive event : Type :=
  | GotKillSignal (b : bool)
  | NewNonants (b : bool)
  | Allreduced (global_candidate : list Q)
  | OptCall (method : string)
  | OptCallWith (method : string) (arg : pyval)
  | UpdateIfImproving (v : double) (published : bool)
  | Print (msg : string) (arg : option Q).

Record Rank : Type := mkRank {
  self : Spoke;
  trace : list event
}.

(** State and exceptions: a raised exception keeps the state it was raised
    in. *)
Definition M (A : Type) : Type := Rank → result A * Rank.

#[export] Instance M_ret : MRet M := fun _ a r => (Ok a, r).
#[export] Instance M_bind : MBind M := fun _ _ f m r =>
  match m r with
  | (Ok a, r') => f a r'
  | (Raise e, r') => (Raise e, r')
  end.

Definition raise {A : Type} (e : exn) : M A := fun r => (Raise e, r).
Definition lift {A : Type} (x : result A) : M A := fun r => (x, r).
Definition get_self : M Spoke := fun r => (Ok (self r), r).
Definition put_self (s : Spoke) : M unit :=
  fun r => (Ok tt, mkRank s (trace r)).
Definition emit (e : event) : M unit :=
  fun r => (Ok tt, mkRank (self r) (trace r ++ [e])).
Definition modify_opt (f : Opt → Opt) : M unit :=
  fun r => (Ok tt, mkRank (set_opt (f (opt (self r))) (self r)) (trace r)).

(** What the rest of the system shows this rank during one pass of its
    loop: the hub's kill flag when the pass checks it, the hub's nonant
    window when the pass polls it, the candidates the other replicas bring
    to the collective reduction (in rank order, this rank left out), and
    how the optimizer's solve of the pass ends: with the value it returns
    or with the error it raises. *)
Record PassEnv : Type := mkPassEnv {
  hub_kill : bool;
  hub_window : Window Q;
  peer_candidates : list (list Q);
  evaluation : result double
}.

(** Modelled from the spec: [got_kill_signal()] of section 4.3 (spoke.py is
    not in the sources): a non-blocking check of the hub's kill flag. *)
Definition got_kill_signal (env : PassEnv) : M bool :=
  emit (GotKillSignal (hub_kill env));;
  mret (hub_kill env).

(** Modelled from the spec: [self.update_nonants()] and the
    [self.new_nonants] property (spoke.py is not in the sources): the poll
    of the hub's window, with its answer. *)
Definition update_nonants (env : PassEnv) : M bool :=
  s ← get_self;
  let '(new, s') := poll (hub_window env) s in
  put_self s';;
  emit (NewNonants new);;
  mret new.

(** Modelled from the spec: [self.update_if_improving(obj)] (spoke.py is
    not in the sources), as a step of the machine. *)
Definition update_if_improving (v : double) : M unit :=
  s ← get_self;
  let '(published, s') := update_if_improving_state v s in
  put_self s';;
  emit (UpdateIfImproving v published).

(** Modelled from the spec: a method of the optimizer collaborator of
    section 6 (spopt.py, xhat_eval.py and xhatlooper.py are not in the
    sources) that is called for its effect on the model: the call is
    recorded and taken to return.  What such a method does to the model,
    and a run in which one of them raises, lie outside this embedding; the
    solve of a pass is the exception, its outcome is [evaluation]. *)
Definition opt_call (method : string) : M unit := emit (OptCall method).

(** The same for a call whose argument comes from the options. *)
Definition opt_call_with (method : string) (arg : pyval) : M unit :=
  emit (OptCallWith method arg).

(** The total probability of the scenarios: the local ones plus [others],
    the share of the other ranks of the cylinder. *)
Definition total_probability (others : Q) (o : Opt) : Q :=
  foldr Qplus others (probability <$> local_scenarios o).

(** Modelled from the spec: [self.opt._update_E1()] (spopt.py is not in
    the sources): [E1] becomes the total probability of the scenarios. *)
Definition _update_E1 (others : Q) : M unit :=
  emit (OptCall "_update_E1");;
  modify_opt (λ o, set_E1 (total_probability others o) o).

(** Modelled from the spec: [self.opt._save_nonants()] (spopt.py is not
    in the sources): cache the current nonant values as a restore point. *)
Definition _save_nonants : M unit :=
  emit (OptCall "_save_nonants");;
  modify_opt (λ o, set_nonant_cache (current_nonants o) o).

(** Modelled from the spec: [self.opt._save_original_nonants()] (spopt.py
    is not in the sources), the same for the original values. *)
Definition _save_original_nonants : M unit :=
  emit (OptCall "_save_original_nonants");;
  modify_opt (λ o, set_original_nonants (current_nonants o) o).

(** How a [main] ends on a finite stretch of passes: the loop was left
    because the kill signal was seen, or it is still spinning when the
    stretch is used up.  [iter] is the loop counter. *)
Inductive ending : Type :=
  | LoopExited (iter : Z)
  | StillLooping (iter : Z).

(** ** slam_heuristic.py *)

(** [np.reshape(flat, (rows, cols))], row-major. *)
Fixpoint reshape (flat : list Q) (rows cols : nat) : list (list Q) :=
  match rows with
  | O => []
  | S rows' => take cols flat :: reshape (drop cols flat) rows' cols
  end.

(** A numpy reduction along axis 0 of a matrix given by its rows: one value
    per column; with no row to reduce there is no result. *)
Definition reduce_axis0 (f : Q → Q → Q) (matrix : list (list Q))
  : result (list Q) :=
  match matrix with
  | [] => Raise ValueError
  | row :: rows => Ok (foldl (zip_with f) row rows)
  end.

(** [comm.Allreduce(sendbuf, recvbuf, op)] seen from above: the buffers of
    all ranks of the communicator, in rank order, reduced slot by slot.
    Buffers of different lengths are erroneous. *)
Definition Allreduce (op : Q → Q → Q) (sendbufs : list (list Q))
  : result (list Q) :=
  match sendbufs with
  | [] => Raise ValueError
  | buf :: bufs =>
      if forallb (λ b, Nat.eqb (length b) (length buf)) bufs
      then Ok (foldl (zip_with op) buf bufs)
      else Raise ValueError
  end.

(** The abstract properties of [_SlamHeuristic] that its two subclasses
    supply. *)
Class SlamHeuristic : Type := {
  class_name : string;
  numpy_op : list (list Q) → result (list Q);
  mpi_op : Q → Q → Q
}.

Definition SlamMaxHeuristic : SlamHeuristic :=
  {| class_name := "SlamMaxHeuristic";
     numpy_op := reduce_axis0 Qmax;   (* np.amax *)
     mpi_op := Qmax |}.               (* mpi.MAX *)

Definition SlamMinHeuristic : SlamHeuristic :=
  {| class_name := "SlamMinHeuristic";
     numpy_op := reduce_axis0 Qmin;   (* np.amin *)
     mpi_op := Qmin |}.               (* mpi.MIN *)

(** The value one iteration of the variable loop computes for [var] at
    index [ix]: [val = global_candidate[ix]] and, for an integer or binary
    variable, [val = round(val + rounding_bias)], the sum being one of
    doubles. *)
Definition value_to_fix (rounding_bias : pyval) (global_candidate : list Q)
    (ix : nat) (var : Var) : result Q :=
  val ← match global_candidate !! ix with
        | Some v => Ok v
        | None => Raise IndexError
        end;
  if is_binary var || is_integer var
  then bias ← as_number rounding_bias;
       Ok (inject_Z (py_round (double_add val bias)))
  else Ok val.

(** The body of [for ix, var in enumerate(nonant_indices.values())], from
    index [ix] on: how the loop ends, the variables as it leaves them and the
    ones it handed to the persistent solver.  When an iteration raises, the
    variables before it stay fixed and the ones from it on are untouched. *)
Fixpoint fix_nonants (rounding_bias : pyval) (global_candidate : list Q)
    (surrogates : gset nat) (is_pers : bool) (ix : nat) (vars : list Var)
  : result unit * (list Var * list nat) :=
  match vars with
  | [] => (Ok tt, ([], []))
  | var :: rest =>
      if decide (var_id var ∈ surrogates) then
        let '(res, (rest', upd)) :=
          fix_nonants rounding_bias global_candidate surrogates is_pers
                      (S ix) rest in
        (res, (var :: rest', upd))
      else
        match value_to_fix rounding_bias global_candidate ix var with
        | Raise e => (Raise e, (var :: rest, []))
        | Ok val =>
            let var := fix_var var val in
            let '(res, (rest', upd)) :=
              fix_nonants rounding_bias global_candidate surrogates is_pers
                          (S ix) rest in
            (res, (var :: rest', if is_pers then var_id var :: upd else upd))
        end
  end.

(** One turn of [for s in self.opt.local_scenarios.values()]. *)
Definition fix_scenario (rounding_bias : pyval) (global_candidate : list Q)
    (s : Scenario) : result unit * Scenario :=
  let is_pers := persistent s in
  let '(res, (vars, upd)) :=
    fix_nonants rounding_bias global_candidate (all_surrogate_nonants s)
                is_pers 0 (nonant_indices s) in
  (res, mkScenario (scen_name s) (probability s) vars
                   (all_surrogate_nonants s) (persistent s)
                   (solver_updates s ++ upd)).

(** The whole scenario loop; the scenarios after one that raised are not
    reached. *)
Fixpoint fix_scenarios (rounding_bias : pyval) (global_candidate : list Q)
    (ss : list Scenario) : result unit * list Scenario :=
  match ss with
  | [] => (Ok tt, [])
  | s :: rest =>
      match fix_scenario rounding_bias global_candidate s with
      | (Ok _, s') =>
          let '(res, rest') :=
            fix_scenarios rounding_bias global_candidate rest in
          (res, s' :: rest')
      | (Raise e, s') => (Raise e, s' :: rest)
      end
  end.

Section Slam.

Context {H : SlamHeuristic}.

(** [_SlamHeuristic.slam_heur_prep]; [others] is what the other ranks add
    to the total probability. *)
Definition slam_heur_prep (others : Q) : M unit :=
  s ← get_self;
  if multistage (opt s) then
    raise (RuntimeError ("The " +:+ class_name +:+
             " only supports two-stage models at this time."))
  else if negb (is_Xhat_Eval (opt s)) then
    raise (RuntimeError (class_name +:+ " must be used with Xhat_Eval."))
  else
    verbose ← lift (getitem (options (opt s)) "verbose");
    put_self (set_tee (PyBool false) s);;
    (if contains (options (opt s)) "tee-rank0-solves" then
       t ← lift (getitem (options (opt s)) "tee-rank0-solves");
       s ← get_self;
       put_self (set_tee t s)
     else mret tt);;
    s ← get_self;
    put_self (set_verbose verbose s);;
    _update_E1 others;;
    opt_call "_lazy_create_solvers".

(** [_SlamHeuristic.extract_local_candidate_soln] *)
Definition extract_local_candidate_soln (s : Spoke) : result (list Q) :=
  let num_scen := length (local_scenarios (opt s)) in
  if Nat.eqb num_scen 0 then Raise ZeroDivisionError else
  let num_vars := (length (localnonants s) / num_scen)%nat in
  if negb (Nat.eqb (num_scen * num_vars) (length (localnonants s)))
  then Raise AssertionError else
  let nonant_matrix := reshape (localnonants s) num_scen num_vars in
  local_candidate ← numpy_op nonant_matrix;
  if negb (Nat.eqb (length local_candidate) num_vars)
  then Raise AssertionError else
  Ok local_candidate.

(** The body of [if self.update_nonants():] in [main].  An exception raised
    half-way through the scenario loop leaves what was fixed until then.
    [logger.debug] is silent at the module's CRITICAL level and left out. *)
Definition slam_body (env : PassEnv) : M unit :=
  s ← get_self;
  local_candidate ← lift (extract_local_candidate_soln s);
  let rank := cylinder_rank (opt s) in
  global_candidate ← lift (Allreduce mpi_op
    (take rank (peer_candidates env) ++
     local_candidate :: drop rank (peer_candidates env)));
  emit (Allreduced global_candidate);;
  let rounding_bias :=
    get_default (options (opt s)) "rounding_bias" (PyFloat 0) in
  let '(res, scenarios) :=
    fix_scenarios rounding_bias global_candidate (local_scenarios (opt s)) in
  modify_opt (set_local_scenarios scenarios);;
  lift res;;
  opt_call "calculate_incumbent";;
  obj ← lift (evaluation env);
  update_if_improving obj.

(** The [while not self.got_kill_signal():] loop of [main], run against
    the passes [envs]. *)
Fixpoint slam_loop (envs : list PassEnv) (slam_iter : Z) : M ending :=
  match envs with
  | [] => mret (StillLooping slam_iter)
  | env :: envs' =>
      kill ← got_kill_signal env;
      if kill : bool then (mret (LoopExited slam_iter) : M ending) else
      new ← update_nonants env;
      (if new : bool then slam_body env else mret tt);;
      slam_loop envs' (slam_iter + 1)
  end.

(** [_SlamHeuristic.main] *)
Definition slam_main (others : Q) (envs : list PassEnv) : M ending :=
  slam_heur_prep others;;
  slam_loop envs 1.

End Slam.

(** ** xhatlooper_bounder.py *)

(** [v != 0] *)
Definition py_ne_zero (v : pyval) : bool :=
  match v with
  | PyInt z => negb (z =? 0)
  | PyFloat q => negb (Qeq_bool q 0)
  | PyBool b => b
  | _ => true
  end.

(** [XhatLooperInnerBound.xhatlooper_prep]; [others] is what the other
    ranks add to the total probability.  [1 - E1] is a difference of
    doubles.  The [XhatLooper] it returns has no state of its own in this
    model. *)
Definition xhatlooper_prep (others : Q) : M unit :=
  s ← get_self;
  bundles ← (if contains (options (opt s)) "bundles_per_rank"
             then v ← lift (getitem (options (opt s)) "bundles_per_rank");
                  mret (py_ne_zero v)
             else mret false);
  if bundles : bool then
    raise (RuntimeError "xhat spokes cannot have bundles (yet)")
  else if negb (is_Xhat_Eval (opt s)) then
    raise (RuntimeError "XhatShuffleInnerBound must be used with Xhat_Eval.")
  else
    opt_call "XhatLooper";;
    (* begin iter0 stuff *)
    opt_call "pre_iter0";;
    _save_original_nonants;;
    opt_call "_lazy_create_solvers";;
    _update_E1 others;;
    s ← get_self;
    (if negb (Qle_bool (Qabs (double_sub 1 (E1 (opt s))))
                      (E1_tolerance (opt s))) then
       (if Nat.eqb (cylinder_rank (opt s)) 0 then
          emit (Print "ERROR" None);;
          emit (Print "Total probability of scenarios was " (Some (E1 (opt s))));;
          emit (Print "E1_tolerance = " (Some (E1_tolerance (opt s))))
        else mret tt);;
       raise SystemExit   (* quit() *)
     else mret tt);;
    (* end iter0 stuff *)
    opt_call "post_iter0";;
    _save_nonants.   (* make the cache *)

(** The body of [if self.new_nonants:] in [main].  What the first two
    calls do to the model lies outside this embedding; the look-ahead
    search is the solve of the pass and gets [scen_limit]. *)
Definition xhat_body (scen_limit : pyval) (env : PassEnv) : M unit :=
  opt_call "_put_nonant_cache";;
  opt_call "_restore_nonants";;
  opt_call_with "xhat_looper" scen_limit;;
  upperbound ← lift (evaluation env);
  update_if_improving upperbound.

(** The [while not self.got_kill_signal():] loop of [main]. *)
Fixpoint xhat_loop (scen_limit : pyval) (envs : list PassEnv) (xh_iter : Z)
  : M ending :=
  match envs with
  | [] => mret (StillLooping xh_iter)
  | env :: envs' =>
      kill ← got_kill_signal env;
      if kill : bool then (mret (LoopExited xh_iter) : M ending) else
      new ← update_nonants env;
      (if new : bool then xhat_body scen_limit env else mret tt);;
      xhat_loop scen_limit envs' (xh_iter + 1)
  end.

(** [XhatLooperInnerBound.main] *)
Definition xhat_main (others : Q) (envs : list PassEnv) : M ending :=
  xhatlooper_prep others;;
  s ← get_self;
  looper_options ← lift (getitem (options (opt s)) "xhat_looper_options");
  scen_limit ← lift (subscript looper_options "scen_limit");
  xhat_loop scen_limit envs 1.

(** ** Runs *)

(** Running a [main] on a fresh rank. *)
Definition run {A : Type} (m : M A) (s : Spoke) : result A * Rank :=
  m (mkRank s []).

(** ** Publishes and polls at the hub's window *)

(** What happens at the hub's nonant window, in the order it happens: the
    hub publishes a vector, or the spoke polls. *)
Inductive action : Type :=
  | HubPublish (vals : list Q)
  | SpokePoll.

(** The answer of every poll of [acts], in order, each with the counter
    the poll fetched. *)
Fixpoint polls (acts : list action) (hub : Window Q) (s : Spoke)
  : list (bool * Z) :=
  match acts with
  | [] => []
  | HubPublish vals :: rest => polls rest (publish vals hub) s
  | SpokePoll :: rest =>
      let '(new, s') := poll hub s in
      (new, write_id hub) :: polls rest hub s'
  end.

(** How many publishes [acts] holds. *)
Fixpoint publish_count (acts : list action) : nat :=
  match acts with
  | [] => 0
  | HubPublish _ :: rest => S (publish_count rest)
  | SpokePoll :: rest => publish_count rest
  end.

(** The counters on which new data was signalled. *)
Definition acted_on (ps : list (bool * Z)) : list Z :=
  snd <$> filter (λ p, p.1 = true) ps.

(** A round: one publish, then [n] polls. *)
Definition round (r : list Q * nat) : list action :=
  HubPublish r.1 :: replicate r.2 SpokePoll.

(** ** Sequences of reports *)

(** [a <= b] between a new and an old tracked value: the same value, or
    strictly below. *)
Definition dle (a b : double) : Prop := a = b ∨ dlt a b = true.

(** The spoke after it reported the values [vs], one call each. *)
Definition report_all (vs : list double) (s : Spoke) : Spoke :=
  foldl (λ s v, (update_if_improving_state v s).2) s vs.

(** ** The shape of the two loops *)

(** Both [main] loops, with the body of the new-data branch left open. *)
Fixpoint spoke_loop (body : PassEnv → M unit) (envs : list PassEnv)
    (iter : Z) : M ending :=
  match envs with
  | [] => mret (StillLooping iter)
  | env :: envs' =>
      kill ← got_kill_signal env;
      if kill : bool then (mret (LoopExited iter) : M ending) else
      new ← update_nonants env;
      (if new : bool then body env else mret tt);;
      spoke_loop body envs' (iter + 1)
  end.

(** ** Reading a trace *)

(** The answers of the kill-signal checks recorded in a trace, in order. *)
Definition kill_checks (t : list event) : list bool :=
  omap (λ e, match e with GotKillSignal b => Some b | _ => None end) t.

(** The values handed to [update_if_improving] in a trace, in order. *)
Definition reported (t : list event) : list double :=
  omap (λ e, match e with UpdateIfImproving v _ => Some v | _ => None end) t.

(** What was printed. *)
Definition printed (t : list event) : list (string * option Q) :=
  omap (λ e, match e with Print msg arg => Some (msg, arg) | _ => None end) t.

(** The bundling test of [xhatlooper_prep]. *)
Definition has_bundles (o : Opt) : bool :=
  match options o !! "bundles_per_rank" with
  | Some v => py_ne_zero v
  | None => false
  end.

(** ** The ranks of one cylinder *)




(** ** Extrema *)

(** [m] is an extremum of the values [l] for the order [le]: it bounds them
    all and is one of them, up to the equality of rationals. *)
Definition extremum_of (le : Q → Q → Prop) (l : list Q) (m : Q) : Prop :=
  (∀ x, x ∈ l → le x m) ∧ (∃ x, x ∈ l ∧ (x == m)%Q).

(** Column [j] of a matrix given by its rows. *)
Definition column (j : nat) (rows : list (list Q)) : list Q :=
  (λ row, nth j row 0%Q) <$> rows.

(** The spoke [s] holds the scenario rows [rows]: one local scenario per
    row, and the rows laid end to end as its fetched nonants. *)
Definition holds_rows (s : Spoke) (rows : list (list Q)) : Prop :=
  length (local_scenarios (opt s)) = length rows
  ∧ localnonants s = concat rows.

(** ** Sample data *)

(** Three nonant variables: an integer one, a continuous one that the
    scenario lists as a surrogate, and a plain continuous one. *)
Definition sample_vars : list Var :=
  [ mkVar 0 false true false None;
    mkVar 1 false false false None;
    mkVar 2 false false false None ].

Definition sample_scenario (name : string) : Scenario :=
  mkScenario name (1 # 2) sample_vars {[ 1%nat ]} true [].

Definition sample_options : gmap string pyval :=
  <["verbose" := PyBool false]>
  (<["rounding_bias" := PyFloat (1 # 2)]>
  (<["xhat_looper_options" := PyDict (<["scen_limit" := PyInt 3]> ∅)]> ∅)).

Definition sample_opt : Opt :=
  mkOpt false true sample_options
        [sample_scenario "scen0"; sample_scenario "scen1"]
        0 (1 # 100000) 0 None None.

Definition sample_spoke : Spoke := new_spoke sample_opt Minimize.

(** A pass in which the hub shows kill flag [kill], counter [id] and
    payload [vals], and the evaluation returns [obj]; no other replica. *)
Definition sample_pass (kill : bool) (id : Z) (vals : list Q) (obj : double)
  : PassEnv :=
  mkPassEnv kill (mkWindow vals id) [] (Ok obj).

(** The matrix of the spec's example, one row per scenario. *)
Definition example_matrix : list (list Q) :=
  [[1 # 1; 5 # 1]; [9 # 1; 2 # 1]; [3 # 1; 3 # 1]].

(** A spoke that holds the rows [rows]. *)
Definition holder (rows : list (list Q)) : Spoke :=
  set_fetched 1 (concat rows)
    (new_spoke
       (set_local_scenarios ((λ _, sample_scenario "scen") <$> rows)
                            sample_opt)
       Minimize).

(** The sample optimizer on cylinder rank 1. *)
Definition sample_opt_rank1 : Opt :=
  mkOpt false true sample_options
        [sample_scenario "scen0"; sample_scenario "scen1"]
        0 (1 # 100000) 1 None None.

(** The sample optimizer with [verbose] as its only option: neither
    [rounding_bias] nor [xhat_looper_options]. *)
Definition sample_opt_verbose_only : Opt :=
  mkOpt false true (<["verbose" := PyBool false]> ∅)
        [sample_scenario "scen0"; sample_scenario "scen1"]
        0 (1 # 100000) 0 None None.

(** Two passes: the hub has published once, then it has raised the kill
    flag. *)
Definition sample_passes : list PassEnv :=
  [ sample_pass false 1 [23 # 10; 7 # 1; 5 # 2; 19 # 10; 8 # 1; 3 # 1]
                (Finite (10 # 1));
    sample_pass true 1 [23 # 10; 7 # 1; 5 # 2; 19 # 10; 8 # 1; 3 # 1]
                (Finite (10 # 1)) ].

(** The spoke after it fetched the payload of two scenarios. *)
Definition sample_fetched : Rank :=
  mkRank (set_fetched 1 [23 # 10; 7 # 1; 5 # 2; 19 # 10; 8 # 1; 3 # 1] sample_spoke) [].

(** The doubles 0.0, 3.0 and 6.0. *)
Definition double_0 : float64 := mk_float64 (0 # 1) eq_refl.
Definition double_3 : float64 := mk_float64 (3 # 1) eq_refl.
Definition double_6 : float64 := mk_float64 (6 # 1) eq_refl.

(** ** spcommunicator.py: the communicator object *)

Module SPComm.

(** An MPI communicator as the constructor reads it. *)
Record Comm : Type := mkComm {
  Get_rank : nat;
  Get_size : nat
}.

(** A window handle: the window and whether [Free()] was called on it. *)
Record Handle : Type := mkHandle {
  handle_win : Win;
  handle_freed : bool
}.

(** The attributes of an [SPCommunicator].  [windows] and [buffers] are
    created by the hub and spoke subclasses together with the flag; once
    [del self.buffers] ran there are no buffers. *)
Record t : Type := mk {
  _windows_constructed : bool;
  global_rank : nat;
  strata_rank : nat;
  cylinder_rank : nat;
  n_spokes : Z;
  options : gmap string pyval;
  windows : list Handle;
  buffers : option (list (list double))
}.

(** [SPCommunicator.__init__]; [options = None] gives a fresh empty dict.
    The new object has no windows yet. *)
Definition __init__ (fullcomm strata_comm cylinder_comm : Comm)
    (options : option (gmap string pyval)) : t :=
  mk false (Get_rank fullcomm) (Get_rank strata_comm)
     (Get_rank cylinder_comm) (Z.of_nat (Get_size strata_comm) - 1)
     (match options with
      | None => ∅
      | Some options => options
      end)
     [] None.

(** [SPCommunicator.is_converged] *)
Definition is_converged (c : t) : bool := false.

(** [window.Free()]: frees the handle; freeing a freed handle is an MPI
    error (mpi4py's exception is a RuntimeError). *)
Definition Free (h : Handle) : result Handle :=
  if handle_freed h then Raise (RuntimeError "MPI_ERR_WIN")
  else Ok (mkHandle (handle_win h) true).

(** [for i in range(count): self.windows[i].Free()], from index [i] on; an
    exception leaves the handles as they were when it was raised. *)
Fixpoint free_loop (count i : nat) (ws : list Handle)
  : result unit * list Handle :=
  match count with
  | O => (Ok tt, ws)
  | S count' =>
      match ws !! i with
      | None => (Raise IndexError, ws)
      | Some h =>
          match Free h with
          | Ok h' => free_loop count' (S i) (<[i := h']> ws)
          | Raise e => (Raise e, ws)
          end
      end
  end.

(** [SPCommunicator.free_windows]; [del self.buffers] on an object without
    that attribute is an AttributeError. *)
Definition free_windows (c : t) : result unit * t :=
  if _windows_constructed c then
    match free_loop (Z.to_nat (n_spokes c)) 0 (windows c) with
    | (Ok _, ws) =>
        match buffers c with
        | Some _ =>
            (Ok tt,
             mk false (global_rank c) (strata_rank c) (cylinder_rank c)
                (n_spokes c) (options c) ws None)
        | None =>
            (Raise (AttributeError "buffers"),
             mk true (global_rank c) (strata_rank c) (cylinder_rank c)
                (n_spokes c) (options c) ws None)
        end
    | (Raise e, ws) =>
        (Raise e,
         mk true (global_rank c) (strata_rank c) (cylinder_rank c)
            (n_spokes c) (options c) ws (buffers c))
    end
  else
    (Ok tt,
     mk false (global_rank c) (strata_rank c) (cylinder_rank c)
        (n_spokes c) (options c) (windows c) (buffers c)).

End SPComm.

(** ** More ways to read a trace *)

(** The candidates that came out of the collective reductions of a trace. *)
Definition allreduced (t : list event) : list (list Q) :=
  omap (λ e, match e with Allreduced g => Some g | _ => None end) t.

(** The bounds a loop is due to report on the passes [envs] when its reader
    last saw counter [id]: one per pass that shows a counter above the
    last-seen one, up to the first pass that shows the kill flag or whose
    solve raises. *)
Fixpoint expected_reports (envs : list PassEnv) (id : Z) : list double :=
  match envs with
  | [] => []
  | env :: rest =>
      if hub_kill env then []
      else if id <? write_id (hub_window env)
           then match evaluation env with
                | Ok v => v :: expected_reports rest (write_id (hub_window env))
                | Raise _ => []
                end
           else expected_reports rest id
  end.

(** ** utils/prox_approx.py: cuts that approximate the proximal term *)

Module Prox.

(** [class Side(Enum)] *)
Inductive Side : Type := LEFT | RIGHT | BOTH.

(** The variable [xvar] as the manager reads it. *)
Record XVar : Type := mkXVar {
  x_lb : option Q;
  x_ub : option Q;
  x_value : Q;
  x_is_integer : bool
}.

(** A cut [(0, expr, None)] whose [expr] is the [LinearExpression] with
    coefficients [coef_xsq, coef_x] on [xvarsqrd, xvar] and the given
    constant: it asks for [0 <= expr]. *)
Record Cut : Type := mkCut {
  coef_xsq : Q;
  coef_x : Q;
  constant : Q
}.

(** The point [xvar = x], [xvarsqrd = y] satisfies the cut. *)
Definition satisfies (c : Cut) (x y : Q) : Prop :=
  (0 <= coef_xsq c * y + coef_x c * x + constant c)%Q.

(** Which of the two manager classes an object is. *)
Inductive kind : Type := Continuous | Discrete.

(** What a manager prints and hands to the persistent solver. *)
Inductive event : Type :=
  | AddingCutForLb (lb : Q)
  | AddingCutForUb (ub : Q)
  | AddingCutFor (interval : Z * Z)
  | SolverAddConstraint (key : Z * Z).

(** A manager: its class, the attributes [__init__] sets, the value of
    [xvarsqrd] (a float), the constraint container [cuts] (keyed by variable
    index and cut index) and, for the continuous class, [cut_index].  The
    value of [xvar] and the bounds are floats as well; they are kept as the
    rationals they stand for. *)
Record t : Type := mk {
  cls : kind;
  xvar : XVar;
  xvarsqrd_value : float64;
  var_index : Z;
  cuts : gmap (Z * Z) Cut;
  lb : Q;
  ub : Q;
  cut_index : Z;
  log : list event
}.

(** Exceptions: the ones of the spokes, and the lookup of a method the
    object does not have. *)
Inductive error : Type :=
  | Exn (e : exn)
  | AttributeError (name : string).

(** [ProxApproxManager(xvar, xvarsqrd, xsqvar_cuts, ndn_i)]: [__new__]
    picks the class by [xvar.is_integer()]; [__init__] stores the bounds and
    [_verify_lb_ub] insists on both. *)
Definition new (xvar : XVar) (xvarsqrd_value : float64)
    (xsqvar_cuts : gmap (Z * Z) Cut) (ndn_i : Z) : error + t :=
  let cls := if x_is_integer xvar then Discrete else Continuous in
  match x_lb xvar, x_ub xvar with
  | Some lb, Some ub =>
      inr (mk cls xvar xvarsqrd_value ndn_i xsqvar_cuts lb ub 0 [])
  | _, _ =>
      inl (Exn (RuntimeError
        "linearize_nonbinary_proximal_terms requires all nonanticipative variables to have bounds"))
  end.

Definition set_cuts (c : gmap (Z * Z) Cut) (l : list event) (m : t) : t :=
  mk (cls m) (xvar m) (xvarsqrd_value m) (var_index m) c (lb m) (ub m)
     (cut_index m) l.

Definition set_cut_index (i : Z) (m : t) : t :=
  mk (cls m) (xvar m) (xvarsqrd_value m) (var_index m) (cuts m) (lb m) (ub m)
     i (log m).

(** [ProxApproxManagerContinuous.add_cut(val, persistent_solver)] on a
    float [val]; [persistent_solver] tells whether a solver was given.
    [2*val] and [val*val] are products of doubles; negating a double is
    exact. *)
Definition continuous_add_cut (val : Q) (persistent_solver : bool) (m : t)
  : t :=
  let f_p_a := double_mul 2 val in
  let const := (- double_mul val val)%Q in
  let expr := mkCut 1 (- f_p_a) (- const) in
  let key := (var_index m, cut_index m) in
  let m := set_cuts (<[key := expr]> (cuts m))
             (log m ++ if persistent_solver then [SolverAddConstraint key]
                       else []) m in
  set_cut_index (cut_index m + 1) m.

(** [_compute_mb(val)] *)
Definition _compute_mb (val : Z) : Z * Z :=
  let m := 2 * val + 1 in
  let b := - val * (val + 1) in
  (m, b).

(** The cut [add_cut] builds from [_compute_mb(n)]. *)
Definition secant (n : Z) : Cut :=
  let '(m, b) := _compute_mb n in
  mkCut 1 (- inject_Z m) (- inject_Z b).

(** [a < b] on numbers. *)
Definition ltb (a b : Q) : bool := negb (Qle_bool b a).

(** [ProxApproxManagerDiscrete.add_cut(val, persistent_solver, side)] *)
Definition discrete_add_cut (val : Q) (persistent_solver : bool) (side : Side)
    (m : t) : t :=
  let val := py_round val in
  let m :=
    match side with
    | BOTH | RIGHT =>
        if negb (bool_decide (is_Some (cuts m !! (var_index m, val + 1))))
           && ltb (inject_Z val) (ub m)
        then set_cuts (<[(var_index m, val + 1) := secant val]> (cuts m))
               (log m ++ AddingCutFor (val, val + 1)
                  :: if persistent_solver
                     then [SolverAddConstraint (var_index m, val + 1)]
                     else []) m
        else m
    | LEFT => m
    end in
  match side with
  | BOTH | LEFT =>
      if negb (bool_decide (is_Some (cuts m !! (var_index m, val))))
         && ltb (lb m) (inject_Z val)
      then set_cuts (<[(var_index m, val) := secant (val - 1)]> (cuts m))
             (log m ++ AddingCutFor (val - 1, val)
                :: if persistent_solver
                   then [SolverAddConstraint (var_index m, val)]
                   else []) m
      else m
  | RIGHT => m
  end.

(** [self.add_cut(val, persistent_solver)], dispatched on the class; the
    discrete class takes its default [side=Side.BOTH]. *)
Definition add_cut (val : Q) (persistent_solver : bool) (m : t) : t :=
  match cls m with
  | Continuous => continuous_add_cut val persistent_solver m
  | Discrete => discrete_add_cut val persistent_solver BOTH m
  end.

(** [_ProxApproxManager.check_tol_add_cut(tolerance, persistent_solver)];
    [xvar.value**2] is the square as a double, and so is the difference. *)
Definition check_tol_add_cut (tolerance : Q) (persistent_solver : bool)
    (m : t) : bool * t :=
  let measured_val := float_value (xvarsqrd_value m) in
  let actual_val := double_mul (x_value (xvar m)) (x_value (xvar m)) in
  if ltb tolerance (double_sub actual_val measured_val)
  then (true, add_cut (x_value (xvar m)) persistent_solver m)
  else (false, m).

(** [create_initial_cuts] of either class.  On a fixed variable both call
    [self.create_cut], a method no class here defines. *)
Definition create_initial_cuts (m : t) : option error * t :=
  if Qeq_bool (lb m) (ub m) then
    (Some (AttributeError "create_cut"), m)
  else
    match cls m with
    | Continuous =>
        let m := set_cuts (cuts m) (log m ++ [AddingCutForLb (lb m)]) m in
        let m := continuous_add_cut (lb m) false m in
        let m := set_cuts (cuts m) (log m ++ [AddingCutForUb (ub m)]) m in
        (None, continuous_add_cut (ub m) false m)
    | Discrete =>
        let m := set_cuts (cuts m) (log m ++ [AddingCutForLb (lb m)]) m in
        let m := discrete_add_cut (lb m) false RIGHT m in
        let m := set_cuts (cuts m) (log m ++ [AddingCutForUb (ub m)]) m in
        (None, discrete_add_cut (ub m) false LEFT m)
    end.

(** One of the two guarded stores of the discrete [add_cut]: the cut [c]
    goes under [key] when [key] is not in the container yet and the bound
    test [within] holds. *)
Definition store_if_new (key : Z * Z) (c : Cut) (interval : Z * Z)
    (persistent_solver within : bool) (m : t) : t :=
  if negb (bool_decide (is_Some (cuts m !! key))) && within
  then set_cuts (<[key := c]> (cuts m))
         (log m ++ AddingCutFor interval
            :: if persistent_solver then [SolverAddConstraint key] else []) m
  else m.

(** Every cut the manager's variable has in the container is the secant
    over the unit interval that ends at the cut's index ("cuts are indexed
    by the x-value to the right"). *)
Definition indexed_by_right_end (m : t) : Prop :=
  ∀ k c, cuts m !! (var_index m, k) = Some c → c = secant (k - 1).

(** Every cut index of the manager's variable is below [cut_index]. *)
Definition indices_below (m : t) : Prop :=
  ∀ k c, cuts m !! (var_index m, k) = Some c → k < cut_index m.

End Prox.

(** * Properties *)

(** ** Window allocation *)

Lemma fill_replicate (v : double) (arr : list double) :
  Np.fill v arr = replicate (length arr) v.
Proof.
  unfold Np.fill. induction arr as [|a arr IH]; [done|].
  cbn. f_equal. exact IH.
Qed.

Lemma insert_last_replicate (n : nat) (v x : double) :
  <[n := x]> (replicate (S n) v) = replicate n v ++ [x].
Proof. induction n as [|n IH]; simpl; [done|]. f_equal. exact IH. Qed.

(** A fresh array of [n + 1] slots, filled with NaN and with its last slot
    zeroed, whatever the allocator left in it. *)
Lemma fresh_buffer (garbage : nat → double) (n : nat) :
  Np.setitem (Np.fill NaN (garbage <$> seq 0 (S n))) (-1) (Finite 0)
  = Ok (replicate n NaN ++ [Finite 0]).
Proof.
  rewrite fill_replicate, length_fmap, length_seq.
  unfold Np.setitem. rewrite length_replicate.
  replace (-1 <? 0) with true by done.
  replace (-1 + Z.of_nat (S n)) with (Z.of_nat n) by lia.
  rewrite (proj2 (Z.leb_le 0 (Z.of_nat n))) by lia.
  rewrite (proj2 (Z.ltb_lt (Z.of_nat n) (Z.of_nat (S n)))) by lia.
  cbn [andb].
  rewrite Nat2Z.id. by rewrite insert_last_replicate.
Qed.

(** C7: allocation ([communicator_array] and [_make_window] alike) yields
    exactly [length + 1] slots of one width, every payload slot NaN and the
    final slot, the write counter, zero; the window spans
    [DOUBLE_size * (length + 1)] bytes in units of [DOUBLE_size]. *)
Theorem allocate_layout (DOUBLE_size : Z) (garbage : nat → double)
    (strata_comm : nat) (comm : option nat) (length : Z) :
  0 < DOUBLE_size → 0 ≤ length →
  ∃ window buff,
    _make_window DOUBLE_size garbage strata_comm length comm
      = Ok (window, buff)
    ∧ communicator_array garbage length = Ok buff
    ∧ buff = replicate (Z.to_nat length) NaN ++ [Finite 0]
    ∧ Z.of_nat (List.length buff) = length + 1
    ∧ (∀ i : nat, (i < Z.to_nat length)%nat → buff !! i = Some NaN)
    ∧ buff !! Z.to_nat length = Some (Finite 0)
    ∧ win_size window = DOUBLE_size * (length + 1)
    ∧ win_disp_unit window = DOUBLE_size
    ∧ win_comm window = default strata_comm comm.
Proof.
  intros Hw Hlen.
  assert (Hslots : Z.to_nat (length + 1) = S (Z.to_nat length)) by lia.
  exists (mkWin (DOUBLE_size * (length + 1)) DOUBLE_size
                (default strata_comm comm)),
         (replicate (Z.to_nat length) NaN ++ [Finite 0]).
  repeat split.
  - unfold _make_window, Win_Allocate.
    replace (DOUBLE_size * (length + 1) <? 0) with false
      by (symmetry; apply Z.ltb_ge; nia).
    cbn [mbind result_bind]. rewrite Hslots, fresh_buffer. reflexivity.
  - unfold communicator_array, Np.empty.
    replace (length + 1 <? 0) with false by (symmetry; apply Z.ltb_ge; lia).
    cbn [mbind result_bind]. rewrite Hslots. apply fresh_buffer.
  - rewrite length_app, length_replicate. simpl. lia.
  - intros i Hi. rewrite lookup_app_l by (rewrite length_replicate; lia).
    by apply lookup_replicate_2.
  - rewrite lookup_app_r by (rewrite length_replicate; lia).
    rewrite length_replicate, Nat.sub_diag. reflexivity.
Qed.

Lemma allocate_layout_witness :
  ∃ window buff,
    _make_window 8 (λ _, Finite 7) 0%nat 3 None = Ok (window, buff)
    ∧ communicator_array (λ _, Finite 7) 3 = Ok buff
    ∧ buff = [NaN; NaN; NaN; Finite 0]
    ∧ win_size window = 32.
Proof.
  destruct (allocate_layout 8 (λ _, Finite 7) 0%nat None 3)
    as (w & b & Hm & Hc & Hb & _ & _ & _ & Hs & _); [lia | lia |].
  exists w, b. repeat split; assumption.
Defined.

(** ** Rounding *)

Lemma py_round_floor_or_next (x : Q) :
  py_round x = Qfloor x ∨ py_round x = Qfloor x + 1.
Proof.
  unfold py_round.
  destruct (Qcompare _ _); [destruct (Z.even _)|..]; auto.
Qed.

(** [round] lands on an integer nearest to its argument. *)
Lemma py_round_nearest (x : Q) :
  (Qabs (inject_Z (py_round x) - x) <= 1 # 2)%Q.
Proof.
  pose proof (Qfloor_le x) as Hlo.
  pose proof (Qlt_floor x) as Hhi.
  rewrite inject_Z_plus in Hhi. change (inject_Z 1) with 1%Q in Hhi.
  unfold py_round.
  destruct (Qcompare (x - inject_Z (Qfloor x)) (1 # 2)) eqn:Hc.
  - apply Qeq_alt in Hc.
    destruct (Z.even (Qfloor x)); [|rewrite inject_Z_plus; change (inject_Z 1) with 1%Q];
      apply Qabs_case; intros _; lra.
  - apply Qlt_alt in Hc. apply Qabs_case; intros _; lra.
  - apply Qgt_alt in Hc. rewrite inject_Z_plus. change (inject_Z 1) with 1%Q.
    apply Qabs_case; intros _; lra.
Qed.

(** Case analysis on every absolute value in sight, then linear
    arithmetic. *)
Ltac qabs_lra :=
  repeat (apply Qabs_case; intro); intros;
  change (inject_Z 1) with 1%Q in *; lra.

(** No other integer is strictly nearer. *)
Lemma py_round_optimal (x : Q) (z : Z) :
  (Qabs (inject_Z (py_round x) - x) <= Qabs (inject_Z z - x))%Q.
Proof.
  pose proof (py_round_nearest x) as Hn.
  pose proof (Qfloor_le x) as Hlo.
  pose proof (Qlt_floor x) as Hhi.
  rewrite inject_Z_plus in Hhi.
  destruct (Z_le_gt_dec z (Qfloor x)) as [Hz|Hz].
  - assert (inject_Z z <= inject_Z (Qfloor x))%Q as Hq
      by (rewrite <- Zle_Qle; exact Hz).
    destruct (py_round_floor_or_next x) as [Hr | Hr]; rewrite Hr in *;
      rewrite ?inject_Z_plus in *; revert Hn; qabs_lra.
  - assert (inject_Z (Qfloor x) + 1 <= inject_Z z)%Q as Hq
      by (change 1%Q with (inject_Z 1);
          rewrite <- inject_Z_plus, <- Zle_Qle; lia).
    destruct (py_round_floor_or_next x) as [Hr | Hr]; rewrite Hr in *;
      rewrite ?inject_Z_plus in *; revert Hn; qabs_lra.
Qed.

Lemma Qfloor_unique (x : Q) (z : Z) :
  (inject_Z z <= x)%Q → (x < inject_Z z + 1)%Q → Qfloor x = z.
Proof.
  intros Hlo Hhi.
  pose proof (Qfloor_le x) as Hfl.
  pose proof (Qlt_floor x) as Hfh. rewrite inject_Z_plus in Hfh.
  change (inject_Z 1) with 1%Q in Hfh.
  assert (inject_Z (Qfloor x) < inject_Z (z + 1))%Q as H1
    by (rewrite inject_Z_plus; change (inject_Z 1) with 1%Q; lra).
  assert (inject_Z z < inject_Z (Qfloor x + 1))%Q as H2
    by (rewrite inject_Z_plus; change (inject_Z 1) with 1%Q; lra).
  rewrite <- Zlt_Qlt in H1, H2. lia.
Qed.

Lemma py_round_monotone (x y : Q) : (x <= y)%Q → py_round x ≤ py_round y.
Proof.
  intros Hxy.
  pose proof (Qfloor_resp_le x y Hxy) as Hfl.
  destruct (Z.eq_dec (Qfloor x) (Qfloor y)) as [Heq|Hne].
  - unfold py_round. rewrite <- Heq.
    destruct (Qcompare (x - inject_Z (Qfloor x)) (1 # 2)) eqn:Hcx;
      destruct (Qcompare (y - inject_Z (Qfloor x)) (1 # 2)) eqn:Hcy;
      try (destruct (Z.even (Qfloor x))); try lia; exfalso;
      first [apply Qeq_alt in Hcx|apply Qlt_alt in Hcx|apply Qgt_alt in Hcx];
      first [apply Qeq_alt in Hcy|apply Qlt_alt in Hcy|apply Qgt_alt in Hcy];
      lra.
  - destruct (py_round_floor_or_next x) as [-> | ->],
             (py_round_floor_or_next y) as [-> | ->]; lia.
Qed.

Lemma py_round_integer (n : Z) : py_round (inject_Z n) = n.
Proof.
  unfold py_round. rewrite Qfloor_Z.
  destruct (Qcompare (inject_Z n - inject_Z n) (1 # 2)) eqn:Hc;
    [apply Qeq_alt in Hc; lra|done|apply Qgt_alt in Hc; lra].
Qed.

Lemma py_round_proper (x y : Q) : (x == y)%Q → py_round x = py_round y.
Proof.
  intros Hxy.
  pose proof (py_round_monotone x y) as H1.
  pose proof (py_round_monotone y x) as H2.
  assert (x <= y)%Q as Hle by (rewrite Hxy; apply Qle_refl).
  assert (y <= x)%Q as Hge by (rewrite Hxy; apply Qle_refl).
  specialize (H1 Hle). specialize (H2 Hge). lia.
Qed.

(** An integer within less than a half of [x] is what [round] returns. *)
Lemma py_round_unique (x : Q) (z : Z) :
  (inject_Z z - (1 # 2) < x)%Q → (x < inject_Z z + (1 # 2))%Q →
  py_round x = z.
Proof.
  intros Hlo Hhi.
  pose proof (Qfloor_le x) as Hfl.
  pose proof (Qlt_floor x) as Hfh. rewrite inject_Z_plus in Hfh.
  change (inject_Z 1) with 1%Q in Hfh.
  assert (inject_Z (Qfloor x) < inject_Z (z + 1))%Q as H1
    by (rewrite inject_Z_plus; change (inject_Z 1) with 1%Q; lra).
  assert (inject_Z z < inject_Z (Qfloor x + 2))%Q as H2
    by (rewrite inject_Z_plus; change (inject_Z 2) with 2%Q; lra).
  rewrite <- Zlt_Qlt in H1, H2.
  assert (z = Qfloor x ∨ z = Qfloor x + 1) as [->| ->] by lia.
  - unfold py_round.
    destruct (Qcompare (x - inject_Z (Qfloor x)) (1 # 2)) eqn:Hc; [| done |].
    + apply Qeq_alt in Hc. lra.
    + apply Qgt_alt in Hc. lra.
  - rewrite inject_Z_plus in Hlo. change (inject_Z 1) with 1%Q in Hlo.
    unfold py_round.
    destruct (Qcompare (x - inject_Z (Qfloor x)) (1 # 2)) eqn:Hc; [| | done].
    + apply Qeq_alt in Hc. lra.
    + apply Qlt_alt in Hc. lra.
Qed.

(** On a tie [round] returns the even neighbour. *)
Lemma py_round_tie (z : Z) :
  py_round (inject_Z z + (1 # 2)) = if Z.even z then z else z + 1.
Proof.
  unfold py_round.
  rewrite (Qfloor_unique (inject_Z z + (1 # 2)) z) by lra.
  assert (inject_Z z + (1 # 2) - inject_Z z == 1 # 2)%Q as Heq by lra.
  apply Qeq_alt in Heq. by rewrite Heq.
Qed.

(** [round] is odd: [round(-x) = -round(x)]. *)
Lemma py_round_opp (x : Q) : py_round (- x) = - py_round x.
Proof.
  pose proof (Qfloor_le x) as Hfl.
  pose proof (Qlt_floor x) as Hfh. rewrite inject_Z_plus in Hfh.
  change (inject_Z 1) with 1%Q in Hfh.
  set (f := Qfloor x) in *.
  unfold py_round at 2. fold f.
  destruct (Qcompare (x - inject_Z f) (1 # 2)) eqn:Hc.
  - apply Qeq_alt in Hc.
    assert (- x == inject_Z (- f - 1) + (1 # 2))%Q as Hx.
    { unfold Z.sub. rewrite inject_Z_plus, !inject_Z_opp.
      change (inject_Z 1) with 1%Q. lra. }
    rewrite (py_round_proper _ _ Hx), py_round_tie.
    replace (- f - 1) with (- (f + 1)) by lia.
    rewrite Z.even_opp, Z.even_add. change (Z.even 1) with false.
    destruct (Z.even f); cbn; lia.
  - apply Qlt_alt in Hc. apply py_round_unique;
      rewrite inject_Z_opp; lra.
  - apply Qgt_alt in Hc. apply py_round_unique;
      rewrite inject_Z_opp, inject_Z_plus; change (inject_Z 1) with 1%Q; lra.
Qed.


(** ** Powers of two and the binary logarithm *)

Lemma pow2_pos (k : Z) : (0 < 2 ^ k)%Q.
Proof. by apply Qpower_0_lt. Qed.

Lemma pow2_add (a b : Z) : (2 ^ (a + b) == 2 ^ a * 2 ^ b)%Q.
Proof. by apply Qpower_plus. Qed.

Lemma pow2_succ (a : Z) : (2 ^ (a + 1) == 2 * 2 ^ a)%Q.
Proof. rewrite pow2_add. change (2 ^ 1)%Q with 2%Q. ring. Qed.

Lemma pow2_le (a b : Z) : a ≤ b → (2 ^ a <= 2 ^ b)%Q.
Proof. intros Hab. by apply Qpower_le_compat_l. Qed.

Lemma pow2_lt (a b : Z) : a < b → (2 ^ a < 2 ^ b)%Q.
Proof. intros Hab. by apply Qpower_lt_compat_l. Qed.

Lemma pow2_lt_inv (a b : Z) : (2 ^ a < 2 ^ b)%Q → a < b.
Proof. intros Hab. by apply (Qpower_lt_compat_l_inv 2). Qed.

Lemma pow2_inject (n : Z) : 0 ≤ n → (2 ^ n == inject_Z (2 ^ n))%Q.
Proof. intros Hn. by rewrite Zpower_Qpower. Qed.

Lemma pow2_split (k e : Z) :
  e ≤ k → (2 ^ k == inject_Z (2 ^ (k - e)) * 2 ^ e)%Q.
Proof.
  intros Hek. rewrite <- (pow2_inject (k - e)) by lia.
  rewrite <- pow2_add. by replace (k - e + e) with k by lia.
Qed.

Lemma ilog2_spec (x : Q) :
  (0 < x)%Q → (2 ^ ilog2 x <= x)%Q ∧ (x < 2 ^ (ilog2 x + 1))%Q.
Proof.
  intros Hx. destruct x as [n d].
  assert (0 < n) as Hn by (unfold Qlt in Hx; cbn in Hx; lia).
  unfold ilog2. cbn [Qnum Qden].
  set (a := Z.log2 n). set (b := Z.log2 (Z.pos d)).
  destruct (Z.log2_spec n Hn) as [Ha1 Ha2]. fold a in Ha1, Ha2.
  destruct (Z.log2_spec (Z.pos d) eq_refl) as [Hb1 Hb2]. fold b in Hb1, Hb2.
  assert (0 ≤ a) as Ha0 by apply Z.log2_nonneg.
  assert (0 ≤ b) as Hb0 by apply Z.log2_nonneg.
  assert (2 ^ a <= inject_Z n)%Q as HA1
    by (rewrite pow2_inject by done; by rewrite <- Zle_Qle).
  assert (inject_Z n < 2 * 2 ^ a)%Q as HA2.
  { rewrite <- pow2_succ, pow2_inject by lia. by rewrite <- Zlt_Qlt. }
  assert (2 ^ b <= inject_Z (Z.pos d))%Q as HB1
    by (rewrite pow2_inject by done; by rewrite <- Zle_Qle).
  assert (inject_Z (Z.pos d) < 2 * 2 ^ b)%Q as HB2.
  { rewrite <- pow2_succ, pow2_inject by lia. by rewrite <- Zlt_Qlt. }
  assert (2 ^ (a - b) * 2 ^ b == 2 ^ a)%Q as Hk
    by (rewrite <- pow2_add; by replace (a - b + b) with a by lia).
  assert ((n # d) * inject_Z (Z.pos d) == inject_Z n)%Q as Hxd.
  { rewrite (Qmake_Qdiv n d). field. discriminate. }
  pose proof (pow2_pos (a - b)) as HP. pose proof (pow2_pos b) as HB.
  pose proof (pow2_pos a) as HA.
  assert (0 < inject_Z (Z.pos d))%Q as HD by lra.
  destruct (Qle_bool (2 ^ (a - b)) (n # d)) eqn:Hle.
  - apply Qle_bool_iff in Hle. split; [done|].
    rewrite pow2_succ.
    apply (Qmult_lt_r _ _ (inject_Z (Z.pos d))); [done|]. nra.
  - assert ((n # d) < 2 ^ (a - b))%Q as Hlt.
    { apply Qnot_le_lt. intros Hc. apply Qle_bool_iff in Hc. congruence. }
    replace (a - b - 1 + 1) with (a - b) by lia. split; [|done].
    assert (2 * 2 ^ (a - b - 1) == 2 ^ (a - b))%Q as Hh.
    { rewrite <- pow2_succ. by replace (a - b - 1 + 1) with (a - b) by lia. }
    apply (Qmult_le_r _ _ (inject_Z (Z.pos d))); [done|].
    pose proof (pow2_pos (a - b - 1)). nra.
Qed.

Lemma ilog2_unique (x : Q) (k : Z) :
  (2 ^ k <= x)%Q → (x < 2 ^ (k + 1))%Q → ilog2 x = k.
Proof.
  intros Hlo Hhi.
  assert (0 < x)%Q as Hx by (pose proof (pow2_pos k); lra).
  destruct (ilog2_spec x Hx) as [Hlo' Hhi'].
  assert (ilog2 x < k + 1) by (apply pow2_lt_inv; lra).
  assert (k < ilog2 x + 1) by (apply pow2_lt_inv; lra).
  lia.
Qed.

Lemma ilog2_mono (x y : Q) : (0 < x)%Q → (x <= y)%Q → ilog2 x ≤ ilog2 y.
Proof.
  intros Hx Hxy.
  destruct (ilog2_spec x Hx) as [Hlo _].
  destruct (ilog2_spec y) as [_ Hhi]; [lra|].
  assert (ilog2 x < ilog2 y + 1) by (apply pow2_lt_inv; lra).
  lia.
Qed.

Lemma ilog2_proper (x y : Q) : (0 < x)%Q → (x == y)%Q → ilog2 x = ilog2 y.
Proof.
  intros Hx Hxy. destruct (ilog2_spec x Hx) as [Hlo Hhi].
  symmetry. apply ilog2_unique; lra.
Qed.

(** ** Rounding to a double *)

Lemma ulp_pos (x : Q) : (0 < ulp x)%Q.
Proof. apply pow2_pos. Qed.

Lemma ulp_of_pos (x : Q) :
  (0 < x)%Q → ulp x = (2 ^ Z.max (ilog2 x - 52) (-1074))%Q.
Proof.
  intros Hx. unfold ulp. f_equal. f_equal. f_equal.
  apply ilog2_proper; [|apply Qabs_pos; lra].
  rewrite Qabs_pos; lra.
Qed.

Lemma round_to_double_pos (x : Q) :
  (0 < x)%Q →
  round_to_double x = (inject_Z (py_round (x / ulp x)) * ulp x)%Q.
Proof.
  intros Hx. unfold round_to_double.
  destruct (Qeq_bool x 0) eqn:He; [|done].
  apply Qeq_bool_iff in He. lra.
Qed.

Lemma round_to_double_0 (x : Q) : (x == 0)%Q → round_to_double x = 0%Q.
Proof.
  intros Hx. unfold round_to_double.
  by rewrite (proj2 (Qeq_bool_iff x 0) Hx).
Qed.

Lemma round_to_double_proper (x y : Q) :
  (x == y)%Q → (round_to_double x == round_to_double y)%Q.
Proof.
  intros Hxy. unfold round_to_double.
  destruct (Qeq_bool x 0) eqn:Hx.
  - apply Qeq_bool_iff in Hx.
    rewrite (proj2 (Qeq_bool_iff y 0)); [reflexivity|lra].
  - destruct (Qeq_bool y 0) eqn:Hy.
    { apply Qeq_bool_iff in Hy.
      rewrite (proj2 (Qeq_bool_iff x 0)) in Hx; [done|lra]. }
    assert (¬ (x == 0)%Q) as Hx0.
    { intros Hc. apply Qeq_bool_iff in Hc. congruence. }
    assert (0 < Qabs x)%Q as Hax.
    { apply Qabs_case; intros; lra. }
    assert (ulp x = ulp y) as Hu.
    { unfold ulp. f_equal. f_equal. f_equal.
      apply ilog2_proper; [done|by rewrite Hxy]. }
    rewrite <- Hu.
    rewrite (py_round_proper (x / ulp x) (y / ulp x)); [reflexivity|].
    unfold Qdiv. apply Qmult_comp; [exact Hxy|reflexivity].
Qed.

Lemma round_to_double_opp (x : Q) :
  (round_to_double (- x) == - round_to_double x)%Q.
Proof.
  unfold round_to_double.
  destruct (Qeq_bool x 0) eqn:Hx.
  - apply Qeq_bool_iff in Hx.
    rewrite (proj2 (Qeq_bool_iff (- x) 0)); lra.
  - assert (¬ (x == 0)%Q) as Hx0.
    { intros Hc. apply Qeq_bool_iff in Hc. congruence. }
    destruct (Qeq_bool (- x) 0) eqn:Hnx.
    { apply Qeq_bool_iff in Hnx. lra. }
    assert (0 < Qabs x)%Q as Hax.
    { apply Qabs_case; intros; lra. }
    assert (ulp (- x) = ulp x) as ->.
    { unfold ulp. f_equal. f_equal. f_equal.
      apply ilog2_proper; [|apply Qabs_opp].
      by rewrite Qabs_opp. }
    pose proof (ulp_pos x) as Hu.
    rewrite (py_round_proper (- x / ulp x) (- (x / ulp x)))
      by (field; lra).
    rewrite py_round_opp, inject_Z_opp. ring.
Qed.

(** Where a positive number lands: between the powers of two around it,
    or on zero when it is below half the smallest subnormal. *)
Lemma round_to_double_bounds (x : Q) :
  (0 < x)%Q →
  (0 <= round_to_double x)%Q
  ∧ (-1074 ≤ ilog2 x → (2 ^ ilog2 x <= round_to_double x)%Q)
  ∧ (-1075 ≤ ilog2 x → (round_to_double x <= 2 ^ (ilog2 x + 1))%Q)
  ∧ (ilog2 x < -1075 → (round_to_double x == 0)%Q).
Proof.
  intros Hx. rewrite round_to_double_pos, ulp_of_pos by done.
  destruct (ilog2_spec x Hx) as [Hlo Hhi].
  set (k := ilog2 x) in *.
  set (e := Z.max (k - 52) (-1074)).
  pose proof (pow2_pos e) as Hu.
  assert (e ≤ k ∨ k < e) as He by lia.
  split; [|split; [|split]].
  - apply Qmult_le_0_compat; [|lra].
    change 0%Q with (inject_Z 0). rewrite <- Zle_Qle.
    rewrite <- (py_round_integer 0). apply py_round_monotone.
    apply Qle_shift_div_l; [done|]. change (inject_Z 0) with 0%Q. lra.
  - intros Hk.
    rewrite (pow2_split k e) by lia.
    apply Qmult_le_compat_r; [|lra].
    rewrite <- Zle_Qle. rewrite <- (py_round_integer (2 ^ (k - e))).
    apply py_round_monotone. apply Qle_shift_div_l; [done|].
    by rewrite <- (pow2_split k e) by lia.
  - intros Hk.
    rewrite (pow2_split (k + 1) e) by lia.
    apply Qmult_le_compat_r; [|lra].
    rewrite <- Zle_Qle. rewrite <- (py_round_integer (2 ^ (k + 1 - e))).
    apply py_round_monotone. apply Qle_shift_div_r; [done|].
    rewrite <- (pow2_split (k + 1) e) by lia. lra.
  - intros Hk.
    assert (e = -1074) as -> by lia.
    rewrite (py_round_unique (x / 2 ^ (-1074)) 0).
    + change (inject_Z 0) with 0%Q. ring.
    + change (inject_Z 0) with 0%Q.
      apply Qlt_le_trans with 0%Q; [lra|].
      apply Qle_shift_div_l; [done|]. lra.
    + change (inject_Z 0) with 0%Q.
      apply Qlt_shift_div_r; [done|].
      assert (2 ^ (k + 1) <= 2 ^ (-1075))%Q by (apply pow2_le; lia).
      assert (2 ^ (-1074) == 2 * 2 ^ (-1075))%Q
        by (by rewrite <- pow2_succ).
      lra.
Qed.

Lemma round_to_double_monotone_pos (x y : Q) :
  (0 < x)%Q → (x <= y)%Q → (round_to_double x <= round_to_double y)%Q.
Proof.
  intros Hx Hxy. assert (0 < y)%Q as Hy by lra.
  pose proof (ilog2_mono x y Hx Hxy) as Hk.
  destruct (round_to_double_bounds x Hx) as (Hx0 & Hxlo & Hxhi & Hxz).
  destruct (round_to_double_bounds y Hy) as (Hy0 & Hylo & Hyhi & Hyz).
  destruct (Z.eq_dec (Z.max (ilog2 x - 52) (-1074))
                     (Z.max (ilog2 y - 52) (-1074))) as [He|Hne].
  - rewrite !round_to_double_pos by done.
    rewrite (ulp_of_pos y), <- He, <- (ulp_of_pos x) by done.
    pose proof (ulp_pos x) as Hu.
    apply Qmult_le_compat_r; [|lra].
    rewrite <- Zle_Qle. apply py_round_monotone.
    apply Qmult_le_compat_r; [done|].
    apply Qlt_le_weak, Qinv_lt_0_compat, Hu.
  - destruct (Z_lt_le_dec (ilog2 x) (-1075)) as [Hsmall|Hbig].
    + rewrite (Hxz Hsmall). done.
    + apply Qle_trans with (2 ^ (ilog2 x + 1))%Q; [by apply Hxhi|].
      apply Qle_trans with (2 ^ ilog2 y)%Q; [apply pow2_le; lia|].
      apply Hylo. lia.
Qed.

(** Rounding to the nearest double never inverts an order. *)
Lemma round_to_double_monotone (x y : Q) :
  (x <= y)%Q → (round_to_double x <= round_to_double y)%Q.
Proof.
  intros Hxy.
  destruct (Q_dec 0 x) as [[Hx|Hx]|Hx].
  - by apply round_to_double_monotone_pos.
  - assert (round_to_double x <= 0)%Q as Hrx.
    { assert (0 < - x)%Q as Hnx by lra.
      destruct (round_to_double_bounds (- x) Hnx) as [H0 _].
      rewrite round_to_double_opp in H0. lra. }
    destruct (Q_dec 0 y) as [[Hy|Hy]|Hy].
    + destruct (round_to_double_bounds y Hy) as [H0 _]. lra.
    + assert (round_to_double (- y) <= round_to_double (- x))%Q as Hm
        by (apply round_to_double_monotone_pos; lra).
      rewrite !round_to_double_opp in Hm. lra.
    + rewrite (round_to_double_0 y) by (by symmetry). done.
  - rewrite (round_to_double_0 x) by (by symmetry).
    destruct (Q_dec 0 y) as [[Hy|Hy]|Hy].
    + by destruct (round_to_double_bounds y Hy) as [H0 _].
    + lra.
    + rewrite (round_to_double_0 y) by (by symmetry). apply Qle_refl.
Qed.

(** Rounding moves a number by at most half the distance between the
    doubles around it. *)
Lemma round_to_double_error (x : Q) :
  (Qabs (round_to_double x - x) <= ulp x / 2)%Q.
Proof.
  pose proof (ulp_pos x) as Hu.
  unfold round_to_double. destruct (Qeq_bool x 0) eqn:Hx.
  - apply Qeq_bool_iff in Hx.
    assert (0 <= ulp x / 2)%Q by (apply Qle_shift_div_l; lra).
    apply Qabs_case; intros; lra.
  - pose proof (py_round_nearest (x / ulp x)) as Hn.
    assert (x == x / ulp x * ulp x)%Q as Hx' by (field; lra).
    set (t := (x / ulp x)%Q) in *.
    set (r := inject_Z (py_round t)) in *.
    apply Qle_shift_div_l; [lra|].
    revert Hn. apply Qabs_case; intros H1 Hn; apply Qabs_case; intros H2;
      nra.
Qed.

(** A double is a fixed point of the rounding, so rounding cannot carry a
    number across it. *)
Lemma round_to_double_below (x : Q) (y : float64) :
  (x <= y)%Q → (round_to_double x <= y)%Q.
Proof.
  intros Hxy. pose proof (float_exact y) as Hy.
  apply Qeq_bool_iff in Hy. rewrite <- Hy.
  by apply round_to_double_monotone.
Qed.

Lemma round_to_double_above (x : Q) (y : float64) :
  (y <= x)%Q → (y <= round_to_double x)%Q.
Proof.
  intros Hxy. pose proof (float_exact y) as Hy.
  apply Qeq_bool_iff in Hy. rewrite <- Hy.
  by apply round_to_double_monotone.
Qed.

(** A rounded difference has the sign of the exact one. *)
Lemma double_sub_pos (x y : Q) : (0 < double_sub x y)%Q → (y < x)%Q.
Proof.
  intros Hpos. apply Qnot_le_lt. intros Hle.
  assert (round_to_double (x - y) <= round_to_double 0)%Q as Hm
    by (apply round_to_double_monotone; lra).
  unfold double_sub in Hpos. rewrite (round_to_double_0 0) in Hm by reflexivity.
  lra.
Qed.

(** Doubling a double is exact. *)
Lemma ilog2_double (x : Q) : (0 < x)%Q → ilog2 (2 * x) = ilog2 x + 1.
Proof.
  intros Hx. destruct (ilog2_spec x Hx) as [Hlo Hhi].
  apply ilog2_unique.
  - rewrite pow2_succ. lra.
  - rewrite pow2_succ. lra.
Qed.

(** A double is a whole number of steps of its own spacing. *)
Lemma is_double_multiple (x : Q) :
  is_double x = true → ∃ n : Z, (x == inject_Z n * ulp x)%Q.
Proof.
  intros Hd. apply Qeq_bool_iff in Hd. unfold round_to_double in Hd.
  destruct (Qeq_bool x 0) eqn:Hx.
  - exists 0. apply Qeq_bool_iff in Hx. change (inject_Z 0) with 0%Q. lra.
  - eexists. symmetry. exact Hd.
Qed.

Lemma multiple_is_double (x : Q) (n : Z) :
  (x == inject_Z n * ulp x)%Q → (round_to_double x == x)%Q.
Proof.
  intros Hn. unfold round_to_double.
  destruct (Qeq_bool x 0) eqn:Hx.
  - apply Qeq_bool_iff in Hx. lra.
  - pose proof (ulp_pos x) as Hu.
    rewrite (py_round_proper (x / ulp x) (inject_Z n)).
    + rewrite py_round_integer. lra.
    + rewrite Hn at 1. field. lra.
Qed.

Lemma ulp_double (x : Q) :
  ¬ (x == 0)%Q → (ulp (2 * x) == 2 * ulp x)%Q ∨ ulp (2 * x) = ulp x.
Proof.
  intros Hx.
  assert (0 < Qabs x)%Q as Hax by (apply Qabs_case; intros; lra).
  unfold ulp.
  assert (ilog2 (Qabs (2 * x)) = ilog2 (Qabs x) + 1) as ->.
  { rewrite <- ilog2_double by done. apply ilog2_proper.
    - rewrite Qabs_Qmult. change (Qabs 2) with 2%Q. lra.
    - rewrite Qabs_Qmult. reflexivity. }
  destruct (Z_le_gt_dec (-1074) (ilog2 (Qabs x) - 52)).
  - left. rewrite !Z.max_l by lia.
    replace (ilog2 (Qabs x) + 1 - 52) with (ilog2 (Qabs x) - 52 + 1) by lia.
    apply pow2_succ.
  - right. by rewrite !Z.max_r by lia.
Qed.

Lemma round_to_double_twice (x : Q) :
  is_double x = true → (round_to_double (2 * x) == 2 * x)%Q.
Proof.
  intros Hd. destruct (is_double_multiple x Hd) as [n Hn].
  destruct (Qeq_dec x 0) as [Hx|Hx].
  - rewrite round_to_double_0; lra.
  - destruct (ulp_double x Hx) as [Hu|Hu].
    + apply (multiple_is_double _ n). rewrite Hu.
      transitivity (2 * (inject_Z n * ulp x))%Q; [|ring].
      apply Qmult_comp; [reflexivity|exact Hn].
    + apply (multiple_is_double _ (2 * n)). rewrite Hu, inject_Z_mult.
      change (inject_Z 2) with 2%Q.
      transitivity (2 * (inject_Z n * ulp x))%Q; [|ring].
      apply Qmult_comp; [reflexivity|exact Hn].
Qed.





(** ** Fixing the candidate into the scenarios *)

(** What one iteration computes when it goes through: the candidate entry
    at the variable's index, rounded after the bias was added when the
    variable is integer or binary. *)
Lemma value_to_fix_ok (rounding_bias : pyval) (cand : list Q) (ix : nat)
    (var : Var) (val : Q) :
  value_to_fix rounding_bias cand ix var = Ok val ↔
  ∃ v, cand !! ix = Some v ∧
    (((is_binary var || is_integer var) = true ∧
      ∃ b, as_number rounding_bias = Ok b ∧
           val = inject_Z (py_round (double_add v b))) ∨
     ((is_binary var || is_integer var) = false ∧ val = v)).
Proof.
  unfold value_to_fix.
  destruct (cand !! ix) as [v|]; cbn [mbind result_bind].
  - destruct (is_binary var || is_integer var).
    + destruct (as_number rounding_bias) as [b|e]; cbn [mbind result_bind].
      * split.
        -- intros [= <-]. exists v. split; [done|]. left. split; [done|].
           by exists b.
        -- intros (v' & [= <-] & [(_ & b' & [= <-] & ->)|[[=] _]]). done.
      * split; [done|].
        intros (v' & _ & [(_ & b' & [=] & _)|[[=] _]]).
    + split.
      * intros [= <-]. exists v. split; [done|]. by right.
      * intros (v' & [= <-] & [[[=] _]|[_ ->]]). done.
  - split; [done|]. intros (v & [=] & _).
Qed.



(** What the variable loop does when it goes through, index by index:
    [vars'] lines up with [vars]; a surrogate is passed over, any other
    variable is fixed to the candidate entry at its own index, rounded when
    integer or binary. *)
Lemma fix_nonants_lookup (rounding_bias : pyval) (cand : list Q)
    (surr : gset nat) (pers : bool) (vars : list Var) :
  ∀ (ix : nat) (vars' : list Var) (upd : list nat),
    fix_nonants rounding_bias cand surr pers ix vars = (Ok tt, (vars', upd)) →
    length vars' = length vars ∧
    ∀ (k : nat) (var : Var), vars !! k = Some var →
      ∃ var', vars' !! k = Some var' ∧
        ((var_id var ∈ surr ∧ var' = var) ∨
         ((var_id var ∉ surr) ∧ ∃ v, cand !! (ix + k)%nat = Some v ∧
            (((is_binary var || is_integer var) = true ∧
              ∃ b, as_number rounding_bias = Ok b ∧
                   var' = fix_var var
                            (inject_Z (py_round (double_add v b)))) ∨
             ((is_binary var || is_integer var) = false ∧
              var' = fix_var var v)))).
Proof.
  induction vars as [|var0 vars IH]; intros ix vars' upd Hrun.
  - injection Hrun as <- <-. split; [done|]. intros k var Hk. done.
  - cbn [fix_nonants] in Hrun.
    destruct (decide (var_id var0 ∈ surr)) as [Hin|Hout].
    + destruct (fix_nonants rounding_bias cand surr pers (S ix) vars)
        as [res [rest' upd']] eqn:Hrest.
      injection Hrun as -> <- <-.
      destruct (IH _ _ _ Hrest) as [Hlen Hat].
      split; [cbn; by rewrite Hlen|].
      intros [|k] var Hk; cbn in Hk.
      * injection Hk as <-. exists var0. split; [done|]. by left.
      * destruct (Hat k var Hk) as (var' & Hk' & Hcase).
        exists var'. split; [done|].
        by replace (ix + S k)%nat with (S ix + k)%nat by lia.
    + destruct (value_to_fix rounding_bias cand ix var0) as [val|e] eqn:Hval;
        [|discriminate].
      destruct (fix_nonants rounding_bias cand surr pers (S ix) vars)
        as [res [rest' upd']] eqn:Hrest.
      injection Hrun as -> <- <-.
      destruct (IH _ _ _ Hrest) as [Hlen Hat].
      split; [cbn; by rewrite Hlen|].
      intros [|k] var Hk; cbn in Hk.
      * injection Hk as <-. eexists. split; [done|]. right.
        split; [done|]. rewrite Nat.add_0_r.
        apply value_to_fix_ok in Hval as (v & Hv & Hcase). exists v.
        split; [done|].
        destruct Hcase as [(Hint & b & Hb & ->)|(Hint & ->)]; [left|right];
          eauto.
      * destruct (Hat k var Hk) as (var' & Hk' & Hcase).
        exists var'. split; [done|].
        by replace (ix + S k)%nat with (S ix + k)%nat by lia.
Qed.


(** The loop goes through whenever the candidate is long enough and the
    bias is a number. *)
Lemma fix_nonants_total (rounding_bias : pyval) (b : Q) (cand : list Q)
    (surr : gset nat) (pers : bool) (vars : list Var) :
  as_number rounding_bias = Ok b →
  ∀ ix : nat, (ix + length vars ≤ length cand)%nat →
    ∃ vars' upd,
      fix_nonants rounding_bias cand surr pers ix vars
      = (Ok tt, (vars', upd)).
Proof.
  intros Hb. induction vars as [|var0 vars IH]; intros ix Hlen.
  - by exists [], [].
  - cbn [length] in Hlen. cbn [fix_nonants].
    destruct (IH (S ix)) as (rest' & upd' & Hrest); [lia|].
    rewrite Hrest.
    destruct (decide (var_id var0 ∈ surr)); [by eexists _, _|].
    destruct (lookup_lt_is_Some_2 cand ix) as [v Hv]; [lia|].
    unfold value_to_fix. rewrite Hv, Hb. cbn [mbind result_bind].
    destruct (is_binary var0 || is_integer var0); by eexists _, _.
Qed.


(** A scenario after the loop: same name, probability, surrogate set and
    solver kind; the variables as [fix_nonants] leaves them. *)
Lemma fix_scenario_inv (rounding_bias : pyval) (cand : list Q)
    (s s' : Scenario) (res : result unit) :
  fix_scenario rounding_bias cand s = (res, s') →
  ∃ vars' upd,
    fix_nonants rounding_bias cand (all_surrogate_nonants s) (persistent s)
                0 (nonant_indices s) = (res, (vars', upd))
    ∧ s' = mkScenario (scen_name s) (probability s) vars'
                      (all_surrogate_nonants s) (persistent s)
                      (solver_updates s ++ upd).
Proof.
  unfold fix_scenario. intros Hrun.
  destruct (fix_nonants _ _ _ _ _ _) as [res' [vars' upd]].
  injection Hrun as <- <-. by exists vars', upd.
Qed.

Lemma fix_scenarios_lookup (rounding_bias : pyval) (cand : list Q)
    (ss : list Scenario) :
  ∀ ss' : list Scenario,
    fix_scenarios rounding_bias cand ss = (Ok tt, ss') →
    length ss' = length ss ∧
    ∀ (i : nat) (s : Scenario), ss !! i = Some s →
      ∃ s', ss' !! i = Some s'
        ∧ fix_scenario rounding_bias cand s = (Ok tt, s').
Proof.
  induction ss as [|s0 ss IH]; intros ss' Hrun.
  - injection Hrun as <-. split; [done|]. intros i s Hi. done.
  - cbn [fix_scenarios] in Hrun.
    destruct (fix_scenario rounding_bias cand s0) as [[[]|e] s0'] eqn:H0;
      [|discriminate].
    destruct (fix_scenarios rounding_bias cand ss) as [res rest'] eqn:Hrest.
    injection Hrun as -> <-.
    destruct (IH _ eq_refl) as [Hlen Hat].
    split; [cbn; by rewrite Hlen|].
    intros [|i] s Hi; cbn in Hi.
    + injection Hi as <-. by exists s0'.
    + by apply Hat.
Qed.

(** Unfolds the plumbing of the machine monad. *)
Ltac unfold_M :=
  unfold opt_call, opt_call_with in *;
  unfold mbind, mret, M_bind, M_ret, get_self, put_self, lift, raise, emit,
    modify_opt in *.

Lemma update_if_improving_state_opt (v : double) (s : Spoke) :
  opt (update_if_improving_state v s).2 = opt s.
Proof.
  unfold update_if_improving_state. by destruct (improving _ _ _).
Qed.

(** A successful pass body, step by step. *)
Lemma slam_body_inv `{SlamHeuristic} (env : PassEnv) (r r' : Rank) :
  slam_body env r = (Ok tt, r') →
  ∃ local_candidate global_candidate scenarios published,
    extract_local_candidate_soln (self r) = Ok local_candidate
    ∧ Allreduce mpi_op
        (take (cylinder_rank (opt (self r))) (peer_candidates env) ++
         local_candidate ::
         drop (cylinder_rank (opt (self r))) (peer_candidates env))
      = Ok global_candidate
    ∧ fix_scenarios
        (get_default (options (opt (self r))) "rounding_bias" (PyFloat 0))
        global_candidate (local_scenarios (opt (self r)))
      = (Ok tt, scenarios)
    ∧ local_scenarios (opt (self r')) = scenarios
    ∧ ∃ obj, evaluation env = Ok obj
        ∧ trace r' = trace r ++ [Allreduced global_candidate;
                                 OptCall "calculate_incumbent";
                                 UpdateIfImproving obj published].
Proof.
  unfold slam_body, update_if_improving. unfold_M.
  destruct r as [s t]. cbn [self trace].
  destruct (extract_local_candidate_soln s) as [lc|e]; [|discriminate].
  destruct (Allreduce _ _) as [gc|e] eqn:Hgc; [|discriminate].
  destruct (fix_scenarios _ _ _) as [[[]|e] ss] eqn:Hss; [|discriminate].
  cbn [self trace].
  destruct (evaluation env) as [obj|e] eqn:Hobj; [|discriminate].
  cbn [self trace].
  pose proof (update_if_improving_state_opt obj
                (set_opt (set_local_scenarios ss (opt s)) s)) as Hopt.
  destruct (update_if_improving_state _ _) as [published s'].
  cbn [self trace]. intros [= <-].
  exists lc, gc, ss, published. cbn [self trace snd] in *.
  split; [done|]. split; [done|]. split; [done|].
  split; [by rewrite Hopt|].
  exists obj. split; [done|]. by rewrite <- !app_assoc.
Qed.

(** C5: on a pass that fixes the reduced candidate into the local
    scenarios, an integer or binary variable receives the candidate entry
    at its index plus the configured rounding bias (the [rounding_bias]
    option, 0.0 when absent), rounded to the nearest integer: the sum is the
    sum of two doubles and [round] takes it to an integer that no other
    integer is nearer to.  A continuous variable receives the entry as it
    is, whatever the bias.  With the candidate 2.3 an integer variable gets
    2 under bias 0.0 and 3 under bias 0.5, a continuous one 2.3 under
    both. *)
Theorem fix_rounds_integers_only `{SlamHeuristic} (env : PassEnv)
    (r r' : Rank) :
  slam_body env r = (Ok tt, r') →
  (∃ global_candidate,
     Allreduced global_candidate ∈ trace r'
     ∧ ∀ (i : nat) (s : Scenario) (ix : nat) (var : Var),
         local_scenarios (opt (self r)) !! i = Some s →
         nonant_indices s !! ix = Some var →
         var_id var ∉ all_surrogate_nonants s →
         ∃ v s' var',
           global_candidate !! ix = Some v
           ∧ local_scenarios (opt (self r')) !! i = Some s'
           ∧ nonant_indices s' !! ix = Some var'
           ∧ ((is_binary var || is_integer var) = true →
              ∃ b, as_number (get_default (options (opt (self r)))
                                "rounding_bias" (PyFloat 0)) = Ok b
                ∧ value var' = Some (inject_Z (py_round (double_add v b)))
                ∧ (Qabs (inject_Z (py_round (double_add v b))
                         - double_add v b) <= 1 # 2)%Q
                ∧ (∀ z : Z,
                     (Qabs (inject_Z (py_round (double_add v b))
                            - double_add v b)
                      <= Qabs (inject_Z z - double_add v b))%Q)
                ∧ (Qabs (double_add v b - (v + b)) <= ulp (v + b) / 2)%Q)
           ∧ ((is_binary var || is_integer var) = false →
              value var' = Some v))
  ∧ (let c := round_to_double (23 # 10) in
     (fix_nonants (PyFloat 0) [c; c] ∅ false 0
        [mkVar 0 false true false None; mkVar 1 false false false None]).2.1
     = [mkVar 0 false true true (Some (2 # 1));
        mkVar 1 false false true (Some c)]
     ∧ (fix_nonants (PyFloat (1 # 2)) [c; c] ∅ false 0
          [mkVar 0 false true false None; mkVar 1 false false false None]).2.1
       = [mkVar 0 false true true (Some (3 # 1));
          mkVar 1 false false true (Some c)]).
Proof.
  intros Hrun. split; [|by vm_compute].
  apply slam_body_inv in Hrun
    as (lc & gc & ss & pub & _ & _ & Hss & Hss' & obj & _ & Htr).
  exists gc. split.
  { rewrite Htr. apply elem_of_app. right. apply list_elem_of_here. }
  intros i s ix var Hi Hvar Hns.
  apply fix_scenarios_lookup in Hss as [_ Hat]. rewrite Hss'.
  destruct (Hat i s Hi) as (s' & Hi' & Hfix).
  apply fix_scenario_inv in Hfix as (vars' & upd & Hfix & ->).
  apply fix_nonants_lookup in Hfix as [_ Hvat].
  destruct (Hvat ix var Hvar)
    as (var' & Hvar' & [[Hin _]|[_ (v & Hv & Hcase)]]); [done|].
  eexists v, _, var'. cbn [nonant_indices].
  split; [done|]. split; [done|]. split; [done|]. split.
  - intros Hint. destruct Hcase as [(_ & b & Hb & ->)|[Hc _]]; [|congruence].
    exists b. split; [done|]. split; [done|].
    split; [apply py_round_nearest|].
    split; [intros z; apply py_round_optimal|].
    apply round_to_double_error.
  - intros Hint. destruct Hcase as [[Hc _]|[_ ->]]; [congruence|done].
Qed.

Lemma fix_rounds_integers_only_witness :
  ∃ global_candidate,
    Allreduced global_candidate
      ∈ trace (slam_body (H := SlamMaxHeuristic)
                 (sample_pass false 1 [] (Finite 100)) sample_fetched).2
    ∧ ∃ v s' var',
        global_candidate !! 0%nat = Some v
        ∧ local_scenarios
            (opt (self (slam_body (H := SlamMaxHeuristic)
                          (sample_pass false 1 [] (Finite 100))
                          sample_fetched).2)) !! 1%nat = Some s'
        ∧ nonant_indices s' !! 0%nat = Some var'
        ∧ ∃ b, as_number (PyFloat (1 # 2)) = Ok b
            ∧ value var' = Some (inject_Z (py_round (double_add v b))).
Proof.
  destruct (fix_rounds_integers_only (H := SlamMaxHeuristic)
              (sample_pass false 1 [] (Finite 100)) sample_fetched
              (slam_body (H := SlamMaxHeuristic)
                 (sample_pass false 1 [] (Finite 100)) sample_fetched).2)
    as [(gc & Hgc & Hfix) _].
  - vm_compute. reflexivity.
  - exists gc. split; [exact Hgc|].
    destruct (Hfix 1%nat (sample_scenario "scen1") 0%nat
                (mkVar 0 false true false None))
      as (v & s' & var' & Hv & Hs' & Hvar' & Hint & _).
    + reflexivity.
    + reflexivity.
    + cbn. intros Hin. apply elem_of_singleton in Hin. discriminate.
    + exists v, s', var'. split; [exact Hv|]. split; [exact Hs'|].
      split; [exact Hvar'|].
      destruct (Hint eq_refl) as (b & Hb & Hval & _).
      exists b. split; [exact Hb|exact Hval].
Defined.



Example slam_body_sample :
  local_scenarios (opt (self (slam_body (H := SlamMaxHeuristic)
      (sample_pass false 1 [] (Finite 100)) sample_fetched).2))
  = [ mkScenario "scen0" (1 # 2)
        [ mkVar 0 false true true (Some (3 # 1));
          mkVar 1 false false false None;
          mkVar 2 false false true (Some (3 # 1)) ]
        {[ 1%nat ]} true [0%nat; 2%nat];
      mkScenario "scen1" (1 # 2)
        [ mkVar 0 false true true (Some (3 # 1));
          mkVar 1 false false false None;
          mkVar 2 false false true (Some (3 # 1)) ]
        {[ 1%nat ]} true [0%nat; 2%nat] ].
Proof. vm_compute. reflexivity. Qed.

(** ** The two-level reduction *)

(** Reshaping the concatenation of [rows] gives [rows] back. *)
Lemma reshape_concat (num_vars : nat) (rows : list (list Q)) :
  Forall (λ row, length row = num_vars) rows →
  reshape (concat rows) (length rows) num_vars = rows.
Proof.
  induction 1 as [|row rows Hrow _ IH]; [done|].
  cbn [concat length reshape].
  rewrite take_app_length' by done.
  rewrite drop_app_length' by done.
  by rewrite IH.
Qed.

Lemma length_concat_rows (num_vars : nat) (rows : list (list Q)) :
  Forall (λ row, length row = num_vars) rows →
  length (concat rows) = (length rows * num_vars)%nat.
Proof.
  induction 1 as [|row rows Hrow _ IH]; [done|].
  cbn [concat length]. rewrite length_app, IH, Hrow. lia.
Qed.

Lemma elem_of_concat {A : Type} (x : A) (rows : list (list A)) :
  x ∈ concat rows ↔ ∃ row, x ∈ row ∧ row ∈ rows.
Proof.
  induction rows as [|row rows IH]; cbn [concat].
  - split; [intros Hx; by apply elem_of_nil in Hx|].
    intros (row & _ & Hrow). by apply elem_of_nil in Hrow.
  - rewrite elem_of_app, IH. split.
    + intros [Hx|(row' & Hx & Hrow')].
      * exists row. split; [done|apply list_elem_of_here].
      * exists row'. split; [done|by apply list_elem_of_further].
    + intros (row' & Hx & Hrow'). apply elem_of_cons in Hrow' as [->|Hrow'].
      * by left.
      * right. by exists row'.
Qed.

Section Extremum.

(** An extremum operator [op] for the order [le] (max for <=, min for
    >=), both up to the equality of rationals. *)
Variable op : Q → Q → Q.
Variable le : Q → Q → Prop.
Hypothesis le_proper :
  ∀ x x' y y', (x == x')%Q → (y == y')%Q → le x y → le x' y'.
Hypothesis le_refl : ∀ x, le x x.
Hypothesis le_trans : ∀ x y z, le x y → le y z → le x z.
Hypothesis le_antisym : ∀ x y, le x y → le y x → (x == y)%Q.
Hypothesis op_spec :
  ∀ x y, (le x y ∧ (op x y == y)%Q) ∨ (le y x ∧ (op x y == x)%Q).

Abbreviation is_ext := (extremum_of le).

Lemma op_upper_l (x y : Q) : le x (op x y).
Proof using le_proper le_refl op_spec.
  destruct (op_spec x y) as [[Hle He]|[Hle He]].
  - eapply le_proper; [reflexivity|symmetry; exact He|exact Hle].
  - eapply le_proper; [reflexivity|symmetry; exact He|apply le_refl].
Qed.

Lemma op_upper_r (x y : Q) : le y (op x y).
Proof using le_proper le_refl op_spec.
  destruct (op_spec x y) as [[Hle He]|[Hle He]].
  - eapply le_proper; [reflexivity|symmetry; exact He|apply le_refl].
  - eapply le_proper; [reflexivity|symmetry; exact He|exact Hle].
Qed.

Lemma foldl_is_ext (l : list Q) :
  ∀ a, is_ext (a :: l) (foldl op a l).
Proof using le_proper le_refl le_trans op_spec.
  induction l as [|b l IH]; intros a.
  - split.
    + intros x Hx. apply list_elem_of_singleton in Hx as ->. apply le_refl.
    + exists a. split; [apply list_elem_of_here|reflexivity].
  - cbn [foldl]. destruct (IH (op a b)) as [Hup (w & Hw & Hwe)]. split.
    + intros x Hx. apply elem_of_cons in Hx as [->|Hx].
      { eapply le_trans; [apply op_upper_l|].
        apply Hup, list_elem_of_here. }
      apply elem_of_cons in Hx as [->|Hx].
      { eapply le_trans; [apply op_upper_r|].
        apply Hup, list_elem_of_here. }
      apply Hup. by apply list_elem_of_further.
    + apply elem_of_cons in Hw as [->|Hw].
      * destruct (op_spec a b) as [[_ He]|[_ He]].
        -- exists b. split; [apply list_elem_of_further, list_elem_of_here|].
           transitivity (op a b); [symmetry; exact He|exact Hwe].
        -- exists a. split; [apply list_elem_of_here|].
           transitivity (op a b); [symmetry; exact He|exact Hwe].
      * exists w. split; [|done]. by do 2 apply list_elem_of_further.
Qed.

Lemma is_ext_unique (l l' : list Q) (m m' : Q) :
  (∀ x, x ∈ l ↔ x ∈ l') → is_ext l m → is_ext l' m' → (m == m')%Q.
Proof using le_proper le_antisym.
  intros Hsame [Hup (w & Hw & Hwe)] [Hup' (w' & Hw' & Hwe')].
  apply le_antisym.
  - eapply le_proper; [exact Hwe|reflexivity|]. apply Hup'. by apply Hsame.
  - eapply le_proper; [exact Hwe'|reflexivity|]. apply Hup. by apply Hsame.
Qed.

(** Being an extremum of a list depends on the list's elements only. *)
Lemma is_ext_elements (l l' : list Q) (m : Q) :
  (∀ x, x ∈ l ↔ x ∈ l') → is_ext l m → is_ext l' m.
Proof using Type.
  intros Hsame [Hup (w & Hw & Hwe)]. split.
  - intros x Hx. apply Hup. by apply Hsame.
  - exists w. split; [by apply Hsame|done].
Qed.

(** The extremum of the extrema of the blocks is an extremum of all the
    values. *)
Lemma is_ext_blocks (blocks : list (list Q)) (exts : list Q) (m : Q) :
  Forall2 is_ext blocks exts → is_ext exts m → is_ext (concat blocks) m.
Proof using le_proper le_trans.
  intros Hblocks [Hup (w & Hw & Hwe)]. split.
  - intros x Hx. apply elem_of_concat in Hx as (b & Hxb & Hb).
    apply list_elem_of_lookup in Hb as [i Hi].
    destruct (Forall2_lookup_l _ _ _ _ _ Hblocks Hi) as (e & He & [Hbup _]).
    eapply le_trans; [by apply Hbup|].
    apply Hup. apply list_elem_of_lookup. by exists i.
  - apply list_elem_of_lookup in Hw as [i Hi].
    rename w into e.
    destruct (Forall2_lookup_r _ _ _ _ _ Hblocks Hi)
      as (b & Hb & [_ (x & Hx & Hxe)]).
    exists x. split.
    + apply elem_of_concat. exists b. split; [done|].
      apply list_elem_of_lookup. by exists i.
    + transitivity e; [exact Hxe|exact Hwe].
Qed.

(** *** Rows reduced slot by slot *)

Lemma reduce_rows_length (num_vars : nat) (rows : list (list Q)) :
  ∀ r, length r = num_vars →
    Forall (λ row, length row = num_vars) rows →
    length (foldl (zip_with op) r rows) = num_vars.
Proof using Type.
  induction rows as [|row rows IH]; intros r Hr Hrows; [done|].
  apply Forall_cons in Hrows as [Hrow Hrows]. cbn [foldl].
  apply IH; [|done]. rewrite length_zip_with. lia.
Qed.

Lemma nth_zip_with (j : nat) (a b : list Q) :
  (j < length a)%nat → (j < length b)%nat →
  nth j (zip_with op a b) 0%Q = op (nth j a 0%Q) (nth j b 0%Q).
Proof using Type.
  intros Ha Hb. rewrite !nth_lookup, lookup_zip_with.
  destruct (lookup_lt_is_Some_2 a j Ha) as [x ->].
  destruct (lookup_lt_is_Some_2 b j Hb) as [y ->]. done.
Qed.

(** Slot [j] of the reduced rows is the fold of [op] down column [j]. *)
Lemma reduce_rows_nth (num_vars j : nat) (rows : list (list Q)) :
  (j < num_vars)%nat →
  ∀ r, length r = num_vars →
    Forall (λ row, length row = num_vars) rows →
    nth j (foldl (zip_with op) r rows) 0%Q
    = foldl op (nth j r 0%Q) (column j rows).
Proof using Type.
  intros Hj. induction rows as [|row rows IH]; intros r Hr Hrows; [done|].
  apply Forall_cons in Hrows as [Hrow Hrows]. cbn [foldl column fmap list_fmap].
  rewrite IH; [|rewrite length_zip_with; lia|done].
  rewrite nth_zip_with by lia. done.
Qed.

Lemma reduce_rows_is_ext (num_vars j : nat) (r : list Q)
    (rows : list (list Q)) :
  (j < num_vars)%nat →
  Forall (λ row, length row = num_vars) (r :: rows) →
  is_ext (column j (r :: rows)) (nth j (foldl (zip_with op) r rows) 0%Q).
Proof using le_proper le_refl le_trans op_spec.
  intros Hj Hrows. apply Forall_cons in Hrows as [Hr Hrows].
  rewrite (reduce_rows_nth num_vars) by done.
  apply foldl_is_ext.
Qed.

Lemma column_concat (j : nat) (blocks : list (list (list Q))) :
  column j (concat blocks) = concat (column j <$> blocks).
Proof using Type.
  induction blocks as [|b blocks IH]; [done|].
  cbn [concat fmap list_fmap]. unfold column at 1.
  rewrite fmap_app. f_equal. exact IH.
Qed.

(** *** One replica *)

Context {H : SlamHeuristic}.
Hypothesis numpy_op_is : numpy_op = reduce_axis0 op.
Hypothesis mpi_op_is : mpi_op = op.

(** A spoke that holds a non-empty block of rows extracts their
    column-wise reduction. *)
Lemma extract_rows (num_vars : nat) (s : Spoke) (row : list Q)
    (rows : list (list Q)) :
  Forall (λ row, length row = num_vars) (row :: rows) →
  holds_rows s (row :: rows) →
  extract_local_candidate_soln s = Ok (foldl (zip_with op) row rows).
Proof using numpy_op_is.
  intros Hrows [Hscen Hflat]. unfold extract_local_candidate_soln.
  rewrite Hscen, Hflat, (length_concat_rows num_vars) by done.
  cbn [length Nat.eqb].
  rewrite (Nat.mul_comm (S (length rows)) num_vars), Nat.div_mul by done.
  rewrite (Nat.mul_comm num_vars), Nat.eqb_refl. cbn [negb].
  pose proof (reshape_concat num_vars (row :: rows) Hrows) as Hre.
  cbn [length] in Hre. rewrite Hre, numpy_op_is.
  cbn [reduce_axis0 mbind result_bind].
  apply Forall_cons in Hrows as [Hrow Hrows].
  rewrite (reduce_rows_length num_vars) by done.
  by rewrite Nat.eqb_refl.
Qed.

(** *** All replicas *)

(** Every replica extracts a candidate of [num_vars] slots whose slot [j]
    is an extremum of column [j] of its block. *)
Lemma extract_blocks (num_vars : nat) (replicas : list Spoke)
    (blocks : list (list (list Q))) :
  Forall (Forall (λ row, length row = num_vars)) blocks →
  Forall (λ block, block ≠ []) blocks →
  Forall2 holds_rows replicas blocks →
  ∃ locals,
    Forall2 (λ s l, extract_local_candidate_soln s = Ok l) replicas locals
    ∧ Forall (λ l, length l = num_vars) locals
    ∧ ∀ j, (j < num_vars)%nat →
        Forall2 is_ext (column j <$> blocks) (column j locals).
Proof using le_proper le_refl le_trans op_spec numpy_op_is.
  intros Hlen Hne Hholds. revert Hlen Hne.
  induction Hholds as [|s block replicas blocks Hs _ IH]; intros Hlen Hne.
  - exists []. repeat split; constructor.
  - apply Forall_cons in Hlen as [Hblock Hlen].
    apply Forall_cons in Hne as [Hb Hne].
    destruct (IH Hlen Hne) as (locals & Hex & Hll & Hext).
    destruct block as [|row rows]; [done|].
    exists (foldl (zip_with op) row rows :: locals). repeat split.
    + constructor; [|done]. by eapply extract_rows.
    + constructor; [|done].
      apply Forall_cons in Hblock as [Hrow Hrows].
      by apply reduce_rows_length.
    + intros j Hj. cbn [fmap list_fmap column]. constructor.
      * by apply (reduce_rows_is_ext num_vars).
      * by apply Hext.
Qed.

Lemma lengths_agree (n : nat) (ls : list (list Q)) :
  Forall (λ l, length l = n) ls →
  forallb (λ b, Nat.eqb (length b) n) ls = true.
Proof using Type.
  induction 1 as [|l ls Hl _ IH]; [done|].
  cbn [forallb]. by rewrite Hl, Nat.eqb_refl, IH.
Qed.

(** Per-replica reduction followed by the collective reduction agrees,
    slot by slot, with the reduction of the whole matrix at once, and every
    slot of the result is an extremum of its column of the matrix. *)
Lemma two_level_reduction (num_vars : nat) (matrix : list (list Q))
    (blocks : list (list (list Q))) (whole : Spoke)
    (replicas : list Spoke) :
  matrix ≠ [] →
  Forall (λ row, length row = num_vars) matrix →
  Forall (λ block, block ≠ []) blocks →
  concat blocks ≡ₚ matrix →
  holds_rows whole matrix →
  Forall2 holds_rows replicas blocks →
  ∃ locals global one_shot,
    Forall2 (λ s l, extract_local_candidate_soln s = Ok l) replicas locals
    ∧ Allreduce mpi_op locals = Ok global
    ∧ extract_local_candidate_soln whole = Ok one_shot
    ∧ numpy_op matrix = Ok one_shot
    ∧ length one_shot = num_vars
    ∧ length global = num_vars
    ∧ Forall2 Qeq global one_shot
    ∧ ∀ j, (j < num_vars)%nat →
        is_ext (column j matrix) (nth j global 0%Q).
Proof using le_proper le_refl le_trans le_antisym op_spec numpy_op_is
            mpi_op_is.
  intros Hmne Hmlen Hbne Hperm Hwhole Hholds.
  assert (Forall (Forall (λ row, length row = num_vars)) blocks) as Hblen.
  { apply Forall_forall. intros block Hblock.
    apply Forall_forall. intros row Hrow.
    rewrite Forall_forall in Hmlen. apply Hmlen.
    rewrite <- Hperm. apply elem_of_concat. by exists block. }
  destruct (extract_blocks num_vars replicas blocks Hblen Hbne Hholds)
    as (locals & Hex & Hll & Hext).
  destruct matrix as [|mrow mrows]; [done|].
  destruct blocks as [|block blocks].
  { apply Permutation_nil_l in Hperm. done. }
  apply Forall2_cons_inv_r in Hholds
    as (s0 & replicas' & Hs0 & Hholds & ->).
  apply Forall2_cons_inv_l in Hex as (L & Ls & HL & Hex & ->).
  pose proof Hll as Hll'. apply Forall_cons in Hll' as [HLlen HLs].
  exists (L :: Ls), (foldl (zip_with op) L Ls),
         (foldl (zip_with op) mrow mrows).
  pose proof Hmlen as Hmlen'. apply Forall_cons in Hmlen' as [Hmr Hmrs].
  split; [by constructor|]. split.
  { unfold Allreduce. rewrite mpi_op_is.
    rewrite lengths_agree; [done|]. by rewrite HLlen. }
  split; [by apply (extract_rows num_vars)|].
  split; [by rewrite numpy_op_is|].
  split; [by apply reduce_rows_length|].
  split; [by apply reduce_rows_length|].
  assert (∀ j, (j < num_vars)%nat →
            is_ext (column j (mrow :: mrows))
                   (nth j (foldl (zip_with op) L Ls) 0%Q)) as Hglobal.
  { intros j Hj.
    pose proof (reduce_rows_is_ext num_vars j L Ls Hj Hll) as HxE.
    apply (is_ext_elements (concat (column j <$> block :: blocks)));
      [|exact (is_ext_blocks _ _ _ (Hext j Hj) HxE)].
    intros x0. rewrite <- column_concat. unfold column. by rewrite Hperm. }
  split; [|exact Hglobal].
  apply Forall2_same_length_lookup_2.
  { by rewrite !(reduce_rows_length num_vars). }
  intros j x y Hx Hy.
  assert (j < num_vars)%nat as Hj.
  { apply lookup_lt_Some in Hx.
    by rewrite (reduce_rows_length num_vars) in Hx. }
  pose proof (Hglobal j Hj) as HxE.
  pose proof (reduce_rows_is_ext num_vars j mrow mrows Hj Hmlen) as HyE.
  rewrite nth_lookup, Hx in HxE. rewrite nth_lookup, Hy in HyE.
  cbn [default] in HxE, HyE.
  by eapply (is_ext_unique _ _ x y); [|exact HxE|exact HyE].
Qed.

End Extremum.


(** The maximum is the extremum of [<=], the minimum that of [>=]. *)
Lemma Qle_proper (x x' y y' : Q) :
  (x == x')%Q → (y == y')%Q → (x <= y)%Q → (x' <= y')%Q.
Proof. intros Hx Hy Hle. by rewrite <- Hx, <- Hy. Qed.

Lemma Qmax_extremum (x y : Q) :
  ((x <= y)%Q ∧ (Qmax x y == y)%Q) ∨ ((y <= x)%Q ∧ (Qmax x y == x)%Q).
Proof.
  destruct (Q.max_spec x y) as [[Hlt He]|[Hle He]].
  - left. split; [by apply Qlt_le_weak|done].
  - right. by split.
Qed.

Lemma Qge_proper (x x' y y' : Q) :
  (x == x')%Q → (y == y')%Q → Qge x y → Qge x' y'.
Proof.
  intros Hx Hy Hle. change (y' <= x')%Q. change (y <= x)%Q in Hle.
  by rewrite <- Hx, <- Hy.
Qed.

Lemma Qge_refl (x : Q) : Qge x x.
Proof. apply Qle_refl. Qed.

Lemma Qge_trans (x y z : Q) : Qge x y → Qge y z → Qge x z.
Proof. intros Hxy Hyz. by apply (Qle_trans z y x). Qed.

Lemma Qge_antisym (x y : Q) : Qge x y → Qge y x → (x == y)%Q.
Proof. intros Hxy Hyx. by apply Qle_antisym. Qed.

Lemma Qmin_extremum (x y : Q) :
  (Qge x y ∧ (Qmin x y == y)%Q) ∨ (Qge y x ∧ (Qmin x y == x)%Q).
Proof.
  destruct (Q.min_spec x y) as [[Hlt He]|[Hle He]].
  - right. split; [by apply Qlt_le_weak|done].
  - left. by split.
Qed.

Lemma holder_holds (rows : list (list Q)) : holds_rows (holder rows) rows.
Proof. split; [apply length_fmap|reflexivity]. Qed.

(** C4: for a matrix of scenario rows split in any way over any number of
    replicas (every replica holding at least one row), reducing each
    replica's rows column by column with the local numpy operator and then
    reducing the replicas' results with the matching MPI operator gives, slot
    for slot, the one-shot column-wise reduction of the whole matrix: the
    numpy operator applied to the whole matrix, which is also what a single
    replica holding all rows extracts.  Every slot of the result is the
    largest entry of its column for the max heuristic and the smallest for
    the min heuristic, whatever the split.  The rows [[1,5],[9,2],[3,3]]
    give [9,5] under the maximum, however split. *)
Theorem reduction_partition_invariant (H : SlamHeuristic) (num_vars : nat)
    (matrix : list (list Q)) (blocks : list (list (list Q)))
    (whole : Spoke) (replicas : list Spoke) :
  H = SlamMaxHeuristic ∨ H = SlamMinHeuristic →
  matrix ≠ [] →
  Forall (λ row, length row = num_vars) matrix →
  Forall (λ block, block ≠ []) blocks →
  concat blocks ≡ₚ matrix →
  holds_rows whole matrix →
  Forall2 holds_rows replicas blocks →
  ∃ locals global one_shot,
    Forall2 (λ s l, extract_local_candidate_soln s = Ok l) replicas locals
    ∧ Allreduce mpi_op locals = Ok global
    ∧ numpy_op matrix = Ok one_shot
    ∧ extract_local_candidate_soln whole = Ok one_shot
    ∧ Forall2 Qeq global one_shot
    ∧ length global = num_vars
    ∧ (H = SlamMaxHeuristic → ∀ j, (j < num_vars)%nat →
       extremum_of Qle (column j matrix) (nth j global 0%Q))
    ∧ (H = SlamMinHeuristic → ∀ j, (j < num_vars)%nat →
       extremum_of (λ x y, (y <= x)%Q) (column j matrix) (nth j global 0%Q))
    ∧ (H = SlamMaxHeuristic → matrix = example_matrix →
       Forall2 Qeq global [9 # 1; 5 # 1]).
Proof.
  intros HH Hmne Hmlen Hbne Hperm Hwhole Hholds.
  destruct HH as [-> | ->].
  - destruct (two_level_reduction Qmax Qle Qle_proper Qle_refl Qle_trans
                Qle_antisym Qmax_extremum (H := SlamMaxHeuristic)
                eq_refl eq_refl num_vars matrix blocks whole replicas
                Hmne Hmlen Hbne Hperm Hwhole Hholds)
      as (locals & global & one & H1 & H2 & H3 & H3' & _ & H5 & H4 & H6).
    exists locals, global, one.
    split; [done|]. split; [done|]. split; [done|]. split; [done|].
    split; [done|]. split; [done|]. split; [done|]. split; [done|].
    intros _ ->.
    assert (extract_local_candidate_soln (H := SlamMaxHeuristic) whole
            = Ok [9 # 1; 5 # 1]) as Hex.
    { rewrite (extract_rows Qmax (H := SlamMaxHeuristic) eq_refl 2 whole
                 [1 # 1; 5 # 1] [[9 # 1; 2 # 1]; [3 # 1; 3 # 1]]); try done.
      repeat constructor. }
    rewrite Hex in H3. by injection H3 as <-.
  - destruct (two_level_reduction Qmin (λ x y, (y <= x)%Q) Qge_proper
                Qge_refl Qge_trans Qge_antisym Qmin_extremum
                (H := SlamMinHeuristic)
                eq_refl eq_refl num_vars matrix blocks whole replicas
                Hmne Hmlen Hbne Hperm Hwhole Hholds)
      as (locals & global & one & H1 & H2 & H3 & H3' & _ & H5 & H4 & H6).
    exists locals, global, one.
    split; [done|]. split; [done|]. split; [done|]. split; [done|].
    split; [done|]. split; [done|]. split; [done|]. split; [done|].
    done.
Qed.

Lemma reduction_partition_invariant_witness :
  ∃ locals global one_shot,
    Forall2 (λ s l, extract_local_candidate_soln (H := SlamMaxHeuristic) s
                    = Ok l)
      [holder [[1 # 1; 5 # 1]; [3 # 1; 3 # 1]]; holder [[9 # 1; 2 # 1]]]
      locals
    ∧ Allreduce Qmax locals = Ok global
    ∧ reduce_axis0 Qmax example_matrix = Ok one_shot
    ∧ Forall2 Qeq global one_shot
    ∧ (∀ j, (j < 2)%nat →
       extremum_of Qle (column j example_matrix) (nth j global 0%Q))
    ∧ Forall2 Qeq global [9 # 1; 5 # 1].
Proof.
  destruct (reduction_partition_invariant SlamMaxHeuristic 2 example_matrix
              [[[1 # 1; 5 # 1]; [3 # 1; 3 # 1]]; [[9 # 1; 2 # 1]]]
              (holder example_matrix)
              [holder [[1 # 1; 5 # 1]; [3 # 1; 3 # 1]];
               holder [[9 # 1; 2 # 1]]])
    as (locals & global & one & H1 & H2 & H3 & _ & H4 & _ & Hmax & _ & Hex).
  - left. reflexivity.
  - discriminate.
  - repeat constructor.
  - repeat constructor; discriminate.
  - apply perm_skip, perm_swap.
  - apply holder_holds.
  - repeat constructor.
  - exists locals, global, one.
    split; [exact H1|]. split; [exact H2|]. split; [exact H3|].
    split; [exact H4|]. split; [exact (Hmax eq_refl)|].
    exact (Hex eq_refl eq_refl).
Defined.

(** ** Startup of the aggregation heuristic *)

(** The preparation step when both preconditions hold and the options carry
    the [verbose] key it reads. *)
Lemma slam_heur_prep_ok `{SlamHeuristic} (others : Q) (s : Spoke)
    (v : pyval) (t : list event) :
  multistage (opt s) = false → is_Xhat_Eval (opt s) = true →
  options (opt s) !! "verbose" = Some v →
  ∃ s', slam_heur_prep others (mkRank s t)
        = (Ok tt, mkRank s' (t ++ [OptCall "_update_E1";
                                   OptCall "_lazy_create_solvers"]))
    ∧ verbose s' = v
    ∧ local_scenarios (opt s') = local_scenarios (opt s)
    ∧ options (opt s') = options (opt s).
Proof.
  intros Hms Hxe Hv. unfold slam_heur_prep, _update_E1. unfold_M.
  cbn [self trace]. rewrite Hms, Hxe. cbn [negb].
  unfold getitem. rewrite Hv. cbn [self trace].
  destruct (contains (options (opt s)) "tee-rank0-solves") eqn:Htee.
  - destruct (options (opt s) !! "tee-rank0-solves") as [tv|] eqn:Htv.
    + cbn [self trace]. eexists. split.
      { rewrite <- app_assoc. reflexivity. }
      by repeat split.
    + unfold contains in Htee. apply bool_decide_eq_true in Htee.
      rewrite Htv in Htee. by destruct Htee.
  - cbn [self trace]. eexists. split.
    { rewrite <- app_assoc. reflexivity. }
    by repeat split.
Qed.

(** C8: a multistage model, or an optimizer that is not an [Xhat_Eval],
    makes [main] raise a RuntimeError before anything else happens: no kill
    check, no pass, the spoke untouched.  With both preconditions met the
    preparation raises no RuntimeError, and completes when the options carry
    [verbose]. *)
Theorem slam_preconditions_fatal `{SlamHeuristic} (others : Q)
    (envs : list PassEnv) (s : Spoke) :
  (multistage (opt s) = true →
     run (slam_main others envs) s
     = (Raise (RuntimeError ("The " +:+ class_name +:+
                 " only supports two-stage models at this time.")),
        mkRank s []))
  ∧ (multistage (opt s) = false → is_Xhat_Eval (opt s) = false →
     run (slam_main others envs) s
     = (Raise (RuntimeError (class_name +:+ " must be used with Xhat_Eval.")),
        mkRank s []))
  ∧ (multistage (opt s) = false → is_Xhat_Eval (opt s) = true →
     (∀ msg r', run (slam_heur_prep others) s ≠ (Raise (RuntimeError msg), r'))
     ∧ (∀ v, options (opt s) !! "verbose" = Some v →
        ∃ r', run (slam_heur_prep others) s = (Ok tt, r')
          ∧ kill_checks (trace r') = []
          ∧ run (slam_main others envs) s = slam_loop envs 1 r')).
Proof.
  split; [|split].
  - intros Hms. unfold run, slam_main, slam_heur_prep. unfold_M.
    cbn [self trace]. by rewrite Hms.
  - intros Hms Hxe. unfold run, slam_main, slam_heur_prep. unfold_M.
    cbn [self trace]. by rewrite Hms, Hxe.
  - intros Hms Hxe. split.
    + intros msg r'. unfold run.
      destruct (options (opt s) !! "verbose") as [v|] eqn:Hv.
      * destruct (slam_heur_prep_ok others s v [] Hms Hxe Hv) as (s' & -> & _).
        discriminate.
      * unfold slam_heur_prep, getitem. unfold_M. cbn [self trace].
        rewrite Hms, Hxe, Hv. cbn [negb]. discriminate.
    + intros v Hv. unfold run.
      destruct (slam_heur_prep_ok others s v [] Hms Hxe Hv) as (s' & Hprep & _).
      eexists. split; [exact Hprep|]. split; [reflexivity|].
      unfold slam_main. unfold mbind at 1. unfold M_bind at 1.
      by rewrite Hprep.
Qed.

Example slam_multistage_refused :
  run (slam_main (H := SlamMaxHeuristic) 0
         [sample_pass false 1 [23 # 10; 7 # 1; 5 # 2] (Finite 10)])
      (new_spoke (mkOpt true true sample_options [] 0 0 0 None None) Minimize)
  = (Raise (RuntimeError
       "The SlamMaxHeuristic only supports two-stage models at this time."),
     mkRank (new_spoke (mkOpt true true sample_options [] 0 0 0 None None)
                       Minimize) []).
Proof. vm_compute. reflexivity. Qed.

(** ** Warm-up of the look-ahead spoke *)

(** The events of the warm-up up to the probability check. *)
Lemma has_bundles_prep (s : Spoke) (t : list event) (others : Q) :
  has_bundles (opt s) = true →
  xhatlooper_prep others (mkRank s t)
  = (Raise (RuntimeError "xhat spokes cannot have bundles (yet)"), mkRank s t).
Proof.
  unfold has_bundles, xhatlooper_prep, contains, getitem. unfold_M.
  cbn [self trace].
  destruct (options (opt s) !! "bundles_per_rank") as [v|]; [|discriminate].
  intros ->. rewrite bool_decide_eq_true_2 by eauto. reflexivity.
Qed.

Lemma not_Xhat_Eval_prep (s : Spoke) (t : list event) (others : Q) :
  has_bundles (opt s) = false → is_Xhat_Eval (opt s) = false →
  xhatlooper_prep others (mkRank s t)
  = (Raise (RuntimeError "XhatShuffleInnerBound must be used with Xhat_Eval."),
     mkRank s t).
Proof.
  unfold has_bundles, xhatlooper_prep, contains, getitem. unfold_M.
  cbn [self trace]. intros Hb ->.
  destruct (options (opt s) !! "bundles_per_rank") as [v|].
  - rewrite bool_decide_eq_true_2 by eauto. cbn [self trace]. by rewrite Hb.
  - rewrite bool_decide_eq_false_2 by (intros [? ?]; discriminate). reflexivity.
Qed.

(** The warm-up in closed form, once its two preconditions hold. *)
Lemma xhatlooper_prep_checked (s : Spoke) (t : list event) (others : Q) :
  has_bundles (opt s) = false → is_Xhat_Eval (opt s) = true →
  let E := total_probability others (opt s) in
  let o1 := set_E1 E (set_original_nonants (current_nonants (opt s)) (opt s)) in
  let t1 := t ++ [OptCall "XhatLooper"; OptCall "pre_iter0";
                  OptCall "_save_original_nonants";
                  OptCall "_lazy_create_solvers"; OptCall "_update_E1"] in
  xhatlooper_prep others (mkRank s t)
  = if Qle_bool (Qabs (double_sub 1 E)) (E1_tolerance (opt s))
    then (Ok tt,
          mkRank (set_opt (set_nonant_cache (current_nonants (opt s)) o1) s)
                 (t1 ++ [OptCall "post_iter0"; OptCall "_save_nonants"]))
    else (Raise SystemExit,
          mkRank (set_opt o1 s)
                 (t1 ++ if Nat.eqb (cylinder_rank (opt s)) 0
                        then [Print "ERROR" None;
                              Print "Total probability of scenarios was "
                                    (Some E);
                              Print "E1_tolerance = "
                                    (Some (E1_tolerance (opt s)))]
                        else [])).
Proof.
  intros Hb Hxe E o1 t1.
  unfold has_bundles in Hb.
  unfold xhatlooper_prep, _save_original_nonants, _update_E1, _save_nonants,
    contains, getitem.
  unfold_M. cbn [self trace].
  destruct s as [o d id ln best bw te ve]. cbn [opt] in *.
  destruct (options o !! "bundles_per_rank") as [v|] eqn:Hv.
  - rewrite bool_decide_eq_true_2 by eauto. cbn [self trace]. rewrite Hb, Hxe.
    cbn. subst E o1 t1. cbn.
    destruct (Qle_bool _ _); cbn.
    + by rewrite <- !app_assoc.
    + destruct (Nat.eqb (cylinder_rank o) 0); cbn; by rewrite <- !app_assoc.
  - rewrite bool_decide_eq_false_2 by (intros [? ?]; discriminate).
    cbn [self trace]. rewrite Hxe.
    cbn. subst E o1 t1. cbn.
    destruct (Qle_bool _ _); cbn.
    + by rewrite <- !app_assoc.
    + destruct (Nat.eqb (cylinder_rank o) 0); cbn; by rewrite <- !app_assoc.
Qed.

Lemma printed_app (t u : list event) : printed (t ++ u) = printed t ++ printed u.
Proof. apply omap_app. Qed.

Lemma kill_checks_app (t u : list event) :
  kill_checks (t ++ u) = kill_checks t ++ kill_checks u.
Proof. apply omap_app. Qed.

Lemma reported_app (t u : list event) :
  reported (t ++ u) = reported t ++ reported u.
Proof. apply omap_app. Qed.





(** Off cylinder rank 0 the abort is silent: the rank quits and has printed
    nothing, the diagnostic being left to rank 0. *)
Example xhat_quits_silently_off_rank_0 :
  (run (xhat_main (1 # 1) []) (new_spoke sample_opt_rank1 Minimize)).1
  = Raise SystemExit
  ∧ printed (trace (run (xhat_main (1 # 1) [])
                        (new_spoke sample_opt_rank1 Minimize)).2) = [].
Proof. split; vm_compute; reflexivity. Qed.

(** ** Where the options are read *)







(** With no [rounding_bias] among the options the aggregation spoke
    prepares, runs a pass on the published vector and leaves on the kill
    signal. *)
Example slam_run_without_rounding_bias :
  (run (slam_main (H := SlamMaxHeuristic) 0 sample_passes)
       (new_spoke sample_opt_verbose_only Minimize)).1
  = Ok (LoopExited 2).
Proof. vm_compute. reflexivity. Qed.

(** ** New-data detection *)

Lemma poll_fresh (hub : Window Q) (s : Spoke) :
  remote_write_id s < write_id hub →
  poll hub s = (true, set_fetched (write_id hub) (payload hub) s).
Proof.
  intros Hlt. unfold poll. by rewrite (proj2 (Z.ltb_lt _ _) Hlt).
Qed.

Lemma poll_stale (hub : Window Q) (s : Spoke) :
  write_id hub ≤ remote_write_id s → poll hub s = (false, s).
Proof.
  intros Hle. unfold poll. by rewrite (proj2 (Z.ltb_ge _ _) Hle).
Qed.

(** Polls that follow a poll of the same counter find nothing new. *)
Lemma polls_stale (n : nat) (rest : list action) (hub : Window Q)
    (s : Spoke) :
  write_id hub ≤ remote_write_id s →
  polls (replicate n SpokePoll ++ rest) hub s
  = replicate n (false, write_id hub) ++ polls rest hub s.
Proof.
  intros Hle. induction n as [|n IH]; [done|].
  cbn [replicate app polls]. rewrite poll_stale by done. by rewrite IH.
Qed.

(** Every counter acted on lies above the last-seen one, and they come in
    strictly increasing order. *)
Lemma acted_on_increasing (acts : list action) :
  ∀ (hub : Window Q) (s : Spoke),
    Forall (λ c, remote_write_id s < c) (acted_on (polls acts hub s))
    ∧ StronglySorted Z.lt (acted_on (polls acts hub s)).
Proof.
  induction acts as [|[vals|] acts IH]; intros hub s.
  - split; constructor.
  - cbn [polls]. apply IH.
  - cbn [polls]. unfold poll.
    destruct (remote_write_id s <? write_id hub) eqn:Hlt.
    + apply Z.ltb_lt in Hlt.
      destruct (IH hub (set_fetched (write_id hub) (payload hub) s))
        as [Habove Hsorted].
      cbn [remote_write_id set_fetched] in Habove.
      unfold acted_on. rewrite filter_cons_True by done.
      cbn [fmap list_fmap snd]. split.
      * constructor; [done|].
        eapply Forall_impl; [exact Habove|]. intros c Hc. cbn in Hc. lia.
      * constructor; [done|].
        eapply Forall_impl; [exact Habove|]. intros c Hc. exact Hc.
    + unfold acted_on. rewrite filter_cons_False by done. apply IH.
Qed.

(** Rounds of one publish and at least one poll each: the first poll of a
    round signals new data, the others do not. *)
Lemma polls_rounds (rounds : list (list Q * nat)) :
  Forall (λ r, (1 ≤ r.2)%nat) rounds →
  ∀ (hub : Window Q) (s : Spoke),
    remote_write_id s ≤ write_id hub →
    fst <$> polls (concat (round <$> rounds)) hub s
    = concat ((λ r, true :: replicate (r.2 - 1) false) <$> rounds).
Proof.
  induction 1 as [|[vals n] rounds Hn _ IH]; intros hub s Hle; [done|].
  cbn [snd] in Hn. destruct n as [|n]; [lia|].
  cbn [fmap list_fmap concat round fst snd replicate app polls].
  rewrite poll_fresh by (cbn; lia).
  rewrite polls_stale by (cbn; lia).
  replace (S n - 1)%nat with n by lia.
  cbn [fmap list_fmap fst app]. f_equal.
  rewrite fmap_app, fmap_replicate. cbn [fst]. f_equal.
  apply IH. cbn. lia.
Qed.

Lemma acted_on_stale (n : nat) (c : Z) (ps : list (bool * Z)) :
  acted_on (replicate n (false, c) ++ ps) = acted_on ps.
Proof.
  induction n as [|n IH]; [done|].
  cbn [replicate app]. unfold acted_on in *.
  by rewrite filter_cons_False by done.
Qed.

(** In such rounds the counters acted on are exactly the published ones,
    each once. *)
Lemma acted_on_rounds (rounds : list (list Q * nat)) :
  Forall (λ r, (1 ≤ r.2)%nat) rounds →
  ∀ (hub : Window Q) (s : Spoke),
    remote_write_id s ≤ write_id hub →
    acted_on (polls (concat (round <$> rounds)) hub s)
    = (λ k, write_id hub + Z.of_nat k) <$> seq 1 (length rounds).
Proof.
  induction 1 as [|[vals n] rounds Hn _ IH]; intros hub s Hle; [done|].
  cbn [snd] in Hn. destruct n as [|n]; [lia|].
  cbn [fmap list_fmap concat round fst snd replicate app polls length seq].
  rewrite poll_fresh by (cbn; lia).
  rewrite polls_stale by (cbn; lia).
  unfold acted_on at 1. rewrite filter_cons_True by done.
  cbn [fmap list_fmap snd write_id publish]. f_equal.
  fold (acted_on (replicate n (false, write_id hub + 1) ++
                  polls (concat (round <$> rounds)) (publish vals hub)
                    (set_fetched (write_id hub + 1)
                       (payload (publish vals hub)) s))).
  rewrite acted_on_stale, IH by (cbn; lia).
  cbn [write_id publish].
  rewrite <- (fmap_S_seq 1), <- list_fmap_compose.
  apply list_fmap_ext. intros i k _. cbn. lia.
Qed.

(** However publishes and polls interleave, new data is signalled at most
    once per publish (plus once per counter step the reader was behind at
    the start). *)
Lemma acted_on_at_most_publishes (acts : list action) :
  ∀ (hub : Window Q) (s : Spoke),
    remote_write_id s ≤ write_id hub →
    (length (acted_on (polls acts hub s))
     ≤ publish_count acts + Z.to_nat (write_id hub - remote_write_id s))%nat.
Proof.
  induction acts as [|[vals|] acts IH]; intros hub s Hle.
  - cbn. lia.
  - cbn [polls publish_count].
    specialize (IH (publish vals hub) s). cbn [write_id publish] in IH. lia.
  - cbn [polls publish_count]. unfold poll.
    destruct (remote_write_id s <? write_id hub) eqn:Hlt.
    + apply Z.ltb_lt in Hlt. unfold acted_on.
      rewrite filter_cons_True by done. cbn [fmap list_fmap length].
      specialize (IH hub (set_fetched (write_id hub) (payload hub) s)).
      cbn [remote_write_id set_fetched] in IH. unfold acted_on in IH. lia.
    + unfold acted_on. rewrite filter_cons_False by done.
      by apply IH.
Qed.

Lemma increasing_NoDup (l : list Z) : StronglySorted Z.lt l → NoDup l.
Proof.
  induction 1 as [|c l _ IH Hall]; constructor; [|done].
  intros Hin. rewrite Forall_forall in Hall. specialize (Hall c Hin). lia.
Qed.

(** C1: the reader signals new data exactly when the fetched counter is
    strictly above its last-seen one.  When every publish is followed by at
    least one poll, the first poll after a publish signals new data and the
    further ones do not, so the detection fires exactly once per publish, on
    the counter that publish produced.  However publishes and polls
    interleave, the counters acted on come strictly increasing (never the
    same counter twice), and a reader that starts caught up signals new
    data at most once per publish. *)
Theorem new_data_once_per_publish (hub : Window Q) (s : Spoke)
    (rounds : list (list Q * nat)) :
  remote_write_id s ≤ write_id hub →
  Forall (λ r, (1 ≤ r.2)%nat) rounds →
  (∀ w : Window Q, (poll w s).1 = true ↔ remote_write_id s < write_id w)
  ∧ fst <$> polls (concat (round <$> rounds)) hub s
    = concat ((λ r, true :: replicate (r.2 - 1) false) <$> rounds)
  ∧ acted_on (polls (concat (round <$> rounds)) hub s)
    = (λ k, write_id hub + Z.of_nat k) <$> seq 1 (length rounds)
  ∧ ∀ acts : list action,
      StronglySorted Z.lt (acted_on (polls acts hub s))
      ∧ NoDup (acted_on (polls acts hub s))
      ∧ (remote_write_id s = write_id hub →
         (length (acted_on (polls acts hub s)) ≤ publish_count acts)%nat).
Proof.
  intros Hle Hrounds. split; [|split; [|split]].
  - intros w. unfold poll.
    destruct (remote_write_id s <? write_id w) eqn:Hlt; cbn [fst].
    + apply Z.ltb_lt in Hlt. done.
    + apply Z.ltb_ge in Hlt. split; [discriminate|lia].
  - by apply polls_rounds.
  - by apply acted_on_rounds.
  - intros acts. destruct (acted_on_increasing acts hub s) as [_ Hsorted].
    split; [done|]. split; [by apply increasing_NoDup|].
    intros Heq. pose proof (acted_on_at_most_publishes acts hub s Hle). lia.
Qed.

Lemma new_data_once_per_publish_witness :
  fst <$> polls [HubPublish [1 # 1]; SpokePoll;
                 HubPublish [2 # 1]; SpokePoll; SpokePoll; SpokePoll]
                (mkWindow [] 0) sample_spoke
  = [true; true; false; false]
  ∧ acted_on (polls [HubPublish [1 # 1]; SpokePoll;
                     HubPublish [2 # 1]; SpokePoll; SpokePoll; SpokePoll]
                    (mkWindow [] 0) sample_spoke)
    = [1; 2].
Proof.
  destruct (new_data_once_per_publish (mkWindow [] 0) sample_spoke
              [([1 # 1], 1%nat); ([2 # 1], 3%nat)])
    as (_ & Hfirst & Hacted & _).
  - cbn. lia.
  - repeat constructor; cbn; lia.
  - split; [exact Hfirst|exact Hacted].
Defined.

(** Two publishes in a row, then two polls: the reader signals new data
    once, on the second counter; the first publish is never signalled.  So
    the detection does not fire once per publish on every sequence. *)
Lemma missed_publish :
  ¬ (length (acted_on (polls [HubPublish [1 # 1]; HubPublish [2 # 1];
                              SpokePoll; SpokePoll]
                             (mkWindow [] 0) sample_spoke))
     = publish_count [HubPublish [1 # 1]; HubPublish [2 # 1];
                      SpokePoll; SpokePoll])
  ∧ 1 ∉ acted_on (polls [HubPublish [1 # 1]; HubPublish [2 # 1];
                         SpokePoll; SpokePoll]
                        (mkWindow [] 0) sample_spoke).
Proof.
  split.
  - vm_compute. discriminate.
  - assert (acted_on (polls [HubPublish [1 # 1]; HubPublish [2 # 1];
                             SpokePoll; SpokePoll]
                            (mkWindow [] 0) sample_spoke) = [2]) as ->
      by (vm_compute; reflexivity).
    intros Hin. apply list_elem_of_singleton in Hin. discriminate.
Qed.

(** ** The tracked best *)

Lemma dlt_irrefl (a : double) : dlt a a = false.
Proof.
  destruct a as [| |q|]; try done. cbn.
  apply negb_false_iff, Qle_bool_iff, Qle_refl.
Qed.

Lemma dlt_trans (a b c : double) :
  dlt a b = true → dlt b c = true → dlt a c = true.
Proof.
  destruct a as [| |x|], b as [| |y|], c as [| |z|]; try done. cbn.
  rewrite !negb_true_iff. intros Hxy Hyz.
  apply not_true_iff_false. apply not_true_iff_false in Hxy, Hyz.
  rewrite Qle_bool_iff in *. intros Hzx.
  apply Qnot_le_lt in Hxy, Hyz. apply (Qlt_irrefl x).
  eapply Qlt_le_trans; [|exact Hzx]. by eapply Qlt_trans.
Qed.

Lemma dle_refl (a : double) : dle a a.
Proof. by left. Qed.

Lemma dle_trans (a b c : double) : dle a b → dle b c → dle a c.
Proof.
  intros [->|Hab] [->|Hbc]; [by left|by right|by right|].
  right. by eapply dlt_trans.
Qed.

(** Values equal as numbers never improve on one another. *)
Lemma dlt_tie (x y : Q) : (x == y)%Q → dlt (Finite x) (Finite y) = false.
Proof.
  intros Heq. cbn. apply negb_false_iff, Qle_bool_iff.
  rewrite Heq. apply Qle_refl.
Qed.

(** One call: the tracked best moves only in the spoke's direction. *)
Lemma update_if_improving_step (v : double) (s : Spoke) :
  sense (update_if_improving_state v s).2 = sense s
  ∧ match sense s with
    | Minimize => dle (best_inner_bound (update_if_improving_state v s).2)
                      (best_inner_bound s)
    | Maximize => dle (best_inner_bound s)
                      (best_inner_bound (update_if_improving_state v s).2)
    end.
Proof.
  unfold update_if_improving_state, improving.
  destruct (sense s) eqn:Hs.
  - destruct (dlt v (best_inner_bound s)) eqn:Hlt; cbn; rewrite ?Hs.
    + split; [done|by right].
    + split; [done|by left].
  - destruct (dlt (best_inner_bound s) v) eqn:Hlt; cbn; rewrite ?Hs.
    + split; [done|by right].
    + split; [done|by left].
Qed.

Lemma report_all_app (vs ws : list double) (s : Spoke) :
  report_all (vs ++ ws) s = report_all ws (report_all vs s).
Proof. apply foldl_app. Qed.

(** Any number of calls. *)
Lemma report_all_monotone (ws : list double) :
  ∀ s : Spoke,
    sense (report_all ws s) = sense s
    ∧ match sense s with
      | Minimize => dle (best_inner_bound (report_all ws s))
                        (best_inner_bound s)
      | Maximize => dle (best_inner_bound s)
                        (best_inner_bound (report_all ws s))
      end.
Proof.
  induction ws as [|w ws IH]; intros s.
  - split; [done|]. destruct (sense s); apply dle_refl.
  - cbn [report_all foldl].
    fold (report_all ws (update_if_improving_state w s).2).
    destruct (IH (update_if_improving_state w s).2) as [Hs Hb].
    destruct (update_if_improving_step w s) as [Hs1 Hb1].
    rewrite Hs1 in Hs, Hb. split; [done|].
    destruct (sense s); eapply dle_trans; eauto.
Qed.

(** C2: the tracked best is a ratchet.  A call that does not strictly
    improve on it, a tie included, changes nothing and publishes nothing; a
    call that does replaces it and publishes it with the counter raised by
    one.  Over any run of calls the tracked best of a minimizing spoke never
    goes up and that of a maximizing spoke never goes down.  A minimizing
    spoke starts from +infinity; reporting 10, 12, 8 from there leaves the
    best at 10, 10, 8. *)
Theorem tracked_best_ratchet (s : Spoke) :
  (∀ v, improving (sense s) v (best_inner_bound s) = false →
     update_if_improving_state v s = (false, s))
  ∧ update_if_improving_state (best_inner_bound s) s = (false, s)
  ∧ (∀ x y, best_inner_bound s = Finite x → (x == y)%Q →
       update_if_improving_state (Finite y) s = (false, s))
  ∧ (∀ v, improving (sense s) v (best_inner_bound s) = true →
       ∃ s', update_if_improving_state v s = (true, s')
         ∧ best_inner_bound s' = v
         ∧ payload (bound_window s') = [v]
         ∧ write_id (bound_window s') = write_id (bound_window s) + 1)
  ∧ (sense s = Minimize → ∀ vs ws,
       dle (best_inner_bound (report_all (vs ++ ws) s))
           (best_inner_bound (report_all vs s)))
  ∧ (sense s = Maximize → ∀ vs ws,
       dle (best_inner_bound (report_all vs s))
           (best_inner_bound (report_all (vs ++ ws) s)))
  ∧ (∀ o, best_inner_bound (new_spoke o Minimize) = PosInf)
  ∧ (∀ o, best_inner_bound
            <$> [ report_all [Finite (10 # 1)] (new_spoke o Minimize);
                  report_all [Finite (10 # 1); Finite (12 # 1)]
                             (new_spoke o Minimize);
                  report_all [Finite (10 # 1); Finite (12 # 1); Finite (8 # 1)]
                             (new_spoke o Minimize) ]
          = [Finite (10 # 1); Finite (10 # 1); Finite (8 # 1)]).
Proof.
  repeat split.
  - intros v Hv. unfold update_if_improving_state. by rewrite Hv.
  - unfold update_if_improving_state, improving.
    destruct (sense s); by rewrite dlt_irrefl.
  - intros x y Hb Heq. unfold update_if_improving_state, improving.
    rewrite Hb. destruct (sense s).
    + by rewrite dlt_tie by (by symmetry).
    + by rewrite dlt_tie.
  - intros v Hv. unfold update_if_improving_state. rewrite Hv.
    eexists. by repeat split.
  - intros Hs vs ws. rewrite report_all_app.
    destruct (report_all_monotone vs s) as [Hs1 _].
    destruct (report_all_monotone ws (report_all vs s)) as [_ Hb].
    by rewrite Hs1, Hs in Hb.
  - intros Hs vs ws. rewrite report_all_app.
    destruct (report_all_monotone vs s) as [Hs1 _].
    destruct (report_all_monotone ws (report_all vs s)) as [_ Hb].
    by rewrite Hs1, Hs in Hb.
Qed.

(** ** The loop and the kill signal *)

Section Loop.

Variable body : PassEnv → M unit.

(** The body of the new-data branch checks no kill signal itself. *)
Hypothesis body_quiet :
  ∀ env r, ∃ extra,
    trace (body env r).2 = trace r ++ extra ∧ kill_checks extra = [].

(** One pass, spelled out. *)
Lemma spoke_loop_cons (env : PassEnv) (envs : list PassEnv) (iter : Z)
    (r : Rank) :
  spoke_loop body (env :: envs) iter r
  = let r0 := mkRank (self r) (trace r ++ [GotKillSignal (hub_kill env)]) in
    if hub_kill env then (Ok (LoopExited iter), r0)
    else
      let r1 := mkRank (poll (hub_window env) (self r)).2
                       (trace r0 ++
                        [NewNonants (poll (hub_window env) (self r)).1]) in
      match (if (poll (hub_window env) (self r)).1
             then body env r1 else (Ok tt, r1)) with
      | (Ok _, r2) => spoke_loop body envs (iter + 1) r2
      | (Raise e, r2) => (Raise e, r2)
      end.
Proof.
  cbn [spoke_loop]. unfold got_kill_signal, update_nonants. unfold_M.
  cbn [self trace]. destruct (hub_kill env); [done|].
  cbn [self trace].
  destruct (poll (hub_window env) (self r)) as [new s'].
  cbn [fst snd self trace].
  destruct new; [|done].
  by destruct (body env _) as [[[]|e] r2].
Qed.

(** A stretch of passes without kill signal, then more passes. *)
Lemma spoke_loop_app (pre rest : list PassEnv) :
  Forall (λ e, hub_kill e = false) pre →
  ∀ (iter : Z) (r : Rank),
    spoke_loop body (pre ++ rest) iter r
    = match spoke_loop body pre iter r with
      | (Ok (StillLooping n), r1) => spoke_loop body rest n r1
      | other => other
      end.
Proof using Type.
  induction 1 as [|env pre Hk _ IH]; intros iter r; [done|].
  cbn [app]. rewrite !spoke_loop_cons. cbv zeta. rewrite Hk.
  destruct (if (poll (hub_window env) (self r)).1 then _ else _)
    as [[[]|e] r2]; [|done].
  apply IH.
Qed.

(** The loop is left only on a kill signal, at the first pass that sees it. *)
Lemma spoke_loop_exit (envs : list PassEnv) :
  ∀ (iter : Z) (r : Rank) (n : Z),
    (spoke_loop body envs iter r).1 = Ok (LoopExited n) →
    ∃ pre e post,
      envs = pre ++ e :: post
      ∧ Forall (λ e, hub_kill e = false) pre
      ∧ hub_kill e = true
      ∧ n = iter + Z.of_nat (length pre).
Proof using Type.
  induction envs as [|env envs IH]; intros iter r n Hexit; [done|].
  rewrite spoke_loop_cons in Hexit. cbv zeta in Hexit.
  destruct (hub_kill env) eqn:Hk.
  - cbn in Hexit. injection Hexit as <-.
    exists [], env, envs. repeat split; [constructor|done|cbn; lia].
  - destruct (if (poll (hub_window env) (self r)).1 then _ else _)
      as [[[]|e] r2]; [|done].
    apply IH in Hexit as (pre & e & post & -> & Hpre & He & ->).
    exists (env :: pre), e, post.
    repeat split; [by constructor|done|cbn [length]; lia].
Qed.

(** Every pass that is begun evaluates the kill signal, once, first. *)
Lemma spoke_loop_checks (envs : list PassEnv) :
  ∀ (iter : Z) (r : Rank),
    ∃ k : nat,
      (k ≤ length envs)%nat
      ∧ kill_checks (trace (spoke_loop body envs iter r).2)
        = kill_checks (trace r) ++ (hub_kill <$> take k envs)
      ∧ ∀ n, (spoke_loop body envs iter r).1 = Ok (StillLooping n) →
          k = length envs ∧ n = iter + Z.of_nat (length envs)
          ∧ Forall (λ e, hub_kill e = false) envs.
Proof using body_quiet.
  induction envs as [|env envs IH]; intros iter r.
  - exists 0%nat. split; [done|]. split; [cbn; by rewrite app_nil_r|].
    intros n [= <-]. repeat split; [cbn; lia|constructor].
  - rewrite spoke_loop_cons. cbv zeta.
    destruct (hub_kill env) eqn:Hk.
    + exists 1%nat. cbn [length take fmap list_fmap fst snd trace].
      rewrite kill_checks_app, Hk. split; [lia|]. split; [done|].
      intros n [=].
    + set (r1 := mkRank (poll (hub_window env) (self r)).2 _).
      assert (∃ extra, ∀ res r2,
                (if (poll (hub_window env) (self r)).1
                 then body env r1 else (Ok tt, r1)) = (res, r2) →
                trace r2 = trace r1 ++ extra ∧ kill_checks extra = [])
        as (extra & Hextra).
      { destruct (poll (hub_window env) (self r)).1.
        - destruct (body_quiet env r1) as (extra & Ht & Hq).
          exists extra. intros res r2 Heq. by rewrite Heq in Ht.
        - exists []. intros res r2 [= _ <-]. by rewrite app_nil_r. }
      destruct (if (poll (hub_window env) (self r)).1 then _ else _)
        as [res r2] eqn:Hpass.
      destruct (Hextra res r2 eq_refl) as [Ht2 Hq].
      assert (kill_checks (trace r2) = kill_checks (trace r) ++ [false])
        as Hchecks.
      { rewrite Ht2. subst r1. cbn [trace].
        rewrite !kill_checks_app, Hq. cbn. by rewrite !app_nil_r. }
      destruct res as [[]|e].
      * destruct (IH (iter + 1) r2) as (k & Hle & Hkc & Hstill).
        exists (S k). cbn [length take fmap list_fmap].
        rewrite Hkc, Hchecks, Hk, <- app_assoc.
        split; [lia|]. split; [done|].
        intros n Hn. destruct (Hstill n Hn) as (-> & -> & Hall).
        repeat split; [lia|by constructor].
      * exists 1%nat. cbn [length take fmap list_fmap fst snd].
        rewrite Hchecks, Hk. split; [lia|]. split; [done|].
        intros n [=].
Qed.

End Loop.

Lemma slam_loop_shape `{SlamHeuristic} (envs : list PassEnv) :
  ∀ (iter : Z) (r : Rank),
    slam_loop envs iter r = spoke_loop slam_body envs iter r.
Proof.
  induction envs as [|env envs IH]; intros iter r; [done|].
  cbn [slam_loop spoke_loop]. unfold mbind, M_bind.
  destruct (got_kill_signal env r) as [[[]|e] r0]; try done.
  destruct (update_nonants env r0) as [[new|e] r1]; [|done].
  destruct (if new then slam_body env else mret ()) as [[[]|e] r2]; [|done].
  apply IH.
Qed.

Lemma xhat_loop_shape (scen_limit : pyval) (envs : list PassEnv) :
  ∀ (iter : Z) (r : Rank),
    xhat_loop scen_limit envs iter r
    = spoke_loop (xhat_body scen_limit) envs iter r.
Proof.
  induction envs as [|env envs IH]; intros iter r; [done|].
  cbn [xhat_loop spoke_loop]. unfold mbind, M_bind.
  destruct (got_kill_signal env r) as [[[]|e] r0]; try done.
  destruct (update_nonants env r0) as [[new|e] r1]; [|done].
  destruct (if new then xhat_body scen_limit env else mret ())
    as [[[]|e] r2]; [|done].
  apply IH.
Qed.

Lemma slam_body_quiet `{SlamHeuristic} (env : PassEnv) (r : Rank) :
  ∃ extra,
    trace (slam_body env r).2 = trace r ++ extra ∧ kill_checks extra = [].
Proof.
  unfold slam_body, update_if_improving. unfold_M. cbn [self trace].
  destruct (extract_local_candidate_soln (self r)) as [lc|e].
  2:{ exists []. by rewrite app_nil_r. }
  destruct (Allreduce _ _) as [gc|e].
  2:{ exists []. by rewrite app_nil_r. }
  cbn [self trace].
  destruct (fix_scenarios _ _ _) as [[[]|e] ss].
  2:{ exists [Allreduced gc]. done. }
  cbn [self trace].
  destruct (evaluation env) as [obj|e].
  2:{ exists [Allreduced gc; OptCall "calculate_incumbent"].
      cbn [snd trace]. by rewrite <- !app_assoc. }
  cbn [self trace].
  destruct (update_if_improving_state _ _) as [published s'].
  cbn [self trace snd]. eexists. split; [by rewrite <- !app_assoc|done].
Qed.

Lemma xhat_body_quiet (scen_limit : pyval) (env : PassEnv) (r : Rank) :
  ∃ extra,
    trace (xhat_body scen_limit env r).2 = trace r ++ extra
    ∧ kill_checks extra = [].
Proof.
  unfold xhat_body, update_if_improving. unfold_M. cbn [self trace].
  destruct (evaluation env) as [obj|e].
  2:{ eexists. cbn [snd trace]. split; [by rewrite <- !app_assoc|done]. }
  cbn [self trace].
  destruct (update_if_improving_state _ _) as [published s'].
  cbn [self trace snd]. eexists. split; [by rewrite <- !app_assoc|done].
Qed.

(** C3: in both spokes' loops every pass begins by evaluating
    [got_kill_signal()], once; the loop is left only because that
    evaluation returned true, at the first pass where it does; and from
    that evaluation on nothing more happens: the spoke is as the passes
    before left it, nothing further is reported or published, and whatever
    the hub shows afterwards is never looked at. *)
Theorem kill_signal_ends_loop (loop : list PassEnv → Z → M ending) :
  (∃ H : SlamHeuristic, loop = slam_loop (H := H))
  ∨ (∃ scen_limit, loop = xhat_loop scen_limit) →
  (∀ envs iter r, ∃ k : nat,
     (k ≤ length envs)%nat
     ∧ kill_checks (trace (loop envs iter r).2)
       = kill_checks (trace r) ++ (hub_kill <$> take k envs)
     ∧ ∀ n, (loop envs iter r).1 = Ok (StillLooping n) →
         k = length envs ∧ n = iter + Z.of_nat (length envs)
         ∧ Forall (λ e, hub_kill e = false) envs)
  ∧ (∀ envs iter r n,
       (loop envs iter r).1 = Ok (LoopExited n) →
       ∃ pre e post,
         envs = pre ++ e :: post
         ∧ Forall (λ e, hub_kill e = false) pre
         ∧ hub_kill e = true
         ∧ n = iter + Z.of_nat (length pre))
  ∧ (∀ pre e post iter r,
       Forall (λ e, hub_kill e = false) pre → hub_kill e = true →
       loop (pre ++ e :: post) iter r
       = match loop pre iter r with
         | (Ok (StillLooping n), r1) =>
             (Ok (LoopExited n),
              mkRank (self r1) (trace r1 ++ [GotKillSignal true]))
         | other => other
         end)
  ∧ (∀ pre e post iter r,
       Forall (λ e, hub_kill e = false) pre → hub_kill e = true →
       self (loop (pre ++ e :: post) iter r).2 = self (loop pre iter r).2
       ∧ reported (trace (loop (pre ++ e :: post) iter r).2)
         = reported (trace (loop pre iter r).2)).
Proof.
  intros Hloop.
  assert (∃ body,
            (∀ envs iter r, loop envs iter r = spoke_loop body envs iter r)
            ∧ ∀ env r, ∃ extra,
                trace (body env r).2 = trace r ++ extra
                ∧ kill_checks extra = []) as (body & Hshape & Hquiet).
  { destruct Hloop as [[H ->]|[scen_limit ->]].
    - exists slam_body. split; [apply slam_loop_shape|apply slam_body_quiet].
    - exists (xhat_body scen_limit).
      split; [apply xhat_loop_shape|apply xhat_body_quiet]. }
  assert (∀ pre e post iter r,
       Forall (λ e, hub_kill e = false) pre → hub_kill e = true →
       loop (pre ++ e :: post) iter r
       = match loop pre iter r with
         | (Ok (StillLooping n), r1) =>
             (Ok (LoopExited n),
              mkRank (self r1) (trace r1 ++ [GotKillSignal true]))
         | other => other
         end) as Hkill.
  { intros pre e post iter r Hpre He.
    rewrite !Hshape, spoke_loop_app by done.
    destruct (spoke_loop body pre iter r) as [[[n|n]|x] r1]; try done.
    rewrite spoke_loop_cons. cbv zeta. by rewrite He. }
  split; [|split; [|split]].
  - intros envs iter r. rewrite Hshape. by apply spoke_loop_checks.
  - intros envs iter r n. rewrite Hshape. apply spoke_loop_exit.
  - exact Hkill.
  - intros pre e post iter r Hpre He. rewrite (Hkill pre e post) by done.
    destruct (loop pre iter r) as [[[n|n]|x] r1]; try done.
    cbn [snd self trace]. split; [done|].
    rewrite reported_app. cbn. by rewrite app_nil_r.
Qed.

Lemma kill_signal_ends_loop_witness :
  slam_loop (H := SlamMaxHeuristic) (sample_passes ++ sample_passes) 1
            (mkRank sample_spoke [])
  = match slam_loop (H := SlamMaxHeuristic) (take 1 sample_passes) 1
                    (mkRank sample_spoke []) with
    | (Ok (StillLooping n), r1) =>
        (Ok (LoopExited n),
         mkRank (self r1) (trace r1 ++ [GotKillSignal true]))
    | other => other
    end.
Proof.
  destruct (kill_signal_ends_loop (slam_loop (H := SlamMaxHeuristic)))
    as (_ & _ & Hkill & _).
  - left. by exists SlamMaxHeuristic.
  - apply (Hkill (take 1 sample_passes)
                 (sample_pass true 1
                    [23 # 10; 7 # 1; 5 # 2; 19 # 10; 8 # 1; 3 # 1]
                    (Finite (10 # 1)))
                 sample_passes 1 (mkRank sample_spoke [])).
    + repeat constructor.
    + reflexivity.
Defined.

Example slam_main_sample_trace :
  trace (run (slam_main (H := SlamMaxHeuristic) 0 sample_passes)
             sample_spoke).2
  = [ OptCall "_update_E1"; OptCall "_lazy_create_solvers";
      GotKillSignal false; NewNonants true;
      Allreduced [23 # 10; 8 # 1; 3 # 1];
      OptCall "calculate_incumbent";
      UpdateIfImproving (Finite (10 # 1)) true;
      GotKillSignal true ].
Proof. vm_compute. reflexivity. Qed.

Lemma slam_preconditions_fatal_witness :
  run (slam_main (H := SlamMinHeuristic) 0 sample_passes)
      (new_spoke (mkOpt true true sample_options [] 0 0 0 None None) Minimize)
  = (Raise (RuntimeError
       "The SlamMinHeuristic only supports two-stage models at this time."),
     mkRank (new_spoke (mkOpt true true sample_options [] 0 0 0 None None)
                       Minimize) [])
  ∧ ∃ r', run (slam_heur_prep (H := SlamMinHeuristic) 0) sample_spoke
          = (Ok tt, r')
      ∧ kill_checks (trace r') = [].
Proof.
  split.
  - apply (slam_preconditions_fatal (H := SlamMinHeuristic) 0 sample_passes
             (new_spoke (mkOpt true true sample_options [] 0 0 0 None None)
                        Minimize)).
    reflexivity.
  - destruct (slam_preconditions_fatal (H := SlamMinHeuristic) 0 sample_passes
                sample_spoke) as (_ & _ & Hok).
    destruct Hok as [_ Hok]; [reflexivity|reflexivity|].
    destruct (Hok (PyBool false)) as (r' & Hrun & Hk & _); [reflexivity|].
    by exists r'.
Defined.

Lemma tracked_best_ratchet_witness :
  update_if_improving_state (Finite (12 # 1))
    (report_all [Finite (10 # 1)] sample_spoke)
  = (false, report_all [Finite (10 # 1)] sample_spoke)
  ∧ dle (best_inner_bound
           (report_all ([Finite (10 # 1); Finite (12 # 1)] ++ [Finite (8 # 1)])
                       sample_spoke))
        (best_inner_bound
           (report_all [Finite (10 # 1); Finite (12 # 1)] sample_spoke)).
Proof.
  split.
  - destruct (tracked_best_ratchet
                (report_all [Finite (10 # 1)] sample_spoke)) as [Hno _].
    apply Hno. reflexivity.
  - destruct (tracked_best_ratchet sample_spoke)
      as (_ & _ & _ & _ & Hmin & _).
    apply Hmin. reflexivity.
Defined.

(** A replica left without any scenario cannot take part: the division by
    its scenario count fails. *)
Example extract_without_scenarios :
  extract_local_candidate_soln (H := SlamMaxHeuristic) (holder [])
  = Raise ZeroDivisionError.
Proof. reflexivity. Qed.

Example xhat_main_sample_trace :
  run (xhat_main (0 # 1) sample_passes) sample_spoke
  = (Ok (LoopExited 2),
     mkRank
       (set_bound (Finite (10 # 1)) (mkWindow [Finite (10 # 1)] 1)
          (set_fetched 1 [23 # 10; 7 # 1; 5 # 2; 19 # 10; 8 # 1; 3 # 1]
             (set_opt
                (set_nonant_cache [[None; None; None]; [None; None; None]]
                   (set_E1 ((1 # 2) + ((1 # 2) + (0 # 1)))
                      (set_original_nonants
                         [[None; None; None]; [None; None; None]]
                         sample_opt)))
                sample_spoke)))
       [ OptCall "XhatLooper"; OptCall "pre_iter0";
         OptCall "_save_original_nonants"; OptCall "_lazy_create_solvers";
         OptCall "_update_E1"; OptCall "post_iter0"; OptCall "_save_nonants";
         GotKillSignal false; NewNonants true;
         OptCall "_put_nonant_cache"; OptCall "_restore_nonants";
         OptCallWith "xhat_looper" (PyInt 3);
         UpdateIfImproving (Finite (10 # 1)) true;
         GotKillSignal true ]).
Proof. reflexivity. Qed.

(** * Further properties of the code *)

(** ** Allocation outside its range *)

(** X1: [communicator_array] below its range.  Size -1 fails on the write
    of the counter into an empty array (IndexError) and anything below fails
    in [np.empty] (ValueError); so whenever the call returns an array, the
    size was not negative and the array is [size] NaN entries followed by the
    counter 0.  [_make_window] fails the same way at length -1: there is no
    slot for the counter. *)
Theorem communicator_array_cases (garbage : nat → double) (size : Z) :
  (size = -1 → communicator_array garbage size = Raise IndexError)
  ∧ (size < -1 → communicator_array garbage size = Raise ValueError)
  ∧ (∀ arr, communicator_array garbage size = Ok arr →
       0 ≤ size ∧ arr = replicate (Z.to_nat size) NaN ++ [Finite 0])
  ∧ ∀ DOUBLE_size strata_comm comm,
      _make_window DOUBLE_size garbage strata_comm (-1) comm
      = Raise IndexError.
Proof.
  split; [|split; [|split]].
  - intros ->. reflexivity.
  - intros Hlt. unfold communicator_array, Np.empty.
    by rewrite (proj2 (Z.ltb_lt (size + 1) 0)) by lia.
  - intros arr Hrun. destruct (Z.lt_ge_cases size (-1)) as [Hlt|Hge].
    + unfold communicator_array, Np.empty in Hrun.
      by rewrite (proj2 (Z.ltb_lt (size + 1) 0)) in Hrun by lia.
    + destruct (decide (size = -1)) as [->|Hne]; [done|].
      split; [lia|].
      unfold communicator_array, Np.empty in Hrun.
      rewrite (proj2 (Z.ltb_ge (size + 1) 0)) in Hrun by lia.
      cbn [mbind result_bind] in Hrun.
      replace (Z.to_nat (size + 1)) with (S (Z.to_nat size)) in Hrun by lia.
      rewrite fresh_buffer in Hrun. congruence.
  - intros DOUBLE_size strata_comm comm. unfold _make_window, Win_Allocate.
    replace (DOUBLE_size * (-1 + 1)) with 0 by lia. reflexivity.
Qed.

Lemma communicator_array_cases_witness :
  communicator_array (λ _, Finite 7) (-1) = Raise IndexError
  ∧ communicator_array (λ _, Finite 7) (-2) = Raise ValueError
  ∧ (0 ≤ 2 ∧ [NaN; NaN; Finite 0] = replicate (Z.to_nat 2) NaN ++ [Finite 0]).
Proof.
  destruct (communicator_array_cases (λ _, Finite 7) (-1)) as (H1 & _).
  destruct (communicator_array_cases (λ _, Finite 7) (-2)) as (_ & H2 & _).
  destruct (communicator_array_cases (λ _, Finite 7) 2) as (_ & _ & H3 & _).
  split; [exact (H1 eq_refl)|]. split; [apply H2; lia|].
  exact (H3 [NaN; NaN; Finite 0] eq_refl).
Defined.

(** ** The communicator object *)

(** What the freeing loop does to handles that are all still live. *)
Lemma free_loop_live (count : nat) :
  ∀ (i : nat) (ws : list SPComm.Handle),
    (i + count ≤ length ws)%nat →
    (∀ k h, (i ≤ k < i + count)%nat → ws !! k = Some h →
            SPComm.handle_freed h = false) →
    ∃ ws', SPComm.free_loop count i ws = (Ok tt, ws')
      ∧ length ws' = length ws
      ∧ ∀ k h, ws !! k = Some h →
          ws' !! k = Some (if bool_decide (i ≤ k < i + count)%nat
                           then SPComm.mkHandle (SPComm.handle_win h) true
                           else h).
Proof.
  induction count as [|count IH]; intros i ws Hlen Hlive.
  - exists ws. split; [done|]. split; [done|]. intros k h Hk.
    rewrite bool_decide_eq_false_2 by lia. done.
  - cbn [SPComm.free_loop].
    destruct (lookup_lt_is_Some_2 ws i) as [h0 Hh0]; [lia|].
    rewrite Hh0. unfold SPComm.Free.
    rewrite (Hlive i h0) by (lia || done).
    destruct (IH (S i) (<[i := SPComm.mkHandle (SPComm.handle_win h0) true]> ws))
      as (ws' & Hrun & Hlen' & Hat).
    { rewrite length_insert. lia. }
    { intros k h Hk Hh. rewrite list_lookup_insert_ne in Hh by lia.
      apply (Hlive k h); [lia|done]. }
    exists ws'. split; [done|]. rewrite length_insert in Hlen'.
    split; [done|]. intros k h Hk.
    destruct (decide (k = i)) as [->|Hne].
    + rewrite (Hat i (SPComm.mkHandle (SPComm.handle_win h0) true)).
      2:{ apply list_lookup_insert_eq. lia. }
      rewrite bool_decide_eq_false_2 by lia.
      rewrite bool_decide_eq_true_2 by lia. congruence.
    + rewrite (Hat k h) by (by rewrite list_lookup_insert_ne).
      destruct (decide (S i ≤ k < S i + count)%nat) as [Hin|Hout].
      * by rewrite !bool_decide_eq_true_2 by lia.
      * by rewrite !bool_decide_eq_false_2 by lia.
Qed.

(** The loop run past the end of the handles: everything is freed, then the
    subscript fails. *)
Lemma free_loop_short (ws0 : list SPComm.Handle) :
  ∀ (count i : nat) (ws : list SPComm.Handle),
    (length ws < i + count)%nat → (i ≤ length ws)%nat →
    length ws = length ws0 →
    (∀ k h, ws0 !! k = Some h →
       ws !! k = Some (if bool_decide (k < i)%nat
                       then SPComm.mkHandle (SPComm.handle_win h) true
                       else h)) →
    (∀ k h, ws0 !! k = Some h → SPComm.handle_freed h = false) →
    ∃ ws', SPComm.free_loop count i ws = (Raise IndexError, ws')
      ∧ length ws' = length ws0
      ∧ ∀ k h, ws0 !! k = Some h →
          ws' !! k = Some (SPComm.mkHandle (SPComm.handle_win h) true).
Proof.
  induction count as [|count IH]; intros i ws Hshort Hi Hlen Hat Hlive; [lia|].
  cbn [SPComm.free_loop].
  destruct (ws !! i) as [h|] eqn:Hh.
  - pose proof (lookup_lt_Some _ _ _ Hh) as Hlt.
    destruct (lookup_lt_is_Some_2 ws0 i) as [h0 Hh0]; [lia|].
    pose proof (Hat i h0 Hh0) as Hwi.
    rewrite bool_decide_eq_false_2 in Hwi by lia.
    assert (h = h0) as -> by congruence.
    unfold SPComm.Free. rewrite (Hlive i h0 Hh0).
    apply IH; try done.
    + rewrite length_insert. lia.
    + rewrite length_insert. lia.
    + by rewrite length_insert.
    + intros k h Hk. destruct (decide (k = i)) as [->|Hne].
      * rewrite list_lookup_insert_eq by lia.
        rewrite bool_decide_eq_true_2 by lia. congruence.
      * rewrite list_lookup_insert_ne by done. rewrite (Hat k h Hk).
        destruct (decide (k < i)%nat).
        -- by rewrite !bool_decide_eq_true_2 by lia.
        -- by rewrite !bool_decide_eq_false_2 by lia.
  - apply lookup_ge_None in Hh. exists ws. split; [done|]. split; [done|].
    intros k h Hk. rewrite (Hat k h Hk).
    pose proof (lookup_lt_Some _ _ _ Hk).
    by rewrite bool_decide_eq_true_2 by lia.
Qed.

(** X2: freeing before any window was made is a no-op, not an error: a
    communicator whose flag is clear comes back unchanged, and a freshly
    constructed one is such a communicator.  Built without options, it
    holds an empty mapping of its own, and it counts one spoke less than
    the size of the strata communicator. *)
Theorem free_before_allocate (fullcomm strata_comm cylinder_comm : SPComm.Comm)
    (options : option (gmap string pyval)) :
  (∀ c, SPComm._windows_constructed c = false →
        SPComm.free_windows c = (Ok tt, c))
  ∧ SPComm.free_windows
      (SPComm.__init__ fullcomm strata_comm cylinder_comm options)
    = (Ok tt, SPComm.__init__ fullcomm strata_comm cylinder_comm options)
  ∧ SPComm.n_spokes
      (SPComm.__init__ fullcomm strata_comm cylinder_comm options)
    = Z.of_nat (SPComm.Get_size strata_comm) - 1
  ∧ ∀ key, getitem (SPComm.options
                      (SPComm.__init__ fullcomm strata_comm cylinder_comm None))
                   key
           = Raise (KeyError key).
Proof.
  split; [|split; [|split]]; try done.
  intros [flag g s cr n o ws b] Hflag. cbn in Hflag. subst flag. reflexivity.
Qed.

(** X3: with the windows made, at least [n_spokes] of them and these still
    live, [free_windows] frees exactly the handles [0 .. n_spokes-1] and
    leaves any further handle alone.  If the object has its buffers, they are
    dropped and the flag is cleared; calling it again then changes nothing
    and frees nothing twice.  If the object has no [buffers] attribute,
    [del self.buffers] raises AttributeError after the windows were freed and
    the flag stays set. *)
Theorem free_windows_frees_each_once (c : SPComm.t) :
  SPComm._windows_constructed c = true →
  (Z.to_nat (SPComm.n_spokes c) ≤ length (SPComm.windows c))%nat →
  (∀ k h, (k < Z.to_nat (SPComm.n_spokes c))%nat →
          SPComm.windows c !! k = Some h → SPComm.handle_freed h = false) →
  ∃ res c', SPComm.free_windows c = (res, c')
    ∧ SPComm.buffers c' = None
    ∧ SPComm.n_spokes c' = SPComm.n_spokes c
    ∧ length (SPComm.windows c') = length (SPComm.windows c)
    ∧ (∀ k h, SPComm.windows c !! k = Some h →
         SPComm.windows c' !! k
         = Some (if bool_decide (k < Z.to_nat (SPComm.n_spokes c))%nat
                 then SPComm.mkHandle (SPComm.handle_win h) true
                 else h))
    ∧ (is_Some (SPComm.buffers c) →
         res = Ok tt
         ∧ SPComm._windows_constructed c' = false
         ∧ SPComm.free_windows c' = (Ok tt, c'))
    ∧ (SPComm.buffers c = None →
         res = Raise (AttributeError "buffers")
         ∧ SPComm._windows_constructed c' = true).
Proof.
  intros Hflag Hlen Hlive. unfold SPComm.free_windows at 1. rewrite Hflag.
  destruct (free_loop_live (Z.to_nat (SPComm.n_spokes c)) 0 (SPComm.windows c))
    as (ws' & Hrun & Hlen' & Hat); [lia| |].
  { intros k h Hk. apply Hlive. lia. }
  rewrite Hrun.
  assert (∀ k h, SPComm.windows c !! k = Some h →
            ws' !! k
            = Some (if bool_decide (k < Z.to_nat (SPComm.n_spokes c))%nat
                    then SPComm.mkHandle (SPComm.handle_win h) true
                    else h)) as Hat'.
  { intros k h Hk. rewrite (Hat k h Hk).
    destruct (decide (k < Z.to_nat (SPComm.n_spokes c))%nat).
    - by rewrite !bool_decide_eq_true_2 by lia.
    - by rewrite !bool_decide_eq_false_2 by lia. }
  destruct (SPComm.buffers c) as [b|] eqn:Hb.
  - eexists _, _. split; [reflexivity|]. cbn.
    repeat split; done.
  - eexists _, _. split; [reflexivity|]. cbn.
    repeat split; try done; by intros [? [=]].
Qed.

Lemma free_windows_frees_each_once_witness :
  ∃ c', SPComm.free_windows
          (SPComm.mk true 0 0 0 2 ∅
             [SPComm.mkHandle (mkWin 32 8 0) false;
              SPComm.mkHandle (mkWin 16 8 0) false;
              SPComm.mkHandle (mkWin 8 8 0) false]
             (Some [[NaN; Finite 0]]))
        = (Ok tt, c')
    ∧ SPComm.windows c'
      = [SPComm.mkHandle (mkWin 32 8 0) true;
         SPComm.mkHandle (mkWin 16 8 0) true;
         SPComm.mkHandle (mkWin 8 8 0) false]
    ∧ SPComm.free_windows c' = (Ok tt, c').
Proof.
  destruct (free_windows_frees_each_once
              (SPComm.mk true 0 0 0 2 ∅
                 [SPComm.mkHandle (mkWin 32 8 0) false;
                  SPComm.mkHandle (mkWin 16 8 0) false;
                  SPComm.mkHandle (mkWin 8 8 0) false]
                 (Some [[NaN; Finite 0]])))
    as (res & c' & Hrun & _ & _ & _ & _ & Hsome & _).
  - reflexivity.
  - cbn. lia.
  - intros [|[|k]] h Hk Hh; cbn in Hk, Hh; [by injection Hh as <-..|lia].
  - destruct (Hsome (mk_is_Some _ _ eq_refl)) as (-> & _ & Hagain).
    exists c'. split; [exact Hrun|]. split; [|exact Hagain].
    cbv in Hrun. by injection Hrun as <-.
Defined.

(** The same object without its buffers: the windows are freed, the deletion
    fails, and the flag is left set. *)
Example free_windows_without_buffers :
  SPComm.free_windows
    (SPComm.mk true 0 0 0 1 ∅ [SPComm.mkHandle (mkWin 32 8 0) false] None)
  = (Raise (AttributeError "buffers"),
     SPComm.mk true 0 0 0 1 ∅ [SPComm.mkHandle (mkWin 32 8 0) true] None).
Proof. reflexivity. Qed.

(** X4: when [n_spokes] exceeds the number of windows, all live,
    [free_windows] frees every window it has and then fails with an
    IndexError; the flag stays set and the buffers stay. *)
Theorem free_windows_too_few (c : SPComm.t) :
  SPComm._windows_constructed c = true →
  (length (SPComm.windows c) < Z.to_nat (SPComm.n_spokes c))%nat →
  (∀ k h, SPComm.windows c !! k = Some h → SPComm.handle_freed h = false) →
  ∃ c', SPComm.free_windows c = (Raise IndexError, c')
    ∧ SPComm._windows_constructed c' = true
    ∧ SPComm.buffers c' = SPComm.buffers c
    ∧ length (SPComm.windows c') = length (SPComm.windows c)
    ∧ ∀ k h, SPComm.windows c !! k = Some h →
        SPComm.windows c' !! k
        = Some (SPComm.mkHandle (SPComm.handle_win h) true).
Proof.
  intros Hflag Hshort Hlive. unfold SPComm.free_windows. rewrite Hflag.
  destruct (free_loop_short (SPComm.windows c)
              (Z.to_nat (SPComm.n_spokes c)) 0 (SPComm.windows c))
    as (ws' & Hrun & Hlen' & Hat); [lia|lia|done| |done|].
  { intros k h Hk. by rewrite bool_decide_eq_false_2 by lia. }
  rewrite Hrun. eexists. split; [reflexivity|]. by cbn.
Qed.

Lemma free_windows_too_few_witness :
  ∃ c', SPComm.free_windows
          (SPComm.mk true 0 0 0 2 ∅ [SPComm.mkHandle (mkWin 32 8 0) false]
                     (Some [[NaN; Finite 0]]))
        = (Raise IndexError, c')
    ∧ SPComm._windows_constructed c' = true.
Proof.
  destruct (free_windows_too_few
              (SPComm.mk true 0 0 0 2 ∅ [SPComm.mkHandle (mkWin 32 8 0) false]
                         (Some [[NaN; Finite 0]])))
    as (c' & Hrun & Hflag & _).
  - reflexivity.
  - cbn. lia.
  - intros [|k] h Hh; cbn in Hh; [by injection Hh as <-|done].
  - by exists c'.
Defined.

(** ** The local candidate, read off the flat vector *)

Lemma length_reshape (flat : list Q) (rows cols : nat) :
  length (reshape flat rows cols) = rows.
Proof.
  revert flat. induction rows as [|rows IH]; intros flat; [done|].
  cbn [reshape length]. by rewrite IH.
Qed.

Lemma reshape_lookup (cols : nat) (rows : nat) :
  ∀ (flat : list Q) (i : nat), (i < rows)%nat →
    reshape flat rows cols !! i = Some (take cols (drop (i * cols) flat)).
Proof.
  induction rows as [|rows IH]; intros flat i Hi; [lia|].
  cbn [reshape]. destruct i as [|i]; [done|].
  cbn [lookup list_lookup]. rewrite IH by lia.
  by rewrite drop_drop.
Qed.

Lemma reshape_row_lengths (cols : nat) (rows : nat) :
  ∀ flat : list Q, length flat = (rows * cols)%nat →
    Forall (λ row, length row = cols) (reshape flat rows cols).
Proof.
  induction rows as [|rows IH]; intros flat Hlen; [constructor|].
  cbn [reshape]. constructor.
  - rewrite length_take. lia.
  - apply IH. rewrite length_drop. lia.
Qed.

Lemma concat_reshape (cols : nat) (rows : nat) :
  ∀ flat : list Q, length flat = (rows * cols)%nat →
    concat (reshape flat rows cols) = flat.
Proof.
  induction rows as [|rows IH]; intros flat Hlen.
  - cbn in *. by destruct flat.
  - cbn [reshape concat]. rewrite IH by (rewrite length_drop; lia).
    apply take_drop.
Qed.

(** Entry [j] of row [i] of the reshaped vector is entry [i * cols + j] of
    the flat one. *)
Lemma reshape_entry (flat : list Q) (rows cols i j : nat) :
  (i < rows)%nat → (j < cols)%nat →
  ∃ row, reshape flat rows cols !! i = Some row
    ∧ nth j row 0%Q = nth (i * cols + j) flat 0%Q.
Proof.
  intros Hi Hj. eexists. split; [by apply reshape_lookup|].
  by rewrite !nth_lookup, lookup_take_lt, lookup_drop by done.
Qed.

(** What a successful extraction went through. *)
Lemma extract_inv `{SlamHeuristic} (s : Spoke) (cand : list Q) :
  extract_local_candidate_soln s = Ok cand →
  let n := length (local_scenarios (opt s)) in
  let len := length (localnonants s) in
  n ≠ 0%nat
  ∧ (n * (len / n))%nat = len
  ∧ length cand = (len / n)%nat
  ∧ numpy_op (reshape (localnonants s) n (len / n)) = Ok cand.
Proof.
  unfold extract_local_candidate_soln. cbv zeta.
  destruct (Nat.eqb_spec (length (local_scenarios (opt s))) 0) as [|Hn];
    [discriminate|].
  destruct (Nat.eqb_spec
              (length (local_scenarios (opt s)) *
               (length (localnonants s) / length (local_scenarios (opt s))))
              (length (localnonants s))) as [Hdiv|]; [|discriminate].
  cbn [negb].
  destruct (numpy_op _) as [lc|e]; [|discriminate]. cbn [mbind result_bind].
  destruct (Nat.eqb_spec (length lc)
              (length (localnonants s) / length (local_scenarios (opt s))))
    as [Hlc|]; [|discriminate].
  cbn [negb]. intros [= <-]. done.
Qed.

(** The extraction on a vector that the scenario count divides. *)
Lemma extract_flat `{SlamHeuristic} (op : Q → Q → Q) (s : Spoke) :
  numpy_op = reduce_axis0 op →
  let n := length (local_scenarios (opt s)) in
  let len := length (localnonants s) in
  n ≠ 0%nat → (n * (len / n))%nat = len →
  ∃ row rows,
    reshape (localnonants s) n (len / n) = row :: rows
    ∧ extract_local_candidate_soln s = Ok (foldl (zip_with op) row rows)
    ∧ length (foldl (zip_with op) row rows) = (len / n)%nat.
Proof.
  intros Hop n len Hn Hdiv.
  pose proof (length_reshape (localnonants s) n (len / n)) as Hrows.
  pose proof (reshape_row_lengths (len / n) n (localnonants s)
                (eq_sym Hdiv)) as Hlens.
  destruct (reshape (localnonants s) n (len / n)) as [|row rows] eqn:Hre;
    [cbn in Hrows; lia|].
  exists row, rows. split; [done|]. split.
  - apply (extract_rows op Hop (len / n)); [done|].
    split; [symmetry; exact Hrows|].
    rewrite <- Hre. symmetry. apply concat_reshape. symmetry. exact Hdiv.
  - apply Forall_cons in Hlens as [Hrow Hlens]. by apply reduce_rows_length.
Qed.

(** X5: [extract_local_candidate_soln] of either heuristic fails with
    ZeroDivisionError when the spoke has no local scenario, with
    AssertionError when the scenario count does not divide the length of the
    fetched vector, and otherwise returns one value per variable; its own
    second assertion never fails. *)
Theorem extract_local_candidate_cases (H : SlamHeuristic) (s : Spoke) :
  H = SlamMaxHeuristic ∨ H = SlamMinHeuristic →
  let n := length (local_scenarios (opt s)) in
  let len := length (localnonants s) in
  (n = 0%nat → extract_local_candidate_soln s = Raise ZeroDivisionError)
  ∧ (n ≠ 0%nat → (len mod n)%nat ≠ 0%nat →
     extract_local_candidate_soln s = Raise AssertionError)
  ∧ (n ≠ 0%nat → (len mod n)%nat = 0%nat →
     ∃ cand, extract_local_candidate_soln s = Ok cand
       ∧ (n * length cand)%nat = len).
Proof.
  intros HH n len. split; [|split].
  - intros Hn. unfold extract_local_candidate_soln. fold n. by rewrite Hn.
  - intros Hn Hmod. unfold extract_local_candidate_soln. fold n len.
    rewrite (proj2 (Nat.eqb_neq n 0)) by done.
    rewrite (proj2 (Nat.eqb_neq (n * (len / n)) len)); [done|].
    pose proof (Nat.div_mod_eq len n). lia.
  - intros Hn Hmod.
    assert ((n * (len / n))%nat = len) as Hdiv
      by (pose proof (Nat.div_mod_eq len n); lia).
    destruct HH as [-> | ->].
    + destruct (extract_flat (H := SlamMaxHeuristic) Qmax s eq_refl Hn Hdiv)
        as (row & rows & _ & Hex & Hlen).
      eexists. split; [exact Hex|]. by rewrite Hlen.
    + destruct (extract_flat (H := SlamMinHeuristic) Qmin s eq_refl Hn Hdiv)
        as (row & rows & _ & Hex & Hlen).
      eexists. split; [exact Hex|]. by rewrite Hlen.
Qed.

Lemma extract_local_candidate_cases_witness :
  extract_local_candidate_soln (H := SlamMinHeuristic)
    (set_fetched 1 [1 # 1; 2 # 1; 3 # 1] sample_spoke)
  = Raise AssertionError
  ∧ ∃ cand, extract_local_candidate_soln (H := SlamMinHeuristic)
              (self sample_fetched) = Ok cand
      ∧ (2 * length cand)%nat = 6%nat.
Proof.
  split.
  - destruct (extract_local_candidate_cases SlamMinHeuristic
                (set_fetched 1 [1 # 1; 2 # 1; 3 # 1] sample_spoke))
      as (_ & Hbad & _); [by right|].
    apply Hbad; cbn; lia.
  - destruct (extract_local_candidate_cases SlamMinHeuristic
                (self sample_fetched)) as (_ & _ & Hok); [by right|].
    apply Hok; cbn; [lia|reflexivity].
Defined.

(** Slot [j] of the extracted candidate against the entries of column [j]
    in the flat vector, for any extremum operator. *)
Lemma extract_slot `{SlamHeuristic} (op : Q → Q → Q) (le : Q → Q → Prop)
    (s : Spoke) (cand : list Q) (j : nat) (m : Q) :
  (∀ x x' y y', (x == x')%Q → (y == y')%Q → le x y → le x' y') →
  (∀ x, le x x) → (∀ x y z, le x y → le y z → le x z) →
  (∀ x y, (le x y ∧ (op x y == y)%Q) ∨ (le y x ∧ (op x y == x)%Q)) →
  numpy_op = reduce_axis0 op →
  extract_local_candidate_soln s = Ok cand → cand !! j = Some m →
  (∀ i, (i < length (local_scenarios (opt s)))%nat →
        le (nth (i * length cand + j) (localnonants s) 0%Q) m)
  ∧ ∃ i, (i < length (local_scenarios (opt s)))%nat
      ∧ (nth (i * length cand + j) (localnonants s) 0%Q == m)%Q.
Proof.
  intros Hproper Hrefl Htrans Hspec Hop Hex Hj.
  destruct (extract_inv s cand Hex) as (Hn & Hdiv & Hlen & Hnp).
  rewrite Hlen.
  set (n := length (local_scenarios (opt s))) in *.
  set (nv := (length (localnonants s) / n)%nat) in *.
  assert (j < nv)%nat as Hjlt
    by (rewrite <- Hlen; by eapply lookup_lt_Some).
  pose proof (reshape_row_lengths nv n (localnonants s) (eq_sym Hdiv))
    as Hlens.
  pose proof (length_reshape (localnonants s) n nv) as Hrows.
  rewrite Hop in Hnp.
  destruct (reshape (localnonants s) n nv) as [|row rows] eqn:Hre;
    [discriminate|].
  cbn [reduce_axis0] in Hnp. injection Hnp as Hcand.
  pose proof (reduce_rows_is_ext op le Hproper Hrefl Htrans Hspec nv j row
                rows Hjlt Hlens) as [Hup (x & Hx & Hxm)].
  assert (nth j cand 0%Q = m) as Hnth by (by rewrite nth_lookup, Hj).
  rewrite Hcand, Hnth in Hup, Hxm.
  rewrite <- Hre in Hup, Hx. split.
  - intros i Hi. apply Hup.
    destruct (reshape_entry (localnonants s) n nv i j Hi Hjlt)
      as (r & Hr & <-).
    unfold column.
    apply (list_elem_of_fmap_2 (λ row : list Q, nth j row 0%Q)).
    by eapply list_elem_of_lookup_2.
  - unfold column in Hx. apply list_elem_of_fmap_1 in Hx as (r & -> & Hr).
    apply list_elem_of_lookup_1 in Hr as [i Hi].
    assert (i < n)%nat as Hlt.
    { apply lookup_lt_Some in Hi. by rewrite length_reshape in Hi. }
    exists i. split; [done|].
    destruct (reshape_entry (localnonants s) n nv i j Hlt Hjlt)
      as (r' & Hr' & <-).
    by assert (r' = r) as -> by congruence.
Qed.

(** X6: slot [j] of the local candidate is the largest (for the max
    heuristic; the smallest for the min heuristic) of the entries
    [i * num_vars + j] of the fetched vector, [i] ranging over the local
    scenarios: it bounds them all and is one of them. *)
Theorem local_candidate_slot_extremum (s : Spoke) (cand : list Q) (j : nat)
    (m : Q) :
  cand !! j = Some m →
  (extract_local_candidate_soln (H := SlamMaxHeuristic) s = Ok cand →
     (∀ i, (i < length (local_scenarios (opt s)))%nat →
        (nth (i * length cand + j) (localnonants s) 0 <= m)%Q)
     ∧ ∃ i, (i < length (local_scenarios (opt s)))%nat
         ∧ (nth (i * length cand + j) (localnonants s) 0 == m)%Q)
  ∧ (extract_local_candidate_soln (H := SlamMinHeuristic) s = Ok cand →
     (∀ i, (i < length (local_scenarios (opt s)))%nat →
        (m <= nth (i * length cand + j) (localnonants s) 0)%Q)
     ∧ ∃ i, (i < length (local_scenarios (opt s)))%nat
         ∧ (nth (i * length cand + j) (localnonants s) 0 == m)%Q).
Proof.
  intros Hj. split; intros Hex.
  - by apply (extract_slot (H := SlamMaxHeuristic) Qmax Qle s cand j m
                Qle_proper Qle_refl Qle_trans Qmax_extremum eq_refl).
  - by apply (extract_slot (H := SlamMinHeuristic) Qmin (λ x y, (y <= x)%Q)
                s cand j m Qge_proper Qge_refl Qge_trans Qmin_extremum
                eq_refl).
Qed.

Lemma local_candidate_slot_extremum_witness :
  (∀ i, (i < 2)%nat →
     (nth (i * 3 + 1) [23 # 10; 7 # 1; 5 # 2; 19 # 10; 8 # 1; 3 # 1] 0
      <= 8 # 1)%Q)
  ∧ ∃ i, (i < 2)%nat
      ∧ (nth (i * 3 + 1) [23 # 10; 7 # 1; 5 # 2; 19 # 10; 8 # 1; 3 # 1] 0
         == 8 # 1)%Q.
Proof.
  destruct (local_candidate_slot_extremum (self sample_fetched)
              [23 # 10; 8 # 1; 3 # 1] 1 (8 # 1)) as [Hmax _];
    [reflexivity|].
  apply Hmax. reflexivity.
Defined.

(** ** The fixing loop: when it goes through, and what it agrees on *)


(** A variable found fixed in a scenario after the scenario loop, traced
    back to the candidate. *)
Lemma fixed_scenario_var (rounding_bias : pyval) (cand : list Q)
    (ss ss' : list Scenario) (i ix : nat) (s' : Scenario) (v' : Var) :
  fix_scenarios rounding_bias cand ss = (Ok tt, ss') →
  ss' !! i = Some s' → nonant_indices s' !! ix = Some v' →
  var_id v' ∉ all_surrogate_nonants s' →
  ∃ v, cand !! ix = Some v ∧ fixed v' = true
    ∧ (((is_binary v' || is_integer v') = true
        ∧ ∃ b, as_number rounding_bias = Ok b
            ∧ value v' = Some (inject_Z (py_round (double_add v b))))
       ∨ ((is_binary v' || is_integer v') = false ∧ value v' = Some v)).
Proof.
  intros Hfix Hs' Hv' Hns.
  apply fix_scenarios_lookup in Hfix as [Hlen Hat].
  destruct (lookup_lt_is_Some_2 ss i) as [s Hs].
  { rewrite <- Hlen. by eapply lookup_lt_Some. }
  destruct (Hat i s Hs) as (s'' & Hs'' & Hone).
  assert (s'' = s') as -> by congruence.
  apply fix_scenario_inv in Hone as (vars' & upd & Hvars & ->).
  cbn [nonant_indices all_surrogate_nonants] in Hv', Hns.
  apply fix_nonants_lookup in Hvars as [Hvlen Hvat].
  destruct (lookup_lt_is_Some_2 (nonant_indices s) ix) as [var Hvar].
  { rewrite <- Hvlen. by eapply lookup_lt_Some. }
  destruct (Hvat ix var Hvar) as (var' & Hvar' & Hcase).
  assert (var' = v') as -> by congruence.
  destruct Hcase as [[Hin ->]|[_ (v & Hv & Hcase)]]; [done|].
  exists v. cbn in Hv. split; [done|].
  destruct Hcase as [(Hint & b & Hb & ->)|(Hint & ->)]; cbn; (split; [done|]).
  - left. split; [done|]. by exists b.
  - right. by split.
Qed.

(** X8: after a pass has fixed the candidate, the local scenarios agree:
    any two fixed (non-surrogate) variables that sit at the same index in two
    local scenarios and are of the same kind (both integer or binary, or
    both continuous) are fixed and hold the same value. *)
Theorem slam_pass_scenarios_agree `{SlamHeuristic} (env : PassEnv)
    (r r' : Rank) :
  slam_body env r = (Ok tt, r') →
  ∀ i1 i2 s1 s2 ix v1 v2,
    local_scenarios (opt (self r')) !! i1 = Some s1 →
    local_scenarios (opt (self r')) !! i2 = Some s2 →
    nonant_indices s1 !! ix = Some v1 →
    nonant_indices s2 !! ix = Some v2 →
    var_id v1 ∉ all_surrogate_nonants s1 →
    var_id v2 ∉ all_surrogate_nonants s2 →
    (is_binary v1 || is_integer v1) = (is_binary v2 || is_integer v2) →
    fixed v1 = true ∧ fixed v2 = true
    ∧ value v1 = value v2 ∧ is_Some (value v1).
Proof.
  intros Hrun i1 i2 s1 s2 ix v1 v2 Hs1 Hs2 Hv1 Hv2 Hn1 Hn2 Hkind.
  apply slam_body_inv in Hrun
    as (lc & gc & ss & pub & _ & _ & Hss & Hss' & _).
  rewrite Hss' in Hs1, Hs2.
  destruct (fixed_scenario_var _ _ _ _ _ _ _ _ Hss Hs1 Hv1 Hn1)
    as (x1 & Hx1 & Hf1 & Hc1).
  destruct (fixed_scenario_var _ _ _ _ _ _ _ _ Hss Hs2 Hv2 Hn2)
    as (x2 & Hx2 & Hf2 & Hc2).
  assert (x2 = x1) as -> by congruence.
  split; [done|]. split; [done|].
  destruct Hc1 as [(Hk1 & b1 & Hb1 & Hval1)|[Hk1 Hval1]],
           Hc2 as [(Hk2 & b2 & Hb2 & Hval2)|[Hk2 Hval2]];
    try congruence; rewrite Hval1, Hval2.
  - assert (b2 = b1) as -> by congruence. split; [done|eauto].
  - split; [done|eauto].
Qed.

Lemma slam_pass_scenarios_agree_witness :
  fixed (mkVar 2 false false true (Some (3 # 1))) = true
  ∧ fixed (mkVar 2 false false true (Some (3 # 1))) = true
  ∧ value (mkVar 2 false false true (Some (3 # 1)))
    = value (mkVar 2 false false true (Some (3 # 1)))
  ∧ is_Some (value (mkVar 2 false false true (Some (3 # 1)))).
Proof.
  apply (slam_pass_scenarios_agree (H := SlamMaxHeuristic)
           (sample_pass false 1 [] (Finite 100)) sample_fetched
           (slam_body (H := SlamMaxHeuristic)
              (sample_pass false 1 [] (Finite 100)) sample_fetched).2
           eq_refl 0%nat 1%nat
           (mkScenario "scen0" (1 # 2)
              [ mkVar 0 false true true (Some (3 # 1));
                mkVar 1 false false false None;
                mkVar 2 false false true (Some (3 # 1)) ]
              {[ 1%nat ]} true [0%nat; 2%nat])
           (mkScenario "scen1" (1 # 2)
              [ mkVar 0 false true true (Some (3 # 1));
                mkVar 1 false false false None;
                mkVar 2 false false true (Some (3 # 1)) ]
              {[ 1%nat ]} true [0%nat; 2%nat])
           2%nat).
  - vm_compute. reflexivity.
  - vm_compute. reflexivity.
  - reflexivity.
  - reflexivity.
  - cbn. intros Hin. apply elem_of_singleton in Hin. discriminate.
  - cbn. intros Hin. apply elem_of_singleton in Hin. discriminate.
  - reflexivity.
Defined.

(** ** What the rounding bias does *)

(** X9: what [round(val + rounding_bias)] gives an integer or binary
    variable.  With a numeric bias the iteration returns an integer that lies
    within one half of the double sum of entry and bias; a larger entry never
    gets a smaller integer; and without bias an entry that is an integer
    (and a double) is kept.  The sum is rounded to a double before [round]
    sees it: 2.0 plus a bias one step above 0.5 is 2.5 as a double and is
    rounded to 2, and 1e-17 plus 0.5 is 0.5 as a double and is rounded to 0,
    where the exact sums would give 3 and 1; the entries 2 and 3 under bias
    0.5 give 2 and 4 (ties go to the even neighbour). *)
Theorem rounding_bias_effect (var : Var) (ix : nat) :
  (is_binary var || is_integer var) = true →
  (∀ (bias : pyval) (b : Q) (cand : list Q) (v : Q),
     as_number bias = Ok b → cand !! ix = Some v →
     ∃ n : Z, value_to_fix bias cand ix var = Ok (inject_Z n)
       ∧ n = py_round (double_add v b)
       ∧ (Qabs (inject_Z n - double_add v b) <= 1 # 2)%Q)
  ∧ (∀ (bias : pyval) (cand cand' : list Q) (v v' x x' : Q),
       cand !! ix = Some v → cand' !! ix = Some v' → (v <= v')%Q →
       value_to_fix bias cand ix var = Ok x →
       value_to_fix bias cand' ix var = Ok x' → (x <= x')%Q)
  ∧ (∀ (cand : list Q) (n : Z),
       cand !! ix = Some (inject_Z n) → is_double (inject_Z n) = true →
       value_to_fix (PyFloat 0) cand ix var = Ok (inject_Z n))
  ∧ value_to_fix (PyFloat (4503599627370497 # 9007199254740992))
      (replicate ix 0%Q ++ [2%Q]) ix var = Ok 2%Q
  ∧ value_to_fix (PyFloat (1 # 2))
      (replicate ix 0%Q ++ [round_to_double (1 # 100000000000000000)]) ix var
    = Ok 0%Q
  ∧ value_to_fix (PyFloat (1 # 2)) (replicate ix 0%Q ++ [2%Q]) ix var = Ok 2%Q
  ∧ value_to_fix (PyFloat (1 # 2)) (replicate ix 0%Q ++ [3%Q]) ix var = Ok 4%Q.
Proof.
  intros Hint.
  assert (∀ (bias : pyval) (b : Q) (cand : list Q) (v : Q),
            as_number bias = Ok b → cand !! ix = Some v →
            value_to_fix bias cand ix var
            = Ok (inject_Z (py_round (double_add v b)))) as Hval.
  { intros bias b cand v Hb Hv. unfold value_to_fix.
    by rewrite Hv, Hint, Hb. }
  assert (∀ x : Q, (replicate ix 0%Q ++ [x]) !! ix = Some x) as Hlast.
  { intros x. rewrite lookup_app_r by (by rewrite length_replicate).
    by rewrite length_replicate, Nat.sub_diag. }
  split; [|split; [|split; [|split; [|split; [|split]]]]].
  - intros bias b cand v Hb Hv. exists (py_round (double_add v b)).
    split; [by apply Hval|]. split; [done|]. apply py_round_nearest.
  - intros bias cand cand' v v' x x' Hv Hv' Hle Hx Hx'.
    apply value_to_fix_ok in Hx as (v0 & Hv0 & [(_ & b & Hb & ->)|[Hc _]]);
      [|congruence].
    apply value_to_fix_ok in Hx' as (v0' & Hv0' & [(_ & b' & Hb' & ->)|[Hc _]]);
      [|congruence].
    assert (v0 = v) as -> by congruence.
    assert (v0' = v') as -> by congruence.
    assert (b' = b) as -> by congruence.
    rewrite <- Zle_Qle. apply py_round_monotone.
    apply round_to_double_monotone. lra.
  - intros cand n Hv Hd.
    rewrite (Hval (PyFloat 0) 0%Q cand (inject_Z n) eq_refl Hv).
    do 2 f_equal. rewrite <- (py_round_integer n) at 2.
    apply py_round_proper. unfold double_add.
    apply Qeq_bool_iff in Hd. rewrite <- Hd at 2.
    apply round_to_double_proper. ring.
  - by rewrite (Hval (PyFloat _) _ _ _ eq_refl (Hlast _)).
  - by rewrite (Hval (PyFloat _) _ _ _ eq_refl (Hlast _)).
  - by rewrite (Hval (PyFloat _) _ _ _ eq_refl (Hlast _)).
  - by rewrite (Hval (PyFloat _) _ _ _ eq_refl (Hlast _)).
Qed.

Lemma rounding_bias_effect_witness :
  value_to_fix (PyFloat (1 # 2)) [0%Q; 3%Q] 1
    (mkVar 4 true false false None) = Ok 4%Q
  ∧ value_to_fix (PyFloat 0) [0%Q; 3%Q] 1
      (mkVar 4 true false false None) = Ok (inject_Z 3).
Proof.
  destruct (rounding_bias_effect (mkVar 4 true false false None) 1 eq_refl)
    as (_ & _ & Hkeep & _ & _ & _ & Hodd).
  split; [exact Hodd|]. apply Hkeep; reflexivity.
Defined.

(** ** What the loops report *)

Lemma allreduced_app (t u : list event) :
  allreduced (t ++ u) = allreduced t ++ allreduced u.
Proof. apply omap_app. Qed.

Lemma update_if_improving_state_reader (v : double) (s : Spoke) :
  remote_write_id (update_if_improving_state v s).2 = remote_write_id s
  ∧ localnonants (update_if_improving_state v s).2 = localnonants s.
Proof.
  unfold update_if_improving_state. by destruct (improving _ _ _).
Qed.

Section Reports.

Variable body : PassEnv → M unit.

(** How many collective reductions one body performs. *)
Variable collectives : nat.

(** A body that goes through reports the pass's evaluation, once, performs
    its collectives and leaves the reader's last-seen counter alone. *)
Hypothesis body_reports :
  ∀ env r r1, body env r = (Ok tt, r1) →
    ∃ v, evaluation env = Ok v
      ∧ reported (trace r1) = reported (trace r) ++ [v]
      ∧ length (allreduced (trace r1))
        = (length (allreduced (trace r)) + collectives)%nat
      ∧ remote_write_id (self r1) = remote_write_id (self r).

Lemma spoke_loop_reports (envs : list PassEnv) :
  ∀ (iter : Z) (r r' : Rank) (e : ending),
    spoke_loop body envs iter r = (Ok e, r') →
    reported (trace r')
    = reported (trace r) ++ expected_reports envs (remote_write_id (self r))
    ∧ length (allreduced (trace r'))
      = (length (allreduced (trace r)) +
         collectives *
         length (expected_reports envs (remote_write_id (self r))))%nat.
Proof using body_reports.
  induction envs as [|env envs IH]; intros iter r r' e Hrun.
  - injection Hrun as _ <-. cbn. rewrite app_nil_r. split; [done|lia].
  - rewrite spoke_loop_cons in Hrun. cbv zeta in Hrun.
    cbn [expected_reports].
    destruct (hub_kill env).
    { injection Hrun as _ <-. cbn [trace].
      rewrite reported_app, allreduced_app. cbn. rewrite !app_nil_r.
      split; [done|lia]. }
    unfold poll in Hrun.
    destruct (remote_write_id (self r) <? write_id (hub_window env)) eqn:Hlt;
      cbn [fst snd] in Hrun.
    + destruct (body env _) as [[[]|x] r2] eqn:Hbody; [|discriminate].
      destruct (body_reports _ _ _ Hbody) as (v & Hev & Hrep & Hall & Hid).
      rewrite Hev.
      cbn [self trace] in Hrep, Hall, Hid.
      rewrite !reported_app in Hrep. rewrite !allreduced_app in Hall.
      cbn in Hrep, Hall. rewrite !app_nil_r in Hrep, Hall.
      destruct (IH _ _ _ _ Hrun) as [Hr Ha].
      rewrite Hid in Hr, Ha. cbn [remote_write_id set_fetched] in Hr, Ha.
      rewrite Hr, Hrep, Ha, Hall, <- app_assoc. cbn [length]. split; [done|lia].
    + destruct (IH _ _ _ _ Hrun) as [Hr Ha]. cbn [self trace] in Hr, Ha.
      rewrite !reported_app in Hr. rewrite !allreduced_app in Ha.
      cbn in Hr, Ha. rewrite !app_nil_r in Hr, Ha. by split.
Qed.

End Reports.

Lemma slam_body_reports `{SlamHeuristic} (env : PassEnv) (r r1 : Rank) :
  slam_body env r = (Ok tt, r1) →
  ∃ v, evaluation env = Ok v
    ∧ reported (trace r1) = reported (trace r) ++ [v]
    ∧ length (allreduced (trace r1)) = (length (allreduced (trace r)) + 1)%nat
    ∧ remote_write_id (self r1) = remote_write_id (self r).
Proof.
  intros Hrun.
  assert (remote_write_id (self r1) = remote_write_id (self r)) as Hid.
  { revert Hrun. unfold slam_body, update_if_improving. unfold_M.
    cbn [self trace].
    destruct (extract_local_candidate_soln (self r)); [|discriminate].
    destruct (Allreduce _ _); [|discriminate].
    destruct (fix_scenarios _ _ _) as [[[]|x] ss]; [|discriminate].
    cbn [self trace].
    destruct (evaluation env) as [obj|x]; [|discriminate].
    cbn [self trace].
    pose proof (update_if_improving_state_reader obj
                  (set_opt (set_local_scenarios ss (opt (self r))) (self r)))
      as [Hid _].
    destruct (update_if_improving_state _ _) as [pub s'].
    intros [= <-]. exact Hid. }
  apply slam_body_inv in Hrun
    as (lc & gc & ss & pub & _ & _ & _ & _ & obj & Hobj & ->).
  exists obj. rewrite reported_app, allreduced_app, length_app.
  by repeat split.
Qed.

Lemma xhat_body_reports (scen_limit : pyval) (env : PassEnv) (r r1 : Rank) :
  xhat_body scen_limit env r = (Ok tt, r1) →
  ∃ v, evaluation env = Ok v
    ∧ reported (trace r1) = reported (trace r) ++ [v]
    ∧ length (allreduced (trace r1)) = (length (allreduced (trace r)) + 0)%nat
    ∧ remote_write_id (self r1) = remote_write_id (self r).
Proof.
  unfold xhat_body, update_if_improving. unfold_M. cbn [self trace].
  destruct (evaluation env) as [v|x]; [|discriminate].
  cbn [self trace].
  pose proof (update_if_improving_state_reader v (self r)) as [Hid _].
  destruct (update_if_improving_state _ _) as [pub s'].
  cbn [self trace snd] in *. intros [= <-]. exists v. cbn [self trace].
  rewrite !reported_app, !allreduced_app. cbn. rewrite !app_nil_r.
  split; [done|]. split; [done|]. split; [lia|done].
Qed.

(** X10: when the aggregation loop runs without an exception, what it hands
    to [update_if_improving] is exactly one evaluation per pass that showed a
    counter above the last-seen one, in order and up to the first pass that
    showed the kill flag; it enters the collective reduction once per such
    pass, and never on a pass without new data. *)
Theorem slam_loop_reports_once_per_new_vector `{SlamHeuristic}
    (envs : list PassEnv) (iter : Z) (r r' : Rank) (e : ending) :
  slam_loop envs iter r = (Ok e, r') →
  reported (trace r')
  = reported (trace r) ++ expected_reports envs (remote_write_id (self r))
  ∧ length (allreduced (trace r'))
    = (length (allreduced (trace r))
       + length (expected_reports envs (remote_write_id (self r))))%nat.
Proof.
  intros Hrun. rewrite slam_loop_shape in Hrun.
  destruct (spoke_loop_reports slam_body 1
              (λ env r r1, slam_body_reports env r r1) envs iter r r' e Hrun)
    as [Hrep Hall].
  split; [done|]. lia.
Qed.

Lemma slam_loop_reports_once_per_new_vector_witness :
  reported (trace (slam_loop (H := SlamMaxHeuristic)
                     (sample_passes ++ sample_passes) 1
                     (mkRank sample_spoke [])).2)
  = [] ++ [Finite (10 # 1)].
Proof.
  apply (slam_loop_reports_once_per_new_vector (H := SlamMaxHeuristic)
           (sample_passes ++ sample_passes) 1 (mkRank sample_spoke [])
           (slam_loop (H := SlamMaxHeuristic)
              (sample_passes ++ sample_passes) 1
              (mkRank sample_spoke [])).2 (LoopExited 2)).
  vm_compute. reflexivity.
Defined.

(** X11: when the look-ahead loop runs without an exception, it reports
    exactly one bound per pass that showed a counter above the last-seen one,
    in order and up to the first pass that showed the kill flag, and it
    performs no collective reduction. *)
Theorem xhat_loop_reports_once_per_new_vector (scen_limit : pyval)
    (envs : list PassEnv) (iter : Z) (r r' : Rank) (e : ending) :
  xhat_loop scen_limit envs iter r = (Ok e, r') →
  reported (trace r')
  = reported (trace r) ++ expected_reports envs (remote_write_id (self r))
  ∧ length (allreduced (trace r')) = length (allreduced (trace r)).
Proof.
  intros Hrun. rewrite xhat_loop_shape in Hrun.
  destruct (spoke_loop_reports (xhat_body scen_limit) 0
              (xhat_body_reports scen_limit) envs iter r r' e Hrun)
    as [Hrep Hall].
  split; [done|lia].
Qed.

Lemma xhat_loop_reports_once_per_new_vector_witness :
  reported (trace (xhat_loop (PyInt 3) (sample_passes ++ sample_passes) 1
                     (mkRank sample_spoke [])).2)
  = [] ++ [Finite (10 # 1)].
Proof.
  apply (xhat_loop_reports_once_per_new_vector (PyInt 3)
           (sample_passes ++ sample_passes) 1 (mkRank sample_spoke [])
           (xhat_loop (PyInt 3) (sample_passes ++ sample_passes) 1
              (mkRank sample_spoke [])).2 (LoopExited 2)).
  vm_compute. reflexivity.
Defined.

(** A solve that raises ends the loop with that exception, and nothing is
    reported for the pass. *)
Example xhat_loop_solve_raises :
  (xhat_loop (PyInt 3)
     [mkPassEnv false (mkWindow [1 # 1] 1) []
        (Raise (RuntimeError "solve"))] 1
     (mkRank sample_spoke [])).1
  = Raise (RuntimeError "solve")
  ∧ reported (trace (xhat_loop (PyInt 3)
                       [mkPassEnv false (mkWindow [1 # 1] 1) []
                          (Raise (RuntimeError "solve"))] 1
                       (mkRank sample_spoke [])).2)
    = [].
Proof. split; reflexivity. Qed.

(** ** Startup of the look-ahead spoke *)

(** X12: the look-ahead spoke refuses bundles and any optimizer that is not
    an [Xhat_Eval]: [main] raises a RuntimeError with nothing done yet (no
    optimizer call, no kill check, the spoke untouched), the bundle check
    coming first.  A [bundles_per_rank] that is absent or equal to 0 is no
    bundling, any other value is; with both preconditions met the warm-up
    raises no RuntimeError. *)
Theorem xhat_preconditions_fatal (others : Q) (envs : list PassEnv)
    (s : Spoke) :
  (has_bundles (opt s) = true →
     run (xhat_main others envs) s
     = (Raise (RuntimeError "xhat spokes cannot have bundles (yet)"),
        mkRank s []))
  ∧ (has_bundles (opt s) = false → is_Xhat_Eval (opt s) = false →
     run (xhat_main others envs) s
     = (Raise (RuntimeError
                 "XhatShuffleInnerBound must be used with Xhat_Eval."),
        mkRank s []))
  ∧ (has_bundles (opt s) = false → is_Xhat_Eval (opt s) = true →
     ∀ msg r', run (xhatlooper_prep others) s
               ≠ (Raise (RuntimeError msg), r'))
  ∧ (options (opt s) !! "bundles_per_rank" = None →
     has_bundles (opt s) = false)
  ∧ (∀ z : Z, options (opt s) !! "bundles_per_rank" = Some (PyInt z) →
       has_bundles (opt s) = negb (z =? 0)).
Proof.
  split; [|split; [|split; [|split]]].
  - intros Hb. unfold run, xhat_main. unfold mbind at 1. unfold M_bind at 1.
    by rewrite has_bundles_prep.
  - intros Hb Hxe. unfold run, xhat_main. unfold mbind at 1.
    unfold M_bind at 1. by rewrite not_Xhat_Eval_prep.
  - intros Hb Hxe msg r'. unfold run.
    rewrite xhatlooper_prep_checked by done.
    destruct (Qle_bool _ _); discriminate.
  - intros Hnone. unfold has_bundles. by rewrite Hnone.
  - intros z Hz. unfold has_bundles. by rewrite Hz.
Qed.

Lemma xhat_preconditions_fatal_witness :
  run (xhat_main 0 sample_passes)
      (new_spoke (mkOpt false true (<["bundles_per_rank" := PyInt 2]> ∅)
                        [] 0 0 0 None None) Minimize)
  = (Raise (RuntimeError "xhat spokes cannot have bundles (yet)"),
     mkRank (new_spoke (mkOpt false true (<["bundles_per_rank" := PyInt 2]> ∅)
                              [] 0 0 0 None None) Minimize) []).
Proof.
  apply (xhat_preconditions_fatal 0 sample_passes
           (new_spoke (mkOpt false true (<["bundles_per_rank" := PyInt 2]> ∅)
                             [] 0 0 0 None None) Minimize)).
  reflexivity.
Defined.

(** ** Cuts of the proximal approximation *)

(** The secant cut, spelled out. *)
Lemma secant_satisfies (n : Z) (x y : Q) :
  Prox.satisfies (Prox.secant n) x y
  ↔ (0 <= y - (2 * inject_Z n + 1) * x + inject_Z n * (inject_Z n + 1))%Q.
Proof.
  unfold Prox.satisfies, Prox.secant, Prox._compute_mb.
  cbn [Prox.coef_xsq Prox.coef_x Prox.constant].
  repeat (rewrite inject_Z_mult || rewrite inject_Z_plus
          || rewrite inject_Z_opp).
  change (inject_Z 2) with 2%Q. change (inject_Z 1) with 1%Q.
  split; intros Hs; lra.
Qed.

Lemma integer_outside_unit_interval (n x : Z) :
  (inject_Z x <= inject_Z n)%Q ∨ (inject_Z n + 1 <= inject_Z x)%Q.
Proof.
  destruct (Z_le_gt_dec x n) as [Hle|Hgt].
  - left. by rewrite <- Zle_Qle.
  - right. change 1%Q with (inject_Z 1).
    rewrite <- inject_Z_plus, <- Zle_Qle. lia.
Qed.

(** X16: the cut built from [_compute_mb(n)] is the secant of the parabola
    over [n, n+1]: every integer point [(x, x^2)] satisfies it, the two end
    points with equality, and it cuts off every point strictly between [n]
    and [n + 1] that lies on or below the parabola.  Raising [xvarsqrd]
    never breaks it. *)
Theorem secant_cut_exact_on_integers (n : Z) :
  (∀ x : Z, Prox.satisfies (Prox.secant n) (inject_Z x) (inject_Z (x * x)))
  ∧ (∀ x : Z,
       (Prox.coef_xsq (Prox.secant n) * inject_Z (x * x)
        + Prox.coef_x (Prox.secant n) * inject_Z x
        + Prox.constant (Prox.secant n) == 0)%Q
       ↔ x = n ∨ x = n + 1)
  ∧ (∀ x y : Q, (inject_Z n < x)%Q → (x < inject_Z n + 1)%Q →
       (y <= x * x)%Q → ¬ Prox.satisfies (Prox.secant n) x y)
  ∧ (∀ x y y' : Q, Prox.satisfies (Prox.secant n) x y → (y <= y')%Q →
       Prox.satisfies (Prox.secant n) x y').
Proof.
  split; [|split; [|split]].
  - intros x. apply secant_satisfies. rewrite inject_Z_mult.
    destruct (integer_outside_unit_interval n x); nra.
  - intros x.
    unfold Prox.secant, Prox._compute_mb.
    cbn [Prox.coef_xsq Prox.coef_x Prox.constant].
    assert (1 * inject_Z (x * x) + - inject_Z (2 * n + 1) * inject_Z x
            + - inject_Z (- n * (n + 1))
            == inject_Z ((x - n) * (x - n - 1)))%Q as ->.
    { unfold Z.sub.
      repeat (rewrite inject_Z_mult || rewrite inject_Z_plus
              || rewrite inject_Z_opp).
      change (inject_Z 2) with 2%Q. change (inject_Z 1) with 1%Q. ring. }
    change 0%Q with (inject_Z 0). rewrite inject_Z_injective.
    rewrite Z.mul_eq_0. lia.
  - intros x y Hlo Hhi Hy Hs. apply secant_satisfies in Hs. nra.
  - intros x y y' Hs Hy. apply secant_satisfies in Hs.
    apply secant_satisfies. lra.
Qed.

Lemma Qsquare_nonneg (q : Q) : (0 <= q * q)%Q.
Proof. destruct (Qlt_le_dec q 0); nra. Qed.

(** Reduces the projections of the manager records, nothing else. *)
Ltac prox_simpl :=
  cbn [Prox.cuts Prox.set_cuts Prox.set_cut_index Prox.cut_index
       Prox.var_index Prox.log Prox.cls Prox.xvar Prox.xvarsqrd_value
       Prox.lb Prox.ub Prox.coef_xsq Prox.coef_x Prox.constant fst snd] in *.

(** X17: a continuous [add_cut] at [val] stores, under the key
    [(var_index, cut_index)], the cut [xvarsqrd - (2*val)*xvar + val*val >= 0]
    with both products computed in doubles, and raises [cut_index] by one.
    For a double [val] the slope is exactly [2 val], and the cut is the
    tangent of the parabola at [val] up to the rounding of the square: at a
    point on or above the parabola it can fail by at most half the spacing
    of the doubles around [val^2].  When the square of [val] is itself a
    double, the cut holds at every point on or above the parabola and is
    tight at [(val, val^2)].  As long as the variable's cut indices are below
    [cut_index], no existing cut is overwritten (the container grows by one),
    every other entry is kept, and the indices stay below [cut_index]. *)
Theorem continuous_add_cut_tangent (val : Q) (persistent_solver : bool)
    (m : Prox.t) :
  Prox.indices_below m →
  let m' := Prox.continuous_add_cut val persistent_solver m in
  (∃ c, Prox.cuts m' !! (Prox.var_index m, Prox.cut_index m) = Some c
     ∧ Prox.coef_xsq c = 1%Q
     ∧ (Prox.coef_x c == - double_mul 2 val)%Q
     ∧ (Prox.constant c == double_mul val val)%Q
     ∧ (is_double val = true →
        (Prox.coef_x c == - (2 * val))%Q
        ∧ (∀ x y : Q, (x * x <= y)%Q →
             (- (ulp (val * val) / 2)
              <= Prox.coef_xsq c * y + Prox.coef_x c * x
                 + Prox.constant c)%Q)
        ∧ (is_double (val * val) = true →
           (∀ x y : Q, (x * x <= y)%Q → Prox.satisfies c x y)
           ∧ (Prox.coef_xsq c * (val * val) + Prox.coef_x c * val
              + Prox.constant c == 0)%Q)))
  ∧ (∀ key c, Prox.cuts m !! key = Some c → Prox.cuts m' !! key = Some c)
  ∧ (∀ key, key ≠ (Prox.var_index m, Prox.cut_index m) →
       Prox.cuts m' !! key = Prox.cuts m !! key)
  ∧ size (Prox.cuts m') = S (size (Prox.cuts m))
  ∧ Prox.cut_index m' = Prox.cut_index m + 1
  ∧ Prox.indices_below m'
  ∧ Prox.log m'
    = Prox.log m ++ (if persistent_solver
                     then [Prox.SolverAddConstraint
                             (Prox.var_index m, Prox.cut_index m)]
                     else []).
Proof.
  intros Hbelow m'.
  assert (Prox.cuts m !! (Prox.var_index m, Prox.cut_index m) = None)
    as Hfresh.
  { destruct (Prox.cuts m !! (Prox.var_index m, Prox.cut_index m)) as [c|]
      eqn:Hc; [|done].
    apply Hbelow in Hc. lia. }
  subst m'. unfold Prox.continuous_add_cut. prox_simpl.
  split; [|split; [|split; [|split; [|split; [|split]]]]].
  - eexists. split; [apply lookup_insert_eq|]. prox_simpl.
    split; [done|]. split; [reflexivity|]. split; [ring|].
    intros Hval.
    assert (double_mul 2 val == 2 * val)%Q as H2
      by (by apply round_to_double_twice).
    split; [by rewrite H2|]. split.
    + intros x y Hy. rewrite H2.
      pose proof (round_to_double_error (val * val)) as He.
      apply Qabs_Qle_condition in He as [He _].
      fold (double_mul val val) in He.
      pose proof (Qsquare_nonneg (x - val)).
      set (a := double_mul val val) in *. set (h := (ulp (val * val) / 2)%Q) in *.
      nra.
    + intros Hsq. apply Qeq_bool_iff in Hsq.
      fold (double_mul val val) in Hsq. split.
      * intros x y Hy. unfold Prox.satisfies. prox_simpl. rewrite H2, Hsq.
        pose proof (Qsquare_nonneg (x - val)). nra.
      * rewrite H2, Hsq. ring.
  - intros key c Hc. rewrite lookup_insert_ne; [done|].
    intros <-. congruence.
  - intros key Hne. by rewrite lookup_insert_ne.
  - by apply map_size_insert_None.
  - done.
  - intros k c. unfold Prox.indices_below in *. prox_simpl.
    destruct (decide (k = Prox.cut_index m)) as [->|Hne].
    + intros _. lia.
    + rewrite lookup_insert_ne by congruence. intros Hc.
      apply Hbelow in Hc. lia.
  - done.
Qed.

Lemma continuous_add_cut_tangent_witness :
  ∃ c, Prox.cuts (Prox.continuous_add_cut (3 # 2) true
                    (Prox.mk Prox.Continuous
                       (Prox.mkXVar (Some (0 # 1)) (Some (3 # 1)) (3 # 2) false)
                       double_0 7 ∅ (0 # 1) (3 # 1) 0 []))
       !! (7, 0) = Some c
    ∧ (Prox.coef_xsq c * ((3 # 2) * (3 # 2)) + Prox.coef_x c * (3 # 2)
       + Prox.constant c == 0)%Q.
Proof.
  destruct (continuous_add_cut_tangent (3 # 2) true
              (Prox.mk Prox.Continuous
                 (Prox.mkXVar (Some (0 # 1)) (Some (3 # 1)) (3 # 2) false)
                 double_0 7 ∅ (0 # 1) (3 # 1) 0 []))
    as ((c & Hc & _ & _ & _ & Hdouble) & _).
  - intros k c Hc. cbn in Hc. by rewrite lookup_empty in Hc.
  - destruct (Hdouble eq_refl) as (_ & _ & Hexact).
    destruct (Hexact eq_refl) as [_ Htight].
    exists c. split; [exact Hc|exact Htight].
Defined.

(** The cut at 0.1: the constant stored is the double 0.010000000000000002,
    which lies above the square of the double 0.1, so the cut is slack at
    the point of tangency. *)
Example continuous_add_cut_at_one_tenth :
  let val := round_to_double (1 # 10) in
  Prox.cuts (Prox.continuous_add_cut val false
               (Prox.mk Prox.Continuous
                  (Prox.mkXVar (Some (0 # 1)) (Some (3 # 1)) val false)
                  double_0 7 ∅ (0 # 1) (3 # 1) 0 []))
    !! (7, 0)
  = Some (Prox.mkCut 1 (- double_mul 2 val) (- - double_mul val val))
  ∧ (val == 3602879701896397 # 36028797018963968)%Q
  ∧ (double_mul 2 val == 3602879701896397 # 18014398509481984)%Q
  ∧ (double_mul val val == 1441151880758559 # 144115188075855872)%Q
  ∧ (val * val < double_mul val val)%Q.
Proof.
  cbv zeta. split; [apply lookup_insert_eq|].
  split; [by vm_compute|]. split; [by vm_compute|].
  split; by vm_compute.
Qed.

Lemma prox_ltb_lt (a b : Q) : Prox.ltb a b = true ↔ (a < b)%Q.
Proof.
  unfold Prox.ltb. rewrite negb_true_iff, <- not_true_iff_false, Qle_bool_iff.
  split; [apply Qnot_le_lt|apply Qlt_not_le].
Qed.

(** A point that fails the tolerance test lies strictly below the
    parabola: the rounding of the square and of the difference cannot make
    a point on or above it fail. *)
Lemma check_tol_below_parabola (tolerance x : Q) (y : float64) :
  (0 <= tolerance)%Q →
  Prox.ltb tolerance (double_sub (double_mul x x) y) = true →
  (y < x * x)%Q.
Proof.
  intros Htol Hlt. apply prox_ltb_lt in Hlt. apply Qnot_le_lt. intros Hle.
  assert (0 < double_sub (double_mul x x) y)%Q as Hpos by lra.
  apply double_sub_pos in Hpos.
  pose proof (round_to_double_below (x * x) y Hle) as Hb.
  unfold double_mul in Hpos. lra.
Qed.



(** *** The discrete manager *)

(** The discrete [add_cut] as its two guarded stores, right then left. *)
Lemma discrete_add_cut_stores (val : Q) (ps : bool) (side : Prox.Side)
    (m : Prox.t) :
  Prox.discrete_add_cut val ps side m
  = let v := py_round val in
    let m1 :=
      match side with
      | Prox.BOTH | Prox.RIGHT =>
          Prox.store_if_new (Prox.var_index m, v + 1) (Prox.secant v)
            (v, v + 1) ps (Prox.ltb (inject_Z v) (Prox.ub m)) m
      | Prox.LEFT => m
      end in
    match side with
    | Prox.BOTH | Prox.LEFT =>
        Prox.store_if_new (Prox.var_index m1, v) (Prox.secant (v - 1))
          (v - 1, v) ps (Prox.ltb (Prox.lb m1) (inject_Z v)) m1
    | Prox.RIGHT => m1
    end.
Proof. by destruct side. Qed.

Lemma store_if_new_frame (key : Z * Z) (c : Prox.Cut) (iv : Z * Z)
    (ps within : bool) (m : Prox.t) :
  Prox.var_index (Prox.store_if_new key c iv ps within m) = Prox.var_index m
  ∧ Prox.lb (Prox.store_if_new key c iv ps within m) = Prox.lb m
  ∧ Prox.ub (Prox.store_if_new key c iv ps within m) = Prox.ub m
  ∧ Prox.cls (Prox.store_if_new key c iv ps within m) = Prox.cls m.
Proof. unfold Prox.store_if_new. by destruct (_ && _). Qed.

Lemma store_if_new_keeps (key : Z * Z) (c : Prox.Cut) (iv : Z * Z)
    (ps within : bool) (m : Prox.t) (key' : Z * Z) (c' : Prox.Cut) :
  Prox.cuts m !! key' = Some c' →
  Prox.cuts (Prox.store_if_new key c iv ps within m) !! key' = Some c'.
Proof.
  intros Hc. unfold Prox.store_if_new.
  destruct (bool_decide (is_Some (Prox.cuts m !! key))) eqn:Hp;
    cbn [negb andb]; [done|].
  destruct within; [|done]. prox_simpl.
  apply bool_decide_eq_false in Hp.
  rewrite lookup_insert_ne; [done|]. intros <-. apply Hp. eauto.
Qed.

Lemma store_if_new_lookup (key : Z * Z) (c : Prox.Cut) (iv : Z * Z)
    (ps within : bool) (m : Prox.t) (key' : Z * Z) (c' : Prox.Cut) :
  Prox.cuts (Prox.store_if_new key c iv ps within m) !! key' = Some c' →
  Prox.cuts m !! key' = Some c'
  ∨ (key' = key ∧ c' = c ∧ within = true ∧ Prox.cuts m !! key = None).
Proof.
  unfold Prox.store_if_new.
  destruct (bool_decide (is_Some (Prox.cuts m !! key))) eqn:Hp;
    cbn [negb andb]; [by left|].
  destruct within; [|by left]. prox_simpl.
  apply bool_decide_eq_false in Hp.
  destruct (decide (key' = key)) as [->|Hne].
  - rewrite lookup_insert_eq. intros [= <-]. right.
    repeat split; try done.
    destruct (Prox.cuts m !! key); [|done]. exfalso. apply Hp. eauto.
  - rewrite lookup_insert_ne by done. by left.
Qed.

(** A store whose key is present, or whose bound test fails, does nothing;
    and after a store one of the two is the case. *)
Lemma store_if_new_stable (key : Z * Z) (c : Prox.Cut) (iv : Z * Z)
    (ps within : bool) (m : Prox.t) :
  is_Some (Prox.cuts m !! key) ∨ within = false →
  Prox.store_if_new key c iv ps within m = m.
Proof.
  intros [Hp| ->]; unfold Prox.store_if_new.
  - by rewrite bool_decide_eq_true_2.
  - by rewrite andb_false_r.
Qed.

Lemma store_if_new_settled (key : Z * Z) (c : Prox.Cut) (iv : Z * Z)
    (ps within : bool) (m : Prox.t) :
  is_Some (Prox.cuts (Prox.store_if_new key c iv ps within m) !! key)
  ∨ within = false.
Proof.
  unfold Prox.store_if_new.
  destruct (bool_decide (is_Some (Prox.cuts m !! key))) eqn:Hp;
    cbn [negb andb].
  - left. by apply bool_decide_eq_true in Hp.
  - destruct within; [|by right]. left. prox_simpl.
    rewrite lookup_insert_eq. eauto.
Qed.

(** X19: the discrete [add_cut] never overwrites a cut, leaves every other
    entry of the container alone, and keeps the rule that the cut indexed
    [k] is the secant over [k-1, k]; so every cut of the variable stays
    satisfied by all integer points of the parabola.  Calling it a second
    time with the same arguments changes nothing at all. *)
Theorem discrete_add_cut_invariant (val : Q) (persistent_solver : bool)
    (side : Prox.Side) (m : Prox.t) :
  let m' := Prox.discrete_add_cut val persistent_solver side m in
  (∀ key c, Prox.cuts m !! key = Some c → Prox.cuts m' !! key = Some c)
  ∧ (∀ key c, Prox.cuts m' !! key = Some c →
       Prox.cuts m !! key = Some c
       ∨ key = (Prox.var_index m, py_round val + 1)
       ∨ key = (Prox.var_index m, py_round val))
  ∧ (Prox.indexed_by_right_end m → Prox.indexed_by_right_end m')
  ∧ (Prox.indexed_by_right_end m →
     ∀ k c (x : Z), Prox.cuts m' !! (Prox.var_index m, k) = Some c →
       Prox.satisfies c (inject_Z x) (inject_Z (x * x)))
  ∧ Prox.discrete_add_cut val persistent_solver side m' = m'.
Proof.
  intros m'.
  set (v := py_round val).
  set (S1 := λ x, Prox.store_if_new (Prox.var_index x, v + 1) (Prox.secant v)
                    (v, v + 1) persistent_solver
                    (Prox.ltb (inject_Z v) (Prox.ub x)) x).
  set (S0 := λ x, Prox.store_if_new (Prox.var_index x, v) (Prox.secant (v - 1))
                    (v - 1, v) persistent_solver
                    (Prox.ltb (Prox.lb x) (inject_Z v)) x).
  assert (∀ x, Prox.discrete_add_cut val persistent_solver side x
               = match side with
                 | Prox.BOTH => S0 (S1 x)
                 | Prox.LEFT => S0 x
                 | Prox.RIGHT => S1 x
                 end) as Hshape.
  { intros x. rewrite discrete_add_cut_stores. by destruct side. }
  assert (∀ x, Prox.var_index (S1 x) = Prox.var_index x
               ∧ Prox.lb (S1 x) = Prox.lb x ∧ Prox.ub (S1 x) = Prox.ub x)
    as HS1f.
  { intros x. unfold S1.
    destruct (store_if_new_frame (Prox.var_index x, v + 1) (Prox.secant v)
                (v, v + 1) persistent_solver
                (Prox.ltb (inject_Z v) (Prox.ub x)) x) as (? & ? & ? & _).
    done. }
  assert (∀ x, Prox.var_index (S0 x) = Prox.var_index x
               ∧ Prox.lb (S0 x) = Prox.lb x ∧ Prox.ub (S0 x) = Prox.ub x)
    as HS0f.
  { intros x. unfold S0.
    destruct (store_if_new_frame (Prox.var_index x, v) (Prox.secant (v - 1))
                (v - 1, v) persistent_solver
                (Prox.ltb (Prox.lb x) (inject_Z v)) x) as (? & ? & ? & _).
    done. }
  assert (∀ x key c, Prox.cuts x !! key = Some c →
                     Prox.cuts (S1 x) !! key = Some c) as HS1k
    by (intros; by apply store_if_new_keeps).
  assert (∀ x key c, Prox.cuts x !! key = Some c →
                     Prox.cuts (S0 x) !! key = Some c) as HS0k
    by (intros; by apply store_if_new_keeps).
  assert (∀ x key c, Prox.cuts (S1 x) !! key = Some c →
            Prox.cuts x !! key = Some c
            ∨ (key = (Prox.var_index x, v + 1) ∧ c = Prox.secant v)) as HS1l.
  { intros x key c Hc. apply store_if_new_lookup in Hc as [?|(? & ? & _)];
      auto. }
  assert (∀ x key c, Prox.cuts (S0 x) !! key = Some c →
            Prox.cuts x !! key = Some c
            ∨ (key = (Prox.var_index x, v) ∧ c = Prox.secant (v - 1)))
    as HS0l.
  { intros x key c Hc. apply store_if_new_lookup in Hc as [?|(? & ? & _)];
      auto. }
  assert (∀ x, S1 (S1 x) = S1 x) as HS1i.
  { intros x. unfold S1 at 1. apply store_if_new_stable.
    destruct (HS1f x) as (-> & _ & ->). apply store_if_new_settled. }
  assert (∀ x, S0 (S0 x) = S0 x) as HS0i.
  { intros x. unfold S0 at 1. apply store_if_new_stable.
    destruct (HS0f x) as (-> & -> & _). apply store_if_new_settled. }
  assert (∀ x, S1 (S0 (S1 x)) = S0 (S1 x)) as HS101.
  { intros x. unfold S1 at 1. apply store_if_new_stable.
    destruct (HS0f (S1 x)) as (-> & _ & ->).
    destruct (HS1f x) as (Hv & _ & Hu). rewrite Hv, Hu.
    destruct (store_if_new_settled (Prox.var_index x, v + 1) (Prox.secant v)
                (v, v + 1) persistent_solver
                (Prox.ltb (inject_Z v) (Prox.ub x)) x) as [[c Hc]|Hw];
      [left|by right].
    exists c. by apply HS0k. }
  assert (∀ key c, Prox.cuts m' !! key = Some c →
            Prox.cuts m !! key = Some c
            ∨ (key = (Prox.var_index m, v + 1) ∧ c = Prox.secant v)
            ∨ (key = (Prox.var_index m, v) ∧ c = Prox.secant (v - 1)))
    as Hlook.
  { intros key c. subst m'. rewrite Hshape. destruct side.
    - intros Hc. apply HS0l in Hc as [?|?]; auto.
    - intros Hc. apply HS1l in Hc as [?|?]; auto.
    - intros Hc. apply HS0l in Hc as [Hc|Hc].
      + apply HS1l in Hc as [?|?]; auto.
      + destruct (HS1f m) as (<- & _). auto. }
  assert (Prox.var_index m' = Prox.var_index m) as Hidx.
  { subst m'. rewrite Hshape. destruct side.
    - apply HS0f.
    - apply HS1f.
    - destruct (HS0f (S1 m)) as (-> & _). apply HS1f. }
  assert (Prox.indexed_by_right_end m → Prox.indexed_by_right_end m')
    as Hinv.
  { intros Hm k c. rewrite Hidx. intros Hc.
    apply Hlook in Hc as [Hc|[[[= ->] ->]|[[= ->] ->]]].
    - by apply Hm.
    - f_equal. lia.
    - done. }
  split; [|split; [|split; [|split]]].
  - intros key c Hc. subst m'. rewrite Hshape. destruct side; auto.
  - intros key c Hc. apply Hlook in Hc as [?|[[? _]|[? _]]]; auto.
  - exact Hinv.
  - intros Hm k c x Hc. rewrite <- Hidx in Hc.
    rewrite (Hinv Hm k c Hc).
    apply secant_satisfies. rewrite inject_Z_mult.
    destruct (integer_outside_unit_interval (k - 1) x); nra.
  - subst m'. rewrite !Hshape. destruct side; auto.
    by rewrite HS101, HS0i.
Qed.

(** A point strictly below the parabola over the unit interval [n, n+1]
    violates the secant cut of that interval. *)
Lemma secant_cuts_off (n : Z) (x y : Q) :
  (inject_Z n <= x)%Q → (x <= inject_Z n + 1)%Q → (y < x * x)%Q →
  ¬ Prox.satisfies (Prox.secant n) x y.
Proof.
  intros Hlo Hhi Hy Hs. apply secant_satisfies in Hs.
  assert (0 <= (x - inject_Z n) * (inject_Z n + 1 - x))%Q as Hp
    by (apply Qmult_le_0_compat; lra).
  lra.
Qed.

(** X20: for an integer variable with integer bounds [l < u], whenever
    [check_tol_add_cut] answers True at a point within the bounds, the
    container afterwards holds a cut of the variable, indexed by the rounded
    value or the one after it, that the current point violates: the point
    that failed the tolerance test is cut off, whether the cut was added by
    this call or was there before. *)
Theorem discrete_check_tol_cuts_off (tolerance : Q) (persistent_solver : bool)
    (m : Prox.t) (l u : Z) :
  Prox.cls m = Prox.Discrete →
  (Prox.lb m == inject_Z l)%Q → (Prox.ub m == inject_Z u)%Q → l < u →
  (inject_Z l <= Prox.x_value (Prox.xvar m))%Q →
  (Prox.x_value (Prox.xvar m) <= inject_Z u)%Q →
  (0 <= tolerance)%Q →
  Prox.indexed_by_right_end m →
  (Prox.check_tol_add_cut tolerance persistent_solver m).1 = true →
  ∃ k c,
    Prox.cuts (Prox.check_tol_add_cut tolerance persistent_solver m).2
      !! (Prox.var_index m, k) = Some c
    ∧ (k = py_round (Prox.x_value (Prox.xvar m))
       ∨ k = py_round (Prox.x_value (Prox.xvar m)) + 1)
    ∧ c = Prox.secant (k - 1)
    ∧ ¬ Prox.satisfies c (Prox.x_value (Prox.xvar m)) (Prox.xvarsqrd_value m).
Proof.
  intros Hcls Hlb Hub Hlu Hxl Hxu Htol Hinv.
  unfold Prox.check_tol_add_cut.
  set (x := Prox.x_value (Prox.xvar m)) in *.
  set (y := Prox.xvarsqrd_value m) in *.
  destruct (Prox.ltb tolerance (double_sub (double_mul x x) y)) eqn:Hlt;
    cbn [fst snd]; [intros _|discriminate].
  apply check_tol_below_parabola in Hlt; [|done].
  unfold Prox.add_cut. rewrite Hcls, discrete_add_cut_stores. cbv zeta.
  set (v := py_round x).
  set (idx := Prox.var_index m).
  set (m1 := Prox.store_if_new (idx, v + 1) (Prox.secant v) (v, v + 1)
               persistent_solver (Prox.ltb (inject_Z v) (Prox.ub m)) m).
  destruct (store_if_new_frame (idx, v + 1) (Prox.secant v) (v, v + 1)
              persistent_solver (Prox.ltb (inject_Z v) (Prox.ub m)) m)
    as (Hidx1 & Hlb1 & _). fold m1 in Hidx1, Hlb1. fold idx in Hidx1.
  rewrite Hidx1, Hlb1.
  assert (l ≤ v ≤ u) as Hv.
  { split.
    - rewrite <- (py_round_integer l). by apply py_round_monotone.
    - rewrite <- (py_round_integer u). by apply py_round_monotone. }
  pose proof (py_round_nearest x) as Hnear. fold v in Hnear.
  assert (inject_Z v - (1 # 2) <= x ∧ x <= inject_Z v + (1 # 2))%Q
    as [Hnl Hnh].
  { revert Hnear. apply Qabs_case; intros; split; lra. }
  assert (inject_Z (v - 1) == inject_Z v - 1)%Q as Hpred.
  { unfold Z.sub. rewrite inject_Z_plus, inject_Z_opp.
    change (inject_Z 1) with 1%Q. lra. }
  assert ((inject_Z v <= x)%Q ∧ v < u ∨ (x <= inject_Z v)%Q ∧ l < v)
    as [[Hge Hvu]|[Hle Hlv]].
  { destruct (Qlt_le_dec x (inject_Z v)) as [Hx|Hx].
    - right. split; [lra|].
      destruct (Z.eq_dec v l) as [->|]; [lra|lia].
    - destruct (Z.eq_dec v u) as [->|]; [|left; split; [done|lia]].
      right. split; [lra|lia]. }
  - (* the cut to the right of the rounded value *)
    assert (Prox.ltb (inject_Z v) (Prox.ub m) = true) as Hw.
    { apply prox_ltb_lt. rewrite Hub. by rewrite <- Zlt_Qlt. }
    destruct (store_if_new_settled (idx, v + 1) (Prox.secant v) (v, v + 1)
                persistent_solver (Prox.ltb (inject_Z v) (Prox.ub m)) m)
      as [[c Hc]|Hf]; [|congruence].
    fold m1 in Hc.
    assert (c = Prox.secant v) as ->.
    { apply store_if_new_lookup in Hc as [Hc|(_ & -> & _)]; [|done].
      apply Hinv in Hc. rewrite Hc. f_equal. lia. }
    exists (v + 1), (Prox.secant v). split; [|split; [|split]].
    + by apply store_if_new_keeps.
    + by right.
    + f_equal. lia.
    + apply secant_cuts_off; lra.
  - (* the cut to the left of the rounded value *)
    assert (Prox.ltb (Prox.lb m) (inject_Z v) = true) as Hw.
    { apply prox_ltb_lt. rewrite Hlb. by rewrite <- Zlt_Qlt. }
    destruct (store_if_new_settled (idx, v) (Prox.secant (v - 1)) (v - 1, v)
                persistent_solver (Prox.ltb (Prox.lb m) (inject_Z v)) m1)
      as [[c Hc]|Hf]; [|congruence].
    assert (c = Prox.secant (v - 1)) as ->.
    { pose proof Hc as Hc'.
      apply store_if_new_lookup in Hc' as [Hc'|(_ & -> & _)]; [|done].
      apply store_if_new_lookup in Hc' as [Hc'|([= Hk] & _)]; [|lia].
      by apply Hinv in Hc'. }
    exists v, (Prox.secant (v - 1)). split; [|split; [|split]].
    + done.
    + by left.
    + done.
    + apply secant_cuts_off; rewrite ?Hpred; lra.
Qed.

Lemma discrete_check_tol_cuts_off_witness :
  ∃ k c,
    Prox.cuts (Prox.check_tol_add_cut (1 # 10) false
                 (Prox.mk Prox.Discrete
                    (Prox.mkXVar (Some (0 # 1)) (Some (5 # 1)) (5 # 2) true)
                    double_6 7 ∅ (0 # 1) (5 # 1) 0 [])).2
      !! (7, k) = Some c
    ∧ (k = 2 ∨ k = 2 + 1)
    ∧ c = Prox.secant (k - 1)
    ∧ ¬ Prox.satisfies c (5 # 2) (6 # 1).
Proof.
  apply (discrete_check_tol_cuts_off (1 # 10) false
           (Prox.mk Prox.Discrete
              (Prox.mkXVar (Some (0 # 1)) (Some (5 # 1)) (5 # 2) true)
              double_6 7 ∅ (0 # 1) (5 # 1) 0 []) 0 5).
  - reflexivity.
  - reflexivity.
  - reflexivity.
  - lia.
  - discriminate.
  - discriminate.
  - discriminate.
  - intros k c Hc. cbn in Hc. by rewrite lookup_empty in Hc.
  - reflexivity.
Defined.

Lemma prox_ltb_inject (a b : Q) (x y : Z) :
  (a == inject_Z x)%Q → (b == inject_Z y)%Q → Prox.ltb a b = (x <? y).
Proof.
  intros Ha Hb. destruct (Z.ltb_spec x y) as [Hlt|Hge].
  - apply prox_ltb_lt. rewrite Ha, Hb. by rewrite <- Zlt_Qlt.
  - apply not_true_is_false. rewrite prox_ltb_lt, Ha, Hb, <- Zlt_Qlt. lia.
Qed.

(** X21: [create_initial_cuts] of the discrete manager with integer bounds
    [l] and [u].  On a fixed variable ([l = u]) it fails with the lookup of
    [create_cut] and the manager is untouched.  Otherwise it succeeds,
    overwrites nothing and adds cuts under the indices [l+1] and [u] only:
    with [l < u] these are the secants over [l, l+1] and [u-1, u]; with
    inverted bounds the container is left as it was. *)
Theorem discrete_initial_cuts (m : Prox.t) (l u : Z) :
  Prox.cls m = Prox.Discrete →
  (Prox.lb m == inject_Z l)%Q → (Prox.ub m == inject_Z u)%Q →
  Prox.indexed_by_right_end m →
  (l = u → Prox.create_initial_cuts m
           = (Some (Prox.AttributeError "create_cut"), m))
  ∧ (l ≠ u →
     (Prox.create_initial_cuts m).1 = None
     ∧ Prox.indexed_by_right_end (Prox.create_initial_cuts m).2
     ∧ (∀ key c, Prox.cuts m !! key = Some c →
          Prox.cuts (Prox.create_initial_cuts m).2 !! key = Some c)
     ∧ (∀ key c, Prox.cuts (Prox.create_initial_cuts m).2 !! key = Some c →
          Prox.cuts m !! key = Some c
          ∨ key = (Prox.var_index m, l + 1) ∨ key = (Prox.var_index m, u))
     ∧ (l < u →
        Prox.cuts (Prox.create_initial_cuts m).2 !! (Prox.var_index m, l + 1)
          = Some (Prox.secant l)
        ∧ Prox.cuts (Prox.create_initial_cuts m).2 !! (Prox.var_index m, u)
          = Some (Prox.secant (u - 1)))
     ∧ (u < l → Prox.cuts (Prox.create_initial_cuts m).2 = Prox.cuts m)).
Proof.
  intros Hcls Hlb Hub Hinv.
  assert (Qeq_bool (Prox.lb m) (Prox.ub m) = bool_decide (l = u)) as Hfixed.
  { case_bool_decide as Hd.
    - apply Qeq_bool_iff. rewrite Hlb, Hub. by subst.
    - apply not_true_is_false. rewrite Qeq_bool_iff, Hlb, Hub.
      rewrite inject_Z_injective. done. }
  assert (py_round (Prox.lb m) = l) as Hl
    by (rewrite (py_round_proper _ _ Hlb); apply py_round_integer).
  assert (py_round (Prox.ub m) = u) as Hu
    by (rewrite (py_round_proper _ _ Hub); apply py_round_integer).
  unfold Prox.create_initial_cuts. rewrite Hfixed, Hcls.
  split.
  - intros He. by rewrite bool_decide_eq_true_2.
  - intros Hne. rewrite bool_decide_eq_false_2 by done. cbn [fst snd].
    rewrite !discrete_add_cut_stores. cbv zeta. prox_simpl.
    rewrite Hl, (prox_ltb_inject _ _ l u) by (done || by rewrite inject_Z_injective).
    set (ma := Prox.set_cuts (Prox.cuts m)
                 (Prox.log m ++ [Prox.AddingCutForLb (Prox.lb m)]) m).
    set (m1 := Prox.store_if_new (Prox.var_index m, l + 1) (Prox.secant l)
                 (l, l + 1) false (l <? u) ma).
    destruct (store_if_new_frame (Prox.var_index m, l + 1) (Prox.secant l)
                (l, l + 1) false (l <? u) ma) as (Hi1 & Hl1 & Hu1 & _).
    fold m1 in Hi1, Hl1, Hu1. unfold ma in Hi1, Hl1, Hu1. prox_simpl.
    rewrite Hi1, Hl1, Hu1, Hu.
    rewrite (prox_ltb_inject _ _ l u) by (done || by rewrite inject_Z_injective).
    set (mc := Prox.set_cuts (Prox.cuts m1)
                 (Prox.log m1 ++ [Prox.AddingCutForUb (Prox.ub m)]) m1).
    set (md := Prox.store_if_new (Prox.var_index m, u) (Prox.secant (u - 1))
                 (u - 1, u) false (l <? u) mc).
    assert (∀ key c, Prox.cuts m !! key = Some c →
                     Prox.cuts m1 !! key = Some c) as K1
      by (intros key c Hc; by apply store_if_new_keeps).
    assert (∀ key c, Prox.cuts m1 !! key = Some c →
                     Prox.cuts md !! key = Some c) as K2
      by (intros key c Hc; by apply store_if_new_keeps).
    assert (∀ key c, Prox.cuts m1 !! key = Some c →
              Prox.cuts m !! key = Some c
              ∨ (key = (Prox.var_index m, l + 1) ∧ c = Prox.secant l)) as L1.
    { intros key c Hc. apply store_if_new_lookup in Hc as [?|(? & ? & _)];
        auto. }
    assert (∀ key c, Prox.cuts md !! key = Some c →
              Prox.cuts m1 !! key = Some c
              ∨ (key = (Prox.var_index m, u) ∧ c = Prox.secant (u - 1)))
      as L2.
    { intros key c Hc. apply store_if_new_lookup in Hc as [?|(? & ? & _)];
        auto. }
    assert (Prox.var_index md = Prox.var_index m) as Hid.
    { destruct (store_if_new_frame (Prox.var_index m, u)
                  (Prox.secant (u - 1)) (u - 1, u) false (l <? u) mc)
        as (Hi & _).
      fold md in Hi. rewrite Hi. unfold mc. prox_simpl. exact Hi1. }
    assert (∀ k c, Prox.cuts md !! (Prox.var_index m, k) = Some c →
                   c = Prox.secant (k - 1)) as Hsec.
    { intros k c Hc. apply L2 in Hc as [Hc|[[= ->] ->]]; [|done].
      apply L1 in Hc as [Hc|[[= ->] ->]]; [by apply Hinv|].
      f_equal. lia. }
    split; [done|]. split; [|split; [|split; [|split]]].
    + intros k c. rewrite Hid. apply Hsec.
    + intros key c Hc. by apply K2, K1.
    + intros key c Hc. apply L2 in Hc as [Hc|[-> _]]; [|auto].
      apply L1 in Hc as [Hc|[-> _]]; auto.
    + intros Hlu.
      assert ((l <? u) = true) as Hw by by apply Z.ltb_lt.
      split.
      * destruct (store_if_new_settled (Prox.var_index m, l + 1)
                    (Prox.secant l) (l, l + 1) false (l <? u) ma)
          as [[c Hc]|Hf]; [|congruence].
        fold m1 in Hc. apply K2 in Hc. rewrite Hc. f_equal.
        rewrite (Hsec _ _ Hc). f_equal. lia.
      * destruct (store_if_new_settled (Prox.var_index m, u)
                    (Prox.secant (u - 1)) (u - 1, u) false (l <? u) mc)
          as [[c Hc]|Hf]; [|congruence].
        fold md in Hc. rewrite Hc. f_equal. by apply Hsec.
    + intros Hul.
      assert ((l <? u) = false) as Hw by (apply Z.ltb_ge; lia).
      unfold md. rewrite store_if_new_stable by auto.
      unfold mc. prox_simpl. unfold m1.
      rewrite store_if_new_stable by auto. done.
Qed.

Lemma discrete_initial_cuts_witness :
  Prox.cuts (Prox.create_initial_cuts
               (Prox.mk Prox.Discrete
                  (Prox.mkXVar (Some (0 # 1)) (Some (5 # 1)) (5 # 2) true)
                  double_6 7 ∅ (0 # 1) (5 # 1) 0 [])).2 !! (7, 0 + 1)
    = Some (Prox.secant 0)
  ∧ Prox.cuts (Prox.create_initial_cuts
                 (Prox.mk Prox.Discrete
                    (Prox.mkXVar (Some (0 # 1)) (Some (5 # 1)) (5 # 2) true)
                    double_6 7 ∅ (0 # 1) (5 # 1) 0 [])).2 !! (7, 5)
    = Some (Prox.secant (5 - 1)).
Proof.
  destruct (discrete_initial_cuts
              (Prox.mk Prox.Discrete
                 (Prox.mkXVar (Some (0 # 1)) (Some (5 # 1)) (5 # 2) true)
                 double_6 7 ∅ (0 # 1) (5 # 1) 0 []) 0 5) as [_ Hopen].
  - reflexivity.
  - reflexivity.
  - reflexivity.
  - intros k c Hc. cbn in Hc. by rewrite lookup_empty in Hc.
  - destruct Hopen as (_ & _ & _ & _ & Hcuts & _); [lia|].
    apply Hcuts. lia.
Defined.

(** *** Initial cuts of the continuous manager, and the constructor *)

(** The tangent of the parabola at a double whose square is a double, as
    the continuous [add_cut] builds it. *)
Lemma tangent_exact (val x y : Q) :
  is_double val = true → is_double (val * val) = true →
  (0 <= 1 * y + - double_mul 2 val * x + - - double_mul val val)%Q
  ↔ (2 * val * x - val * val <= y)%Q.
Proof.
  intros Hval Hsq.
  assert (double_mul 2 val == 2 * val)%Q as H2
    by (by apply round_to_double_twice).
  apply Qeq_bool_iff in Hsq. fold (double_mul val val) in Hsq.
  rewrite H2, Hsq.
  assert (1 * y + - (2 * val) * x + - - (val * val)
          == y - (2 * val * x - val * val))%Q as -> by ring.
  split; intros; lra.
Qed.

(** X22: [create_initial_cuts] of the continuous manager.  On a fixed
    variable it fails with the lookup of [create_cut] and the manager is
    untouched.  Otherwise it stores the cut built at the lower bound under
    the current cut index and the one built at the upper bound under the
    next one, each with slope and constant computed in doubles; for a bound
    that is a double with a square that is a double (an integer bound of
    moderate size, say) the cut is the tangent of the parabola at the bound.
    It overwrites nothing, so the container grows by two, advances the cut
    index by two and tells the persistent solver nothing. *)
Theorem continuous_initial_cuts (m : Prox.t) :
  Prox.cls m = Prox.Continuous →
  Prox.indices_below m →
  ((Prox.lb m == Prox.ub m)%Q →
   Prox.create_initial_cuts m = (Some (Prox.AttributeError "create_cut"), m))
  ∧ (¬ (Prox.lb m == Prox.ub m)%Q →
     (Prox.create_initial_cuts m).1 = None
     ∧ (∃ c, Prox.cuts (Prox.create_initial_cuts m).2
               !! (Prox.var_index m, Prox.cut_index m) = Some c
           ∧ (∀ x y, Prox.satisfies c x y
                     ↔ (double_mul 2 (Prox.lb m) * x
                        - double_mul (Prox.lb m) (Prox.lb m) <= y)%Q)
           ∧ (is_double (Prox.lb m) = true →
              is_double (Prox.lb m * Prox.lb m) = true →
              ∀ x y, Prox.satisfies c x y
                     ↔ (2 * Prox.lb m * x - Prox.lb m * Prox.lb m <= y)%Q))
     ∧ (∃ c, Prox.cuts (Prox.create_initial_cuts m).2
               !! (Prox.var_index m, Prox.cut_index m + 1) = Some c
           ∧ (∀ x y, Prox.satisfies c x y
                     ↔ (double_mul 2 (Prox.ub m) * x
                        - double_mul (Prox.ub m) (Prox.ub m) <= y)%Q)
           ∧ (is_double (Prox.ub m) = true →
              is_double (Prox.ub m * Prox.ub m) = true →
              ∀ x y, Prox.satisfies c x y
                     ↔ (2 * Prox.ub m * x - Prox.ub m * Prox.ub m <= y)%Q))
     ∧ (∀ key c, Prox.cuts m !! key = Some c →
          Prox.cuts (Prox.create_initial_cuts m).2 !! key = Some c)
     ∧ size (Prox.cuts (Prox.create_initial_cuts m).2)
       = S (S (size (Prox.cuts m)))
     ∧ Prox.cut_index (Prox.create_initial_cuts m).2 = Prox.cut_index m + 2
     ∧ Prox.indices_below (Prox.create_initial_cuts m).2
     ∧ Prox.log (Prox.create_initial_cuts m).2
       = Prox.log m ++ [Prox.AddingCutForLb (Prox.lb m);
                        Prox.AddingCutForUb (Prox.ub m)]).
Proof.
  intros Hcls Hbelow.
  assert (∀ k, Prox.cut_index m ≤ k →
               Prox.cuts m !! (Prox.var_index m, k) = None) as Hfresh.
  { intros k Hk.
    destruct (Prox.cuts m !! (Prox.var_index m, k)) as [c|] eqn:Hc; [|done].
    apply Hbelow in Hc. lia. }
  assert (∀ a b x y : Q,
            (0 <= 1 * y + - a * x + - - b)%Q ↔ (a * x - b <= y)%Q) as Hcut.
  { intros a b x y.
    assert (1 * y + - a * x + - - b == y - (a * x - b))%Q as -> by ring.
    split; intros; lra. }
  unfold Prox.create_initial_cuts. split.
  - intros He. apply Qeq_bool_iff in He. by rewrite He.
  - intros Hne.
    destruct (Qeq_bool (Prox.lb m) (Prox.ub m)) eqn:He;
      [by apply Qeq_bool_iff in He|].
    rewrite Hcls. unfold Prox.continuous_add_cut. cbn [fst snd]. prox_simpl.
    rewrite !app_nil_r.
    split; [done|]. split; [|split; [|split; [|split; [|split; [|split]]]]].
    + eexists. split; [|split].
      * rewrite lookup_insert_ne by (intros [=]; lia).
        apply lookup_insert_eq.
      * intros x y. unfold Prox.satisfies. prox_simpl. apply Hcut.
      * intros Hd Hsq x y. unfold Prox.satisfies. prox_simpl.
        by apply tangent_exact.
    + eexists. split; [apply lookup_insert_eq|]. split.
      * intros x y. unfold Prox.satisfies. prox_simpl. apply Hcut.
      * intros Hd Hsq x y. unfold Prox.satisfies. prox_simpl.
        by apply tangent_exact.
    + intros key c Hc.
      rewrite !lookup_insert_ne; [done|intros <-..].
      * rewrite Hfresh in Hc by lia. done.
      * rewrite Hfresh in Hc by lia. done.
    + rewrite !map_size_insert_None; [done|by apply Hfresh; lia|].
      rewrite lookup_insert_ne by (intros [=]; lia). apply Hfresh. lia.
    + lia.
    + unfold Prox.indices_below in *. intros k c. prox_simpl.
      destruct (decide (k = Prox.cut_index m + 1)) as [->|Hk1];
        [intros _; lia|].
      rewrite lookup_insert_ne by congruence.
      destruct (decide (k = Prox.cut_index m)) as [->|Hk0];
        [intros _; lia|].
      rewrite lookup_insert_ne by congruence.
      intros Hc. apply Hbelow in Hc. lia.
    + by rewrite <- app_assoc.
Qed.

Lemma continuous_initial_cuts_witness :
  size (Prox.cuts (Prox.create_initial_cuts
                     (Prox.mk Prox.Continuous
                        (Prox.mkXVar (Some (0 # 1)) (Some (3 # 1)) (2 # 1)
                           false)
                        double_3 7 ∅ (0 # 1) (3 # 1) 0 [])).2)
  = S (S (size (∅ : gmap (Z * Z) Prox.Cut))).
Proof.
  destruct (continuous_initial_cuts
              (Prox.mk Prox.Continuous
                 (Prox.mkXVar (Some (0 # 1)) (Some (3 # 1)) (2 # 1) false)
                 double_3 7 ∅ (0 # 1) (3 # 1) 0 [])) as [_ Hopen].
  - reflexivity.
  - intros k c Hc. cbn in Hc. by rewrite lookup_empty in Hc.
  - destruct Hopen as (_ & _ & _ & _ & Hsize & _); [discriminate|].
    exact Hsize.
Defined.

(** X23: the constructor fails, with RuntimeError, exactly when the
    variable lacks a bound.  Otherwise the manager is of the discrete class
    exactly for an integer variable, works on the caller's container and on
    the variable's bounds, and when the container holds no cut of the
    variable yet, both the rule of the continuous class (cut indices lie
    below [cut_index]) and the rule of the discrete class (the cut indexed
    [k] is the secant over [k-1, k]) hold of the new manager. *)
Theorem prox_new_cases (xvar : Prox.XVar) (xvarsqrd_value : float64)
    (xsqvar_cuts : gmap (Z * Z) Prox.Cut) (ndn_i : Z) :
  ((∃ e, Prox.new xvar xvarsqrd_value xsqvar_cuts ndn_i = inl e)
   ↔ Prox.x_lb xvar = None ∨ Prox.x_ub xvar = None)
  ∧ (∀ e, Prox.new xvar xvarsqrd_value xsqvar_cuts ndn_i = inl e →
       ∃ msg, e = Prox.Exn (RuntimeError msg))
  ∧ (∀ m, Prox.new xvar xvarsqrd_value xsqvar_cuts ndn_i = inr m →
       (Prox.cls m = Prox.Discrete ↔ Prox.x_is_integer xvar = true)
       ∧ Prox.x_lb xvar = Some (Prox.lb m)
       ∧ Prox.x_ub xvar = Some (Prox.ub m)
       ∧ Prox.cuts m = xsqvar_cuts
       ∧ Prox.var_index m = ndn_i
       ∧ Prox.log m = []
       ∧ ((∀ k, xsqvar_cuts !! (ndn_i, k) = None) →
          Prox.indices_below m ∧ Prox.indexed_by_right_end m)
       ∧ (Prox.indices_below m →
          ∀ k, 0 ≤ k → xsqvar_cuts !! (ndn_i, k) = None)).
Proof.
  unfold Prox.new.
  destruct (Prox.x_lb xvar) as [lb|], (Prox.x_ub xvar) as [ub|].
  - split; [|split].
    + split; [intros [e [=]]|intros [[=]|[=]]].
    + intros e [=].
    + intros m [= <-]. prox_simpl.
      split; [by destruct (Prox.x_is_integer xvar)|].
      do 5 (split; [done|]). split.
      * intros Hnone. split; intros k c; prox_simpl; by rewrite Hnone.
      * intros Hbelow k Hk.
        destruct (xsqvar_cuts !! (ndn_i, k)) as [c|] eqn:Hc; [|done].
        apply Hbelow in Hc. prox_simpl. lia.
  - split; [|split].
    + split; eauto.
    + intros e [= <-]. eauto.
    + intros m [=].
  - split; [|split].
    + split; eauto.
    + intros e [= <-]. eauto.
    + intros m [=].
  - split; [|split].
    + split; eauto.
    + intros e [= <-]. eauto.
    + intros m [=].
Qed.
